(** * Emscripten glue passes of binaryen ([src/wasm-emscripten.cpp])

    A shallow embedding of the post-compilation passes of
    [wasm-emscripten.cpp]: the memory-growth synthesizer, the dynCall thunk
    synthesizer, the [AsmConstWalker] that rewrites [emscripten_asm_const]
    call sites, and the metadata emitter, followed by the properties that
    the design document states about them and by further properties of
    the passes: what they keep, when they fail, and how they compose.

    Conventions of the embedding:
    - [std::string] is [string]; positions ([size_t]) are [nat];
    - [std::map] / [std::set] keyed by strings are [gmap] / [gset]; their
      ascending iteration order is recovered by sorting the keys where the
      source iterates;
    - [int32_t] is a [Z] with the wrap-around written out ([to_int32]);
      [Address] and [Index], both unsigned and 32 bits wide, are [N]
      ([to_address]);
    - an assertion failure or an out-of-contract access is [None];
    - a [while] loop takes fuel, and runs out of it as [None];
    - [std::ostream] is the string of the bytes written so far;
    - what the sources at hand use but do not define is marked as modelled
      from the design document. *)

From Stdlib Require Import ZArith Ascii String DecimalString.
From stdpp Require Import base option list gmap strings sorting.

(** ** Characters and [std::string] primitives *)

Definition dquote : ascii := "034"%char.
Definition backslash : ascii := "\"%char.
Definition newline : ascii := "010"%char.

Module StdString.

(** [s.substr(0, n)] *)
Fixpoint take (n : nat) (s : string) : string :=
  match n, s with
  | S n', String c s' => String c (take n' s')
  | _, _ => ""
  end.

(** [s.substr(n)] *)
Fixpoint drop (n : nat) (s : string) : string :=
  match n, s with
  | S n', String _ s' => drop n' s'
  | _, _ => s
  end.

(** First position [>= i] (counted from [i] at the head of [s]) where
    [pat] occurs. *)
Fixpoint find_from (pat s : string) (i : nat) : option nat :=
  if String.prefix pat s then Some i
  else match s with
       | "" => None
       | String _ s' => find_from pat s' (S i)
       end.

(** [code.find(pat, pos)], with [None] for [npos]. *)
Definition find (code pat : string) (pos : nat) : option nat :=
  if decide (pos ≤ String.length code)
  then find_from pat (drop pos code) pos
  else None.

(** [code.replace(pos, len, str)] *)
Definition replace (code : string) (pos len : nat) (str : string) : string :=
  take pos code +:+ str +:+ drop (pos + len) code.

(** [code[i]] *)
Definition at_ (code : string) (i : nat) : option ascii := String.get i code.

End StdString.

(** ** [AsmConstWalker::asmConstSig] *)

(** The [for] loop of [asmConstSig]: [i] is the loop index, [rest] the
    characters [baseSig[i..]], [sig] the accumulator. *)
Fixpoint asmConstSig_loop (i : nat) (rest : string) (sig : string) : string :=
  match rest with
  | "" => sig
  | String c rest' =>
      asmConstSig_loop (S i) rest'
        (if decide (i ≠ 1) then sig +:+ String c "" else sig)
  end.

Definition asmConstSig (baseSig : string) : string :=
  asmConstSig_loop 0 baseSig "".

(** ** [AsmConstWalker::escape] *)

(** The two-character text [\n] (a backslash and the letter n). *)
Definition esc_n : string := String backslash "n".
(** backslash, backslash, n *)
Definition esc_esc_n : string := String backslash (String backslash "n").
(** backslash, double quote *)
Definition esc_quote : string := String backslash (String dquote "").
(** backslash, backslash, double quote *)
Definition esc_esc_quote : string :=
  String backslash (String backslash (String dquote "")).

(** First [while] loop of [escape]. [None] when the fuel runs out. *)
Fixpoint escape_newlines (fuel : nat) (code : string) (curr : nat)
  : option string :=
  match fuel with
  | O => None
  | S fuel' =>
      match StdString.find code esc_n curr with
      | None => Some code
      | Some curr' =>
          escape_newlines fuel' (StdString.replace code curr' 2 esc_esc_n)
            (curr' + 3)
      end
  end.

(** Second [while] loop of [escape]. *)
Fixpoint escape_quotes (fuel : nat) (code : string) (curr : nat)
  : option string :=
  match fuel with
  | O => None
  | S fuel' =>
      match StdString.find code (String dquote "") curr with
      | None => Some code
      | Some curr' =>
          if decide (curr' = 0 ∨ StdString.at_ code (curr' - 1) ≠ Some backslash)
          then escape_quotes fuel'
                 (StdString.replace code curr' 1 esc_quote) (curr' + 2)
          else escape_quotes fuel'
                 (StdString.replace code curr' 1 esc_esc_quote) (curr' + 3)
      end
  end.

(** [escape]: both loops, each given one more step than the string has
    characters. *)
Definition escape (input : string) : option string :=
  code ← escape_newlines (S (String.length input)) input 0;
  escape_quotes (S (String.length code)) code 0.

(** ** The IR the passes build and inspect ([wasm.h], [wasm-builder.h])

    The IR is consumed by [wasm-emscripten.cpp] and declared elsewhere. Its
    types are given here with the fields and operations that the passes
    read, write and call. *)

(** [cashew::IString] / [wasm::Name] *)
Abbreviation Name := string (only parsing).

(** Modelled from the spec: [Name::hasSubstring], which is not part of the
    sources at hand: the name is, or contains as a substring, the given
    one. *)
Fixpoint hasSubstring (name substring : string) : bool :=
  String.prefix substring name
  || match name with
     | "" => false
     | String _ name' => hasSubstring name' substring
     end.

(** Modelled from the spec: the primitive value types that the Signature
    Codec encodes (declared in [wasm.h], which is not part of the sources
    at hand). *)
Inductive WasmType := none | i32 | i64 | f32 | f64.

Global Instance WasmType_eq_dec : EqDecision WasmType.
Proof. solve_decision. Defined.

(** Modelled from the spec: [wasm::Literal], which is not part of the
    sources at hand: a typed constant. Integer payloads are kept as [Z]
    within the range of their width. *)
Inductive Literal :=
| LitNone
| LitI32 (v : Z)
| LitI64 (v : Z)
| LitF32 (bits : Z)
| LitF64 (bits : Z).

Global Instance Literal_eq_dec : EqDecision Literal.
Proof. solve_decision. Defined.

Definition Literal_type (l : Literal) : WasmType :=
  match l with
  | LitNone => none
  | LitI32 _ => i32
  | LitI64 _ => i64
  | LitF32 _ => f32
  | LitF64 _ => f64
  end.

(** Modelled from the spec: [Literal::geti32], which is not part of the
    sources at hand: the payload of an [i32] literal; on any other literal
    the read is a fatal assumption violation. *)
Definition geti32 (l : Literal) : option Z :=
  match l with
  | LitI32 v => Some v
  | _ => None
  end.

Definition two32 : Z := 2 ^ 32.

(** Conversion of a machine integer to [int32_t]. *)
Definition to_int32 (z : Z) : Z := (z + 2 ^ 31) `mod` two32 - 2 ^ 31.

(** Modelled from the spec: [wasm::Address], which is not part of the
    sources at hand: a 32-bit unsigned number. *)
Abbreviation Address := N (only parsing).

(** Conversion of a machine integer to the 32-bit unsigned payload of an
    [Address] (and of an [Index]). *)
Definition to_address (z : Z) : Address := Z.to_N (z `mod` two32).

Inductive HostOp := PageSize | CurrentMemory | GrowMemory | HasFeature.

Inductive ExternalKind := KFunction | KTable | KMemory | KGlobal.

(** Modelled from the spec: the typed expression tree of [wasm.h], which
    is not part of the sources at hand, with the expression kinds that
    these passes create, inspect or cast. *)
#[warnings="-register-all"]
Inductive Expression :=
| Nop
| Const (value : Literal)
| GetLocal (index : N) (type : WasmType)
| Call (target : Name) (operands : list Expression) (type : WasmType)
| CallImport (target : Name) (operands : list Expression) (type : WasmType)
| CallIndirect (fullType : Name) (target : Expression)
    (operands : list Expression) (type : WasmType)
| Host (op : HostOp) (nameOperand : option Name)
    (operands : list Expression) (type : WasmType).

(** [Expression::type] *)
Definition typeOf (e : Expression) : WasmType :=
  match e with
  | Nop => none
  | Const value => Literal_type value
  | GetLocal _ type => type
  | Call _ _ type => type
  | CallImport _ _ type => type
  | CallIndirect _ _ _ type => type
  | Host _ _ _ type => type
  end.

(** A [CallImport] node as the visitor receives it: [target], [operands]
    and [type]. *)
Record CallImportNode := mkCallImport {
  ci_target : Name;
  ci_operands : list Expression;
  ci_type : WasmType
}.

(** Modelled from the spec: the records of [wasm.h], which is not part of
    the sources at hand, with the fields that the passes read and write:
    [NameType], [FunctionType], [Function], [Import], [Export],
    [Memory::Segment] and [Module]. *)
Record NameType := mkNameType { nt_name : Name; nt_type : WasmType }.

Record FunctionType := mkFunctionType {
  ft_name : Name;
  ft_result : WasmType;
  ft_params : list WasmType
}.

Record Function := mkFunction {
  fn_name : Name;
  fn_result : WasmType;
  fn_params : list WasmType;
  fn_vars : list WasmType;
  fn_localNames : list Name;
  fn_body : option Expression
}.

Record Import := mkImport {
  im_name : Name;
  im_module : Name;
  im_base : Name;
  im_functionType : Name;
  im_kind : ExternalKind
}.

Record Export := mkExport {
  ex_name : Name;
  ex_value : Name;
  ex_kind : ExternalKind
}.

(** A memory segment: the bytes of [Memory::Segment::data]. *)
Record Segment := mkSegment { seg_data : list ascii }.

Record Module := mkModule {
  functionTypes : list FunctionType;
  imports : list Import;
  exports : list Export;
  functions : list Function;
  segments : list Segment
}.

(** Modelled from the spec: the collection operations of [Module]
    ([wasm.h], not part of the sources at hand). The core only adds to or
    queries the collections; adding a second definition of a name yields
    two colliding definitions. *)
Module Wasm.

Definition getFunction (wasm : Module) (name : Name) : option Function :=
  List.find (λ f, bool_decide (fn_name f = name)) (functions wasm).

Definition addFunction (wasm : Module) (f : Function) : Module :=
  mkModule (functionTypes wasm) (imports wasm) (exports wasm)
    (functions wasm ++ [f]) (segments wasm).

Definition addExport (wasm : Module) (e : Export) : Module :=
  mkModule (functionTypes wasm) (imports wasm) (exports wasm ++ [e])
    (functions wasm) (segments wasm).

Definition addImport (wasm : Module) (i : Import) : Module :=
  mkModule (functionTypes wasm) (imports wasm ++ [i]) (exports wasm)
    (functions wasm) (segments wasm).

Definition addFunctionType (wasm : Module) (t : FunctionType) : Module :=
  mkModule (functionTypes wasm ++ [t]) (imports wasm) (exports wasm)
    (functions wasm) (segments wasm).

Fixpoint remove_first (name : Name) (l : list Import) : list Import :=
  match l with
  | [] => []
  | i :: l' =>
      if decide (im_name i = name) then l' else i :: remove_first name l'
  end.

Definition removeImport (wasm : Module) (name : Name) : Module :=
  mkModule (functionTypes wasm) (remove_first name (imports wasm))
    (exports wasm) (functions wasm) (segments wasm).

End Wasm.

(** Modelled from the spec: the node constructors of [Builder]
    ([wasm-builder.h], not part of the sources at hand). *)
Module Builder.

Definition makeFunction (name : Name) (params : list NameType)
    (resultType : WasmType) (vars : list NameType) : Function :=
  mkFunction name resultType (nt_type <$> params) (nt_type <$> vars)
    ((nt_name <$> params) ++ (nt_name <$> vars)) None.

Definition makeGetLocal (index : N) (type : WasmType) : Expression :=
  GetLocal index type.

(** A host operation; all of them produce an [i32]. *)
Definition makeHost (op : HostOp) (nameOperand : option Name)
    (operands : list Expression) : Expression :=
  Host op nameOperand operands i32.

Definition makeCallIndirect (type : FunctionType) (target : Expression)
    (args : list Expression) : Expression :=
  CallIndirect (ft_name type) target args (ft_result type).

End Builder.

Definition setBody (f : Function) (body : Expression) : Function :=
  mkFunction (fn_name f) (fn_result f) (fn_params f) (fn_vars f)
    (fn_localNames f) (Some body).

(** ** The Signature Codec ([asm_v_wasm.h]) *)

(** Modelled from the spec: the Signature Codec, which is consumed and not
    part of the sources at hand. A signature is a string in which each
    character encodes one type; the result comes first, so that position 1
    is the first parameter (the slot that [asmConstSig] drops). *)
Module Sig.

Definition getSig (type : WasmType) : ascii :=
  match type with
  | i32 => "i"
  | i64 => "j"
  | f32 => "f"
  | f64 => "d"
  | none => "v"
  end%char.

Definition sigToWasmType (c : ascii) : option WasmType :=
  if decide (c = "i"%char) then Some i32
  else if decide (c = "j"%char) then Some i64
  else if decide (c = "f"%char) then Some f32
  else if decide (c = "d"%char) then Some f64
  else if decide (c = "v"%char) then Some none
  else None.

Fixpoint ofTypes (l : list WasmType) : string :=
  match l with
  | [] => ""
  | t :: l' => String (getSig t) (ofTypes l')
  end.

Fixpoint toTypes (s : string) : option (list WasmType) :=
  match s with
  | "" => Some []
  | String c s' => t ← sigToWasmType c; l ← toTypes s'; Some (t :: l)
  end.

Definition ofShape (result : WasmType) (params : list WasmType) : string :=
  String (getSig result) (ofTypes params).

(** [getSig] of a [Function] *)
Definition ofFunction (f : Function) : string :=
  ofShape (fn_result f) (fn_params f).

(** [getSig] of a [FunctionType] *)
Definition ofFunctionType (t : FunctionType) : string :=
  ofShape (ft_result t) (ft_params t).

(** [getSig] of a call node: the type of the call, then of each operand. *)
Definition ofCall (curr : CallImportNode) : string :=
  ofShape (ci_type curr) (typeOf <$> ci_operands curr).

End Sig.

(** Modelled from the spec: the function-type registry
    ([ensureFunctionType], not part of the sources at hand). It returns
    the registered function type whose signature is [sig], registering a
    new one, decoded from [sig], when there is none. [None] when [sig] is
    not a signature. *)
Definition ensureFunctionType (sig : string) (wasm : Module)
  : option (FunctionType * Module) :=
  match List.find (λ t, bool_decide (Sig.ofFunctionType t = sig))
          (functionTypes wasm) with
  | Some t => Some (t, wasm)
  | None =>
      match sig with
      | "" => None
      | String c sig' =>
          result ← Sig.sigToWasmType c;
          params ← Sig.toTypes sig';
          let t := mkFunctionType ("FUNCSIG$" +:+ sig) result params in
          Some (t, Wasm.addFunctionType wasm t)
      end
  end.

(** ** Shared constants ([shared-constants.h], [asmjs/shared-constants.h]) *)

(** The fixed names that the passes take from the shared-constants headers:
    the external name of the memory-growth function, the name of its
    parameter, and the namespace of the generated imports. *)
Class SharedConstants := {
  GROW_WASM_MEMORY : Name;
  NEW_SIZE : Name;
  ENV : Name
}.

Definition EMSCRIPTEN_ASM_CONST : Name := "emscripten_asm_const".

(** Decimal text of an integer, as [std::to_string] and [operator<<] give. *)
Definition to_string (z : Z) : string := NilZero.string_of_int (Z.to_int z).

(** A NUL-terminated byte run read as a C string; [None] when the bytes
    hold no terminator (the read would leave the buffer). *)
Fixpoint c_str (data : list ascii) : option string :=
  match data with
  | [] => None
  | c :: data' =>
      if decide (c = zero) then Some "" else String c <$> c_str data'
  end.

Section Passes.
Context `{SharedConstants}.

(** ** [generateMemoryGrowthFunction] *)

Definition generateMemoryGrowthFunction (wasm : Module) : Module :=
  let name := GROW_WASM_MEMORY in
  let params := [mkNameType NEW_SIZE i32] in
  let growFunction := Builder.makeFunction name params i32 [] in
  let growFunction :=
    setBody growFunction
      (Builder.makeHost GrowMemory None [Builder.makeGetLocal 0 i32]) in
  let wasm := Wasm.addFunction wasm growFunction in
  let export_ := mkExport name name KFunction in
  Wasm.addExport wasm export_.

(** ** [makeDynCallThunks] *)

Fixpoint hasI64Param (params : list WasmType) : bool :=
  match params with
  | [] => false
  | ty :: params' => if decide (ty = i64) then true else hasI64Param params'
  end.

Definition hasI64ResultOrParam (ft : FunctionType) : bool :=
  if decide (ft_result ft = i64) then true else hasI64Param (ft_params ft).

Definition removeImportsWithSubstring (module : Module) (name : Name)
  : Module :=
  let toRemove :=
    im_name <$> List.filter (λ i, hasSubstring (im_name i) name)
                  (imports module) in
  foldl Wasm.removeImport module toRemove.

(** State of the loop of [makeDynCallThunks]. *)
Record ThunkState := mkThunkState {
  ts_wasm : Module;
  ts_sigs : gset string;
  ts_generatedFunctions : list Function
}.

(** The thunk built for signature [sig] with function type [funcType].
    The counters [int p] and [unsigned i] wrap at their widths. *)
Definition makeThunk (sig : string) (funcType : FunctionType) : Function :=
  let params :=
    mkNameType "fptr" i32
    :: imap (λ p ty, mkNameType (to_string (to_int32 (Z.of_nat p))) ty)
         (ft_params funcType) in
  let f :=
    Builder.makeFunction ("dynCall_" +:+ sig) params (ft_result funcType) [] in
  let fptr := Builder.makeGetLocal 0 i32 in
  let args :=
    imap (λ i ty, Builder.makeGetLocal (to_address (Z.of_nat i + 1)%Z) ty)
      (ft_params funcType) in
  let call := Builder.makeCallIndirect funcType fptr args in
  setBody f call.

(** One iteration of the loop over [tableSegmentData]. [None] when the
    table names a function that the module does not have. *)
Definition thunkStep (st : ThunkState) (indirectFunc : Name)
  : option ThunkState :=
  func ← Wasm.getFunction (ts_wasm st) indirectFunc;
  let sig := Sig.ofFunction func in
  '(funcType, wasm) ← ensureFunctionType sig (ts_wasm st);
  if hasI64ResultOrParam funcType
  then Some (mkThunkState wasm (ts_sigs st) (ts_generatedFunctions st))
  else if decide (sig ∈ ts_sigs st)
  then Some (mkThunkState wasm (ts_sigs st) (ts_generatedFunctions st))
  else
    let f := makeThunk sig funcType in
    Some (mkThunkState (Wasm.addFunction wasm f) ({[sig]} ∪ ts_sigs st)
            (ts_generatedFunctions st ++ [f])).

Fixpoint thunkLoop (st : ThunkState) (tableSegmentData : list Name)
  : option ThunkState :=
  match tableSegmentData with
  | [] => Some st
  | indirectFunc :: rest => st' ← thunkStep st indirectFunc; thunkLoop st' rest
  end.

(** Returns the generated functions and the module as it is left. *)
Definition makeDynCallThunks (wasm : Module) (tableSegmentData : list Name)
  : option (list Function * Module) :=
  let wasm := removeImportsWithSubstring wasm EMSCRIPTEN_ASM_CONST in
  st ← thunkLoop (mkThunkState wasm ∅ []) tableSegmentData;
  Some (ts_generatedFunctions st, ts_wasm st).

(** ** [AsmConstWalker] *)

Record AsmConstWalker := mkWalker {
  wasm : Module;
  segmentsByAddress : gmap Address Address;
  sigsForCode : gmap string (gset string);
  ids : gmap string Address;
  allSigs : gset string
}.

(** The walker as its constructor leaves it. *)
Definition newWalker (_wasm : Module) (_segmentsByAddress : gmap Address Address)
  : AsmConstWalker :=
  mkWalker _wasm _segmentsByAddress ∅ ∅ ∅.

Definition setWasm (w : AsmConstWalker) (m : Module) : AsmConstWalker :=
  mkWalker m (segmentsByAddress w) (sigsForCode w) (ids w) (allSigs w).

(** [codeForConstAddr], given the literal of the [Const] node. *)
Definition codeForConstAddr (w : AsmConstWalker) (value : Literal)
  : option string :=
  address ← geti32 value;
  match segmentsByAddress w !! to_address address with
  | None => escape ""
  | Some segmentIndex =>
      segment ← segments (wasm w) !! N.to_nat segmentIndex;
      input ← c_str (seg_data segment);
      escape input
  end.

Definition idLiteralForCode (w : AsmConstWalker) (code : string)
  : Literal * AsmConstWalker :=
  match ids w !! code with
  | None =>
      let id := to_int32 (Z.of_nat (size (ids w))) in
      (LitI32 id,
       mkWalker (wasm w) (segmentsByAddress w) (sigsForCode w)
         (<[code := to_address id]> (ids w)) (allSigs w))
  | Some a =>
      let id := to_int32 (Z.of_N a) in
      (LitI32 id, w)
  end.

Definition nameForImportWithSig (sig : string) : Name :=
  EMSCRIPTEN_ASM_CONST +:+ "_" +:+ sig.

Definition addImport (w : AsmConstWalker) (importName : Name)
    (baseSig : string) : option AsmConstWalker :=
  '(type, m) ← ensureFunctionType baseSig (wasm w);
  let import := mkImport importName ENV importName (ft_name type) KFunction in
  Some (setWasm w (Wasm.addImport m import)).

(** [sigsForCode[code].insert(sig)] *)
Definition recordSig (w : AsmConstWalker) (code sig : string)
  : AsmConstWalker :=
  mkWalker (wasm w) (segmentsByAddress w)
    (<[code := {[sig]} ∪ default ∅ (sigsForCode w !! code)]> (sigsForCode w))
    (ids w) (allSigs w).

(** [visitCallImport]: the node as rewritten and the walker after the
    visit. [None] when the first operand is missing or is not a [Const]
    holding an [i32] (the casts assert), or when string recovery leaves
    its buffers. *)
Definition visitCallImport (w : AsmConstWalker) (curr : CallImportNode)
  : option (CallImportNode * AsmConstWalker) :=
  if hasSubstring (ci_target curr) EMSCRIPTEN_ASM_CONST then
    match ci_operands curr with
    | Const arg :: operands' =>
        code ← codeForConstAddr w arg;
        let '(value, w) := idLiteralForCode w code in
        let curr :=
          mkCallImport (ci_target curr) (Const value :: operands')
            (ci_type curr) in
        let baseSig := Sig.ofCall curr in
        let sig := asmConstSig baseSig in
        let w := recordSig w code sig in
        let importName := nameForImportWithSig sig in
        let curr := mkCallImport importName (ci_operands curr) (ci_type curr) in
        if decide (sig ∉ allSigs w) then
          let w :=
            mkWalker (wasm w) (segmentsByAddress w) (sigsForCode w) (ids w)
              ({[sig]} ∪ allSigs w) in
          w ← addImport w importName baseSig;
          Some (curr, w)
        else Some (curr, w)
    | _ => None
    end
  else Some (curr, w).

(** The visits of a walk, in the order in which the traversal reaches the
    call sites. *)
Fixpoint visitAll (w : AsmConstWalker) (sites : list CallImportNode)
  : option (list CallImportNode * AsmConstWalker) :=
  match sites with
  | [] => Some ([], w)
  | curr :: sites' =>
      '(curr', w) ← visitCallImport w curr;
      '(rest, w) ← visitAll w sites';
      Some (curr' :: rest, w)
  end.

(** Modelled from the spec: the post-order traversal ([PostWalker],
    [wasm-traversal.h], not part of the sources at hand): a single pass
    over every expression of every function body, children before their
    parent, operands in order, with no revisit. *)
Fixpoint walk (w : AsmConstWalker) (e : Expression) {struct e}
  : option (Expression * AsmConstWalker) :=
  let walkList :=
    fix walkList (w : AsmConstWalker) (l : list Expression) {struct l}
      : option (list Expression * AsmConstWalker) :=
      match l with
      | [] => Some ([], w)
      | e :: l' =>
          '(e', w) ← walk w e;
          '(l'', w) ← walkList w l';
          Some (e' :: l'', w)
      end in
  match e with
  | Nop | Const _ | GetLocal _ _ => Some (e, w)
  | Call target operands type =>
      '(operands, w) ← walkList w operands;
      Some (Call target operands type, w)
  | CallImport target operands type =>
      '(operands, w) ← walkList w operands;
      '(curr, w) ← visitCallImport w (mkCallImport target operands type);
      Some (CallImport (ci_target curr) (ci_operands curr) (ci_type curr), w)
  | CallIndirect fullType target operands type =>
      '(operands, w) ← walkList w operands;
      '(target, w) ← walk w target;
      Some (CallIndirect fullType target operands type, w)
  | Host op nameOperand operands type =>
      '(operands, w) ← walkList w operands;
      Some (Host op nameOperand operands type, w)
  end.

Definition setFunctions (m : Module) (fs : list Function) : Module :=
  mkModule (functionTypes m) (imports m) (exports m) fs (segments m).

(** [walkFunction] on the function at index [i] of the walked module:
    the body is rewritten in place. *)
Definition walkFunction (w : AsmConstWalker) (i : nat)
  : option AsmConstWalker :=
  func ← functions (wasm w) !! i;
  match fn_body func with
  | None => Some w
  | Some body =>
      '(body, w) ← walk w body;
      Some (setWasm w
              (setFunctions (wasm w)
                 (<[i := setBody func body]> (functions (wasm w)))))
  end.

Fixpoint walkFunctions (w : AsmConstWalker) (indices : list nat)
  : option AsmConstWalker :=
  match indices with
  | [] => Some w
  | i :: indices' => w ← walkFunction w i; walkFunctions w indices'
  end.

(** [walkModule(&wasm)] on the module that the walker refers to. *)
Definition walkModule (w : AsmConstWalker) : option AsmConstWalker :=
  walkFunctions w (seq 0 (length (functions (wasm w)))).

(** ** [generateEmscriptenMetadata] *)

(** Iteration order of [std::map] and [std::set] over strings. *)
Definition ascending (l : list string) : list string :=
  merge_sort String.le l.

Definition quoted (s : string) : string :=
  String dquote "" +:+ s +:+ String dquote "".

Fixpoint printSet_loop (o : string) (first : bool) (c : list string)
  : string :=
  match c with
  | [] => o
  | item :: c' =>
      let o := if first then o else o +:+ "," in
      printSet_loop (o +:+ quoted item) false c'
  end.

Definition printSet (o : string) (c : list string) : string :=
  printSet_loop (o +:+ "[") true c +:+ "]".

Fixpoint asmConsts_loop (w : AsmConstWalker) (o : string) (first : bool)
    (codes : list string) : string :=
  match codes with
  | [] => o
  | code :: codes' =>
      let sigs := default ∅ (sigsForCode w !! code) in
      let o := if first then o else o +:+ "," in
      let o :=
        o +:+ String dquote "" +:+ to_string (Z.of_N (default 0%N (ids w !! code)))
          +:+ String dquote "" +:+ ": [" +:+ String dquote "" +:+ code
          +:+ String dquote "" +:+ ", " in
      let o := printSet o (ascending (elements sigs)) in
      asmConsts_loop w (o +:+ "]") false codes'
  end.

Fixpoint initializers_loop (o : string) (first : bool) (funcs : list Name)
  : string :=
  match funcs with
  | [] => o
  | func :: funcs' =>
      let o := if first then o else o +:+ ", " in
      initializers_loop (o +:+ quoted func) false funcs'
  end.

(** The bytes written to [o] and the module as the walk leaves it. *)
Definition generateEmscriptenMetadata (o : string) (wasm_ : Module)
    (segmentsByAddress_ : gmap Address Address) (staticBump : Address)
    (initializerFunctions : list Name) : option (string * Module) :=
  let o := o +:+ ";; METADATA: { " in
  walker ← walkModule (newWalker wasm_ segmentsByAddress_);
  let o := o +:+ String dquote "" +:+ "asmConsts" +:+ String dquote ""
             +:+ ": {" in
  let o :=
    asmConsts_loop walker o true
      (ascending (elements (dom (sigsForCode walker)))) in
  let o := o +:+ "}" in
  let o := o +:+ "," in
  let o := o +:+ String dquote "" +:+ "staticBump" +:+ String dquote ""
             +:+ ": " +:+ to_string (Z.of_N staticBump) +:+ ", " in
  let o := o +:+ String dquote "" +:+ "initializers" +:+ String dquote ""
             +:+ ": [" in
  let o := initializers_loop o true initializerFunctions in
  let o := o +:+ "]" in
  let o := o +:+ " }" +:+ String newline "" in
  Some (o, wasm walker).

End Passes.

(** * Vocabulary of the properties *)

Section Vocabulary.
Context `{SharedConstants}.

(** ** String escaping *)

(** The structural reading of [escape], to be compared with the loops. *)

(** What the first loop computes: every occurrence of [\n] becomes [\\n]. *)
Fixpoint double_newlines (s : string) : string :=
  match s with
  | "" => ""
  | String c s' =>
      match s' with
      | String "n" s'' =>
          if decide (c = backslash)
          then esc_esc_n +:+ double_newlines s''
          else String c (double_newlines s')
      | _ => String c (double_newlines s')
      end
  end.

(** What the second loop computes; [prev] is the character in front of [s]
    ([None] at the start of the string). *)
Fixpoint quote_quotes (prev : option ascii) (s : string) : string :=
  match s with
  | "" => ""
  | String c s' =>
      (if decide (c = dquote)
       then if decide (prev = Some backslash) then esc_esc_quote else esc_quote
       else String c "")
      +:+ quote_quotes (Some c) s'
  end.

(** Both passes, one after the other. *)
Definition escaped (s : string) : string :=
  quote_quotes None (double_newlines s).

(** The character in front of the position that follows [s], when [prev]
    is the character in front of [s]. *)
Fixpoint lastc (prev : option ascii) (s : string) : option ascii :=
  match s with
  | "" => prev
  | String c s' => lastc (Some c) s'
  end.

(** The text backslash, backslash, backslash, double quote. *)
Definition esc_esc_esc_quote : string := String backslash esc_esc_quote.

(** The sample with one already-escaped and one unescaped double quote:
    a, backslash, quote, b, quote, c. *)
Definition escape_sample : string :=
  "a" +:+ esc_quote +:+ "b" +:+ String dquote "c".

(** ** First-occurrence order *)

(** The distinct elements of a list, in the order of their first
    occurrence. *)
Fixpoint distinct {A} `{EqDecision A} (l : list A) : list A :=
  match l with
  | [] => []
  | x :: l' => x :: filter (λ y, y ≠ x) (distinct l')
  end.

(** ** The dynCall thunks *)

(** A shape that mentions the 64-bit integer type. *)
Definition usesI64 (result : WasmType) (params : list WasmType) : Prop :=
  result = i64 ∨ i64 ∈ params.

Global Instance usesI64_dec result params : Decision (usesI64 result params).
Proof. unfold usesI64. apply _. Defined.

(** The signatures that get a thunk, in the order of the thunks: those of
    the table functions that do not use the 64-bit integer type, each kept
    at its first occurrence. *)
Definition thunkSignatures (funcs : list Function) : list string :=
  distinct
    (Sig.ofFunction
       <$> filter (λ f, ¬ usesI64 (fn_result f) (fn_params f)) funcs).

(** What the loop of [makeDynCallThunks] maintains, [hist] being the table
    functions handled so far. *)
Definition thunkInv (st : ThunkState) (hist : list Function) : Prop :=
  ts_sigs st = list_to_set (thunkSignatures hist)
  ∧ Forall2
      (λ sig f, ∃ callee t,
         callee ∈ hist ∧ sig = Sig.ofFunction callee
         ∧ t ∈ functionTypes (ts_wasm st)
         ∧ ft_result t = fn_result callee ∧ ft_params t = fn_params callee
         ∧ f = makeThunk sig t)
      (thunkSignatures hist) (ts_generatedFunctions st).

(** ** The rewriter *)

(** A call site that [visitCallImport] treats as an intrinsic call. *)
Definition isIntrinsic (curr : CallImportNode) : bool :=
  hasSubstring (ci_target curr) EMSCRIPTEN_ASM_CONST.

(** What one visit observes at [curr]: the resolved code string and the
    reduced signature. Nothing is observed at a call that is not an
    intrinsic call. [w0] supplies the memory snapshot. *)
Definition observe (w0 : AsmConstWalker) (curr : CallImportNode)
  : option (string * string) :=
  if isIntrinsic curr then
    match ci_operands curr with
    | Const arg :: _ =>
        code ← codeForConstAddr w0 arg;
        Some (code, asmConstSig (Sig.ofCall curr))
    | _ => None
    end
  else None.

Definition observed (w0 : AsmConstWalker) (sites : list CallImportNode)
  : list (string * string) :=
  omap (observe w0) sites.

(** The walkers of one walk share the memory snapshot. *)
Definition sameMemory (w w' : AsmConstWalker) : Prop :=
  segmentsByAddress w' = segmentsByAddress w
  ∧ segments (wasm w') = segments (wasm w).

(** The id that [idLiteralForCode] hands out for [code]. *)
Definition idFor (w : AsmConstWalker) (code : string) : Z :=
  match ids w !! code with
  | None => to_int32 (Z.of_nat (size (ids w)))
  | Some a => to_int32 (Z.of_N a)
  end.

(** The call site as [visitCallImport] leaves it. *)
Definition rewritten (w : AsmConstWalker) (curr : CallImportNode)
    (code sig : string) (rest : list Expression) : CallImportNode :=
  mkCallImport (nameForImportWithSig sig)
    (Const (LitI32 (idFor w code)) :: rest) (ci_type curr).

(** The registries of the walker after it has seen [code] with [sig]. *)
Definition recorded (w : AsmConstWalker) (m : Module) (code sig : string)
  : AsmConstWalker :=
  mkWalker m (segmentsByAddress w)
    (<[code := {[sig]} ∪ default ∅ (sigsForCode w !! code)]> (sigsForCode w))
    (match ids w !! code with
     | None => <[code := to_address (idFor w code)]> (ids w)
     | Some _ => ids w
     end)
    ({[sig]} ∪ allSigs w).

(** The registry [ids] after the codes [codes] have been met, in this
    order: the [k]-th distinct code is bound to the machine image of [k],
    and nothing else is bound. *)
Definition idsInv (idsm : gmap string N) (codes : list string) : Prop :=
  (∀ k code, distinct codes !! k = Some code →
             idsm !! code = Some (to_address (to_int32 (Z.of_nat k))))
  ∧ dom idsm = list_to_set codes.

(** The signatures observed with [code]. *)
Definition sigsOf (obs : list (string * string)) (code : string) : list string :=
  (filter (λ o, o.1 = code) obs).*2.

Definition sigsInv (sfc : gmap string (gset string))
    (obs : list (string * string)) : Prop :=
  ∀ code,
    sfc !! code
    = if decide (code ∈ obs.*1) then Some (list_to_set (sigsOf obs code))
      else None.

(** The import that the rewriter registers for the reduced signature
    [sig]: named after it, in the namespace [ENV], and typed by a
    registered function type whose signature is the full signature of an
    intrinsic call site of [hist] that reduces to [sig]. *)
Definition importFor (hist : list CallImportNode) (fts : list FunctionType)
    (sig : string) (imp : Import) : Prop :=
  im_name imp = nameForImportWithSig sig
  ∧ im_base imp = nameForImportWithSig sig
  ∧ im_module imp = ENV
  ∧ im_kind imp = KFunction
  ∧ ∃ t curr,
      curr ∈ hist ∧ isIntrinsic curr = true
      ∧ asmConstSig (Sig.ofCall curr) = sig
      ∧ t ∈ fts ∧ ft_name t = im_functionType imp
      ∧ Sig.ofFunctionType t = Sig.ofCall curr.

(** How a visited call site [curr'] relates to the site [curr] it was:
    an intrinsic call gets the id of its code as first operand and the
    import of its reduced signature as target; any other call is left as
    it is. *)
Definition siteRewritten (w0 w' : AsmConstWalker)
    (curr curr' : CallImportNode) : Prop :=
  match observe w0 curr with
  | Some (code, sig) =>
      ∃ arg rest a,
        ci_operands curr = Const arg :: rest
        ∧ ids w' !! code = Some a
        ∧ curr' = mkCallImport (nameForImportWithSig sig)
                    (Const (LitI32 (to_int32 (Z.of_N a))) :: rest)
                    (ci_type curr)
  | None => isIntrinsic curr = false ∧ curr' = curr
  end.

(** What a walk that started at [w0] maintains, [hist] being the call
    sites visited so far. *)
Definition walkInv (w0 w : AsmConstWalker) (hist : list CallImportNode)
  : Prop :=
  sameMemory w0 w
  ∧ idsInv (ids w) (observed w0 hist).*1
  ∧ sigsInv (sigsForCode w) (observed w0 hist)
  ∧ allSigs w = list_to_set (observed w0 hist).*2
  ∧ (∃ imps,
       imports (wasm w) = imports (wasm w0) ++ imps
       ∧ Forall2 (importFor hist (functionTypes (wasm w)))
           (distinct (observed w0 hist).*2) imps)
  ∧ functions (wasm w) = functions (wasm w0)
  ∧ exports (wasm w) = exports (wasm w0).

(** ** The metadata *)

(** An expression that holds an intrinsic call site. *)
Fixpoint hasIntrinsicCall (e : Expression) : bool :=
  match e with
  | Nop | Const _ | GetLocal _ _ => false
  | Call _ operands _ => existsb hasIntrinsicCall operands
  | CallImport target operands _ =>
      hasSubstring target EMSCRIPTEN_ASM_CONST
      || existsb hasIntrinsicCall operands
  | CallIndirect _ target operands _ =>
      hasIntrinsicCall target || existsb hasIntrinsicCall operands
  | Host _ _ operands _ => existsb hasIntrinsicCall operands
  end.

(** A module with zero intrinsic call sites. *)
Definition noIntrinsicCalls (m : Module) : Prop :=
  Forall (λ f, ∀ body, fn_body f = Some body → hasIntrinsicCall body = false)
    (functions m).

(** The record for no intrinsic call, no initializer and a static bump of
    1024: no blank follows the comma after the [asmConsts] object. *)
Definition emptyMetadata1024 : string :=
  ";; METADATA: { " +:+ quoted "asmConsts" +:+ ": {}," +:+ quoted "staticBump"
    +:+ ": 1024, " +:+ quoted "initializers" +:+ ": [] }" +:+ String newline "".

(** ** The traversal *)

(** The walker with the function list of its module replaced. *)
Definition withFunctions (fs : list Function) (w : AsmConstWalker)
  : AsmConstWalker :=
  setWasm w (setFunctions (wasm w) fs).

(** The walker states that [visitAll] can reach from [w]. *)
Definition visits (w w' : AsmConstWalker) : Prop :=
  ∃ sites sites', visitAll w sites = Some (sites', w').

(** Two walkers that differ at most in the function list of their
    module. *)
Definition sameRegistries (w w' : AsmConstWalker) : Prop :=
  w' = withFunctions (functions (wasm w')) w.

(** ** What a walk keeps *)

(** What a walker never loses on the way from [w] to [w']: the memory
    snapshot, the functions and the exports stay as they are; imports and
    function types are only appended; the registries only grow. *)
Definition extends (w w' : AsmConstWalker) : Prop :=
  segmentsByAddress w' = segmentsByAddress w
  ∧ segments (wasm w') = segments (wasm w)
  ∧ functions (wasm w') = functions (wasm w)
  ∧ exports (wasm w') = exports (wasm w)
  ∧ imports (wasm w) `prefix_of` imports (wasm w')
  ∧ functionTypes (wasm w) `prefix_of` functionTypes (wasm w')
  ∧ ids w ⊆ ids w'
  ∧ allSigs w ⊆ allSigs w'
  ∧ ∀ code sigs,
      sigsForCode w !! code = Some sigs →
      ∃ sigs', sigsForCode w' !! code = Some sigs' ∧ sigs ⊆ sigs'.

(** Two functions that differ at most in the expression of their body. *)
Definition sameShape (f f' : Function) : Prop :=
  fn_name f' = fn_name f ∧ fn_result f' = fn_result f
  ∧ fn_params f' = fn_params f ∧ fn_vars f' = fn_vars f
  ∧ fn_localNames f' = fn_localNames f
  ∧ (is_Some (fn_body f') ↔ is_Some (fn_body f)).

(** ** When a walk returns *)

(** The walk of an operand list, left to right: the local function of
    [walk], under a name. *)
Fixpoint walkOperands (w : AsmConstWalker) (l : list Expression)
  : option (list Expression * AsmConstWalker) :=
  match l with
  | [] => Some ([], w)
  | e :: l' =>
      '(e', w) ← walk w e;
      '(l'', w) ← walkOperands w l';
      Some (e' :: l'', w)
  end.

(** The constant that stands as first operand, if there is one. *)
Definition firstConst (operands : list Expression) : option Literal :=
  match operands with
  | Const arg :: _ => Some arg
  | _ => None
  end.

(** An expression all of whose intrinsic calls can be visited with the
    memory snapshot of [w]: each has a constant as first operand, and
    [codeForConstAddr] resolves it. *)
Fixpoint resolvable (w : AsmConstWalker) (e : Expression) : bool :=
  match e with
  | Nop | Const _ | GetLocal _ _ => true
  | Call _ operands _ => forallb (resolvable w) operands
  | CallImport target operands _ =>
      forallb (resolvable w) operands
      && (negb (hasSubstring target EMSCRIPTEN_ASM_CONST)
          || match firstConst operands with
             | Some arg => bool_decide (is_Some (codeForConstAddr w arg))
             | None => false
             end)
  | CallIndirect _ target operands _ =>
      resolvable w target && forallb (resolvable w) operands
  | Host _ _ operands _ => forallb (resolvable w) operands
  end.

(** ** The text of the record *)

(** One entry of the [asmConsts] object: the id between double quotes, a
    colon, and the pair of the code string and its signature set. *)
Definition asmConstEntry (w : AsmConstWalker) (code : string) : string :=
  quoted (to_string (Z.of_N (default 0%N (ids w !! code))))
    +:+ ": [" +:+ quoted code +:+ ", ["
    +:+ String.concat ","
          (quoted
             <$> ascending (elements (default ∅ (sigsForCode w !! code))))
    +:+ "]]".

(** The whole record, for the registries of [w]: entries and set members
    are separated by a comma alone, initializers by a comma and a blank. *)
Definition metadataText (w : AsmConstWalker) (staticBump : Address)
    (initializerFunctions : list Name) : string :=
  ";; METADATA: { " +:+ quoted "asmConsts" +:+ ": {"
    +:+ String.concat ","
          (asmConstEntry w <$> ascending (elements (dom (sigsForCode w))))
    +:+ "}," +:+ quoted "staticBump" +:+ ": " +:+ to_string (Z.of_N staticBump)
    +:+ ", " +:+ quoted "initializers" +:+ ": ["
    +:+ String.concat ", " (quoted <$> initializerFunctions)
    +:+ "] }" +:+ String newline "".

End Vocabulary.

(** * Worked inputs *)

(** The values that the shared-constants headers give to the fixed names. *)
Definition emscriptenConstants : SharedConstants :=
  {| GROW_WASM_MEMORY := "__growWasmMemory"; NEW_SIZE := "newSize"; ENV := "env" |}.

Module Demo.

(** Four table functions with the signatures ii, ii, v and ij. *)
Definition tableModule : Module :=
  mkModule []
    [mkImport "emscripten_asm_const" "env" "emscripten_asm_const" "FUNCSIG$ii"
       KFunction]
    []
    [mkFunction "a" i32 [i32] [] ["x"] (Some (GetLocal 0 i32));
     mkFunction "b" i32 [i32] [] ["x"] (Some (Const (LitI32 7)));
     mkFunction "c" none [] [] [] (Some Nop);
     mkFunction "d" i32 [i64] [] ["x"] (Some (Const (LitI32 0)))]
    [].

Definition tableFunctions : list Function := functions tableModule.

(** A memory with the strings x and y at the addresses 8 and 16. *)
Definition codeModule : Module :=
  mkModule [] [] [] []
    [mkSegment ["x"%char; zero]; mkSegment ["y"%char; zero]].

Definition codeSegments : gmap N N := {[ 8%N := 0%N; 16%N := 1%N ]}.

Definition site (target : Name) (address : Z) (operands : list Expression)
    (type : WasmType) : CallImportNode :=
  mkCallImport target (Const (LitI32 address) :: operands) type.

(** Five call sites: the second string first, then the first one, a repeat
    of the second with another shape, a call that is not intrinsic, and an
    address that no segment covers. *)
Definition sites : list CallImportNode :=
  [site "emscripten_asm_const" 16 [] i32;
   site "emscripten_asm_const" 8 [GetLocal 0 f64] none;
   site "emscripten_asm_const" 16 [] none;
   site "foo" 3 [] i32;
   site "emscripten_asm_const" 99 [] none].

(** Two call sites that resolve to x, with the reduced signatures i and v. *)
Definition sitesX : list CallImportNode :=
  [site "emscripten_asm_const" 8 [] i32; site "emscripten_asm_const" 8 [] none].

(** The five call sites after the walk. *)
Definition sitesRewritten : list CallImportNode :=
  [site "emscripten_asm_const_i" 0 [] i32;
   site "emscripten_asm_const_vd" 1 [GetLocal 0 f64] none;
   site "emscripten_asm_const_v" 0 [] none;
   site "foo" 3 [] i32;
   site "emscripten_asm_const_v" 2 [] none].

Definition importOf (sig fullSig : string) : Import :=
  mkImport ("emscripten_asm_const_" +:+ sig) "env"
    ("emscripten_asm_const_" +:+ sig) ("FUNCSIG$" +:+ fullSig) KFunction.

(** The walker after the walk over the five call sites. *)
Definition walked : AsmConstWalker :=
  mkWalker
    (mkModule
       [mkFunctionType "FUNCSIG$ii" i32 [i32];
        mkFunctionType "FUNCSIG$vid" none [i32; f64];
        mkFunctionType "FUNCSIG$vi" none [i32]]
       [importOf "i" "ii"; importOf "vd" "vid"; importOf "v" "vi"]
       [] [] (segments codeModule))
    codeSegments
    {[ "y" := {[ "i"; "v" ]}; "x" := {[ "vd" ]}; "" := {[ "v" ]} ]}
    {[ "y" := 0%N; "x" := 1%N; "" := 2%N ]}
    {[ "i"; "vd"; "v" ]}.

(** The same for the two call sites that resolve to x. *)
Definition sitesXRewritten : list CallImportNode :=
  [site "emscripten_asm_const_i" 0 [] i32; site "emscripten_asm_const_v" 0 [] none].

Definition walkedX : AsmConstWalker :=
  mkWalker
    (mkModule
       [mkFunctionType "FUNCSIG$ii" i32 [i32];
        mkFunctionType "FUNCSIG$vi" none [i32]]
       [importOf "i" "ii"; importOf "v" "vi"]
       [] [] (segments codeModule))
    codeSegments
    {[ "x" := {[ "i"; "v" ]} ]}
    {[ "x" := 0%N ]}
    {[ "i"; "v" ]}.

(** A module whose only call is not an intrinsic call. *)
Definition plainModule : Module :=
  mkModule [] [] []
    [mkFunction "main" none [] [] []
       (Some (Call "helper" [Const (LitI32 1); CallImport "puts" [Nop] i32] none))]
    [].

(** A module with one function whose body is an intrinsic call on y that
    takes, as second operand, an intrinsic call on x. *)
Definition nestedModule : Module :=
  mkModule [] [] []
    [mkFunction "f" none [] [] []
       (Some (CallImport "emscripten_asm_const"
                [Const (LitI32 16);
                 CallImport "emscripten_asm_const" [Const (LitI32 8)] i32]
                i32))]
    (segments codeModule).

End Demo.

(** Further inputs, with the results of the passes on them. *)
Module Samples.

(** The thunk of the signature ii. *)
Definition dynCall_ii : Function :=
  mkFunction "dynCall_ii" i32 [i32; i32] [] ["fptr"; "0"]
    (Some (CallIndirect "FUNCSIG$ii" (GetLocal 0 i32) [GetLocal 1 i32] i32)).

(** The thunks of the table a, b, c, d of [Demo.tableModule]. *)
Definition tableThunks : list Function :=
  [dynCall_ii;
   mkFunction "dynCall_v" none [i32] [] ["fptr"]
     (Some (CallIndirect "FUNCSIG$v" (GetLocal 0 i32) [] none))].

(** That module after [makeDynCallThunks]: its intrinsic import is gone,
    three function types are registered, the two thunks are appended. *)
Definition tableModuleAfter : Module :=
  mkModule
    [mkFunctionType "FUNCSIG$ii" i32 [i32];
     mkFunctionType "FUNCSIG$v" none [];
     mkFunctionType "FUNCSIG$ij" i32 [i64]]
    [] [] (functions Demo.tableModule ++ tableThunks) [].

(** A module with an import that is not intrinsic, the intrinsic import,
    an export, a function whose body is an intrinsic call on x, and a
    function without calls. *)
Definition linkedModule : Module :=
  mkModule []
    [mkImport "puts" "env" "puts" "FUNCSIG$ii" KFunction;
     mkImport "emscripten_asm_const" "env" "emscripten_asm_const" "FUNCSIG$ii"
       KFunction]
    [mkExport "main" "main" KFunction]
    [mkFunction "main" i32 [] [] []
       (Some (CallImport "emscripten_asm_const" [Const (LitI32 8)] i32));
     mkFunction "g" i32 [i32] [] ["x"] (Some (GetLocal 0 i32))]
    (segments Demo.codeModule).

(** That module after the walk of the emitter. *)
Definition linkedModuleWalked : Module :=
  mkModule
    [mkFunctionType "FUNCSIG$ii" i32 [i32]]
    [mkImport "puts" "env" "puts" "FUNCSIG$ii" KFunction;
     mkImport "emscripten_asm_const" "env" "emscripten_asm_const" "FUNCSIG$ii"
       KFunction;
     Demo.importOf "i" "ii"]
    [mkExport "main" "main" KFunction]
    [mkFunction "main" i32 [] [] []
       (Some (CallImport "emscripten_asm_const_i" [Const (LitI32 0)] i32));
     mkFunction "g" i32 [i32] [] ["x"] (Some (GetLocal 0 i32))]
    (segments Demo.codeModule).

(** The walker that this walk leaves. *)
Definition linkedWalker : AsmConstWalker :=
  mkWalker linkedModuleWalked Demo.codeSegments
    {[ "x" := {[ "i" ]} ]} {[ "x" := 0%N ]} {[ "i" ]}.

(** The record written for it, with a static bump of 1024 and the
    initializer init. *)
Definition linkedRecord : string :=
  ";; METADATA: { " +:+ quoted "asmConsts" +:+ ": {" +:+ quoted "0" +:+ ": ["
    +:+ quoted "x" +:+ ", [" +:+ quoted "i" +:+ "]]}," +:+ quoted "staticBump"
    +:+ ": 1024, " +:+ quoted "initializers" +:+ ": [" +:+ quoted "init"
    +:+ "] }" +:+ String newline "".

(** The walked module after [makeDynCallThunks] on the table g. *)
Definition linkedModuleThunked : Module :=
  mkModule
    [mkFunctionType "FUNCSIG$ii" i32 [i32]]
    [mkImport "puts" "env" "puts" "FUNCSIG$ii" KFunction]
    [mkExport "main" "main" KFunction]
    (functions linkedModuleWalked ++ [dynCall_ii])
    (segments Demo.codeModule).

End Samples.

(** The record as the design document quotes it, with a blank after the
    comma that closes the [asmConsts] entry. *)
Definition quotedMetadata1024 : string :=
  ";; METADATA: { " +:+ quoted "asmConsts" +:+ ": {}, " +:+ quoted "staticBump"
    +:+ ": 1024, " +:+ quoted "initializers" +:+ ": [] }" +:+ String newline "".

(** * Properties *)

(** ** Facts about the string primitives *)

Lemma app_cons_s (x : ascii) (a b : string) :
  String x a +:+ b = String x (a +:+ b).
Proof. done. Qed.

Lemma app_nil_l_s (a : string) : "" +:+ a = a.
Proof. done. Qed.

Lemma app_assoc_s (a b c : string) : (a +:+ b) +:+ c = a +:+ (b +:+ c).
Proof. induction a as [|x a IH]; [done|]. rewrite !app_cons_s. by rewrite IH. Qed.

Lemma app_nil_r_s (a : string) : a +:+ "" = a.
Proof. induction a as [|x a IH]; [done|]. rewrite app_cons_s. by rewrite IH. Qed.

Lemma app_length_s (a b : string) :
  String.length (a +:+ b) = String.length a + String.length b.
Proof.
  induction a as [|x a IH]; [done|]. rewrite app_cons_s. cbn. by rewrite IH.
Qed.

(** ** The reduced signature *)

Lemma asmConstSig_loop_tail (i : nat) (rest sig : string) :
  2 ≤ i → asmConstSig_loop i rest sig = sig +:+ rest.
Proof.
  revert i sig. induction rest as [|c rest IH]; intros i sig Hi; cbn.
  - by rewrite app_nil_r_s.
  - rewrite IH by lia. destruct (decide (i ≠ 1)) as [_|Hn]; [|lia].
    by rewrite app_assoc_s, app_cons_s.
Qed.

(** C10. [asmConstSig] is a total function; it returns the empty string and
    every one-character string unchanged, and from a string of two or more
    characters it removes exactly the character at index 1, keeping all the
    other characters in their order. *)
Theorem asmConstSig_drops_index_1 :
  asmConstSig "" = ""
  ∧ (∀ c0 : ascii, asmConstSig (String c0 "") = String c0 "")
  ∧ (∀ (c0 c1 : ascii) (rest : string),
       asmConstSig (String c0 (String c1 rest)) = String c0 rest).
Proof.
  split; [done|]. split; [done|].
  intros c0 c1 rest. unfold asmConstSig. cbn.
  by rewrite asmConstSig_loop_tail by lia.
Qed.

Lemma asmConstSig_ofShape (result t : WasmType) (params : list WasmType) :
  asmConstSig (Sig.ofShape result (t :: params)) = Sig.ofShape result params.
Proof.
  unfold asmConstSig, Sig.ofShape. cbn.
  by rewrite asmConstSig_loop_tail by lia.
Qed.

(** ** Memory growth *)

Section MemoryGrowth.
Context `{SharedConstants}.

(** C9. One run of [generateMemoryGrowthFunction] appends exactly one
    function to the module: it is named by the fixed external name, has
    one [i32] parameter and an [i32] result, and its body is a single
    grow-memory host call on that parameter. It also appends exactly one
    export, of that function under the same name. Nothing else in the
    module changes. *)
Theorem generateMemoryGrowthFunction_adds_one (m : Module) :
  let m' := generateMemoryGrowthFunction m in
  functions m' =
    functions m ++
      [mkFunction GROW_WASM_MEMORY i32 [i32] [] [NEW_SIZE]
         (Some (Host GrowMemory None [GetLocal 0 i32] i32))]
  ∧ exports m' = exports m ++ [mkExport GROW_WASM_MEMORY GROW_WASM_MEMORY KFunction]
  ∧ imports m' = imports m
  ∧ functionTypes m' = functionTypes m
  ∧ segments m' = segments m.
Proof. by repeat split. Qed.

End MemoryGrowth.

(** ** String escaping *)

Module StdStringFacts.
Import StdString.

Lemma drop_app_length (a b : string) : drop (String.length a) (a +:+ b) = b.
Proof. induction a as [|x a IH]; [by destruct b|]. done. Qed.

Lemma take_app_length (a b : string) : take (String.length a) (a +:+ b) = a.
Proof.
  induction a as [|x a IH]; [by destruct b|].
  rewrite app_cons_s. cbn. by rewrite IH.
Qed.

Lemma find_app (a b pat : string) :
  find (a +:+ b) pat (String.length a) = find_from pat b (String.length a).
Proof.
  unfold find. rewrite app_length_s, drop_app_length.
  destruct (decide _) as [_|Hn]; [done|lia].
Qed.

Lemma replace_app (a b c str : string) :
  replace (a +:+ b +:+ c) (String.length a) (String.length b) str
  = a +:+ str +:+ c.
Proof.
  unfold replace. rewrite take_app_length. do 2 f_equal.
  rewrite <- app_length_s, <- app_assoc_s. apply drop_app_length.
Qed.

Lemma prefix_cons_inv (x : ascii) (pat s : string) :
  String.prefix (String x pat) s = true →
  ∃ s', s = String x s' ∧ String.prefix pat s' = true.
Proof.
  destruct s as [|y s]; cbn; [done|].
  destruct (ascii_dec x y) as [->|]; [eauto|done].
Qed.

Lemma prefix_cons_same (x : ascii) (pat s : string) :
  String.prefix (String x pat) (String x s) = String.prefix pat s.
Proof. cbn. by destruct (ascii_dec x x). Qed.

Lemma prefix_cons_diff (x y : ascii) (pat s : string) :
  x ≠ y → String.prefix (String x pat) (String y s) = false.
Proof. intros. cbn. by destruct (ascii_dec x y). Qed.

End StdStringFacts.

Lemma lastc_app (prev : option ascii) (a b : string) :
  lastc prev (a +:+ b) = lastc (lastc prev a) b.
Proof. revert prev. induction a as [|x a IH]; intros prev; [done|]. apply IH. Qed.

Lemma get_last (prev : option ascii) (a b : string) :
  a ≠ "" → String.get (String.length a - 1) (a +:+ b) = lastc prev a.
Proof.
  revert prev. induction a as [|x a IH]; intros prev Ha; [done|].
  destruct a as [|y a]; [done|].
  specialize (IH (Some x) ltac:(done)).
  change (lastc prev (String x (String y a)))
    with (lastc (Some x) (String y a)).
  rewrite <- IH. cbn. by rewrite Nat.sub_0_r.
Qed.

(** *** The first loop *)

Lemma double_newlines_cons_bs_n (s : string) :
  double_newlines (String backslash (String "n" s))
  = esc_esc_n +:+ double_newlines s.
Proof. done. Qed.

Lemma double_newlines_cons_other (c : ascii) (s : string) :
  String.prefix esc_n (String c s) = false →
  double_newlines (String c s) = String c (double_newlines s).
Proof.
  intros Hp. destruct s as [|y s]; [done|].
  cbn -[String.app]. destruct (decide (y = "n"%char)) as [->|Hy].
  - destruct (decide (c = backslash)) as [->|]; [|done].
    unfold esc_n in Hp. rewrite !StdStringFacts.prefix_cons_same in Hp.
    by destruct s.
  - destruct y as [[] [] [] [] [] [] [] []]; try done.
Qed.

(** Where [find] reports no occurrence, the first loop has nothing left to
    do; where it reports one, the text splits around it. *)
Lemma find_esc_n (rest : string) (i : nat) :
  match StdString.find_from esc_n rest i with
  | None => double_newlines rest = rest
  | Some k =>
      ∃ pre post,
        rest = pre +:+ esc_n +:+ post
        ∧ k = i + String.length pre
        ∧ double_newlines rest = pre +:+ esc_esc_n +:+ double_newlines post
  end.
Proof.
  revert i. induction rest as [|c rest IH]; intros i; [done|].
  cbn [StdString.find_from].
  destruct (String.prefix esc_n (String c rest)) eqn:Hp.
  - apply StdStringFacts.prefix_cons_inv in Hp as (s' & [= -> ->] & Hp).
    apply StdStringFacts.prefix_cons_inv in Hp as (s'' & -> & _).
    exists "", s''. split; [done|]. split; [cbn; lia|done].
  - rewrite double_newlines_cons_other by done.
    specialize (IH (S i)).
    destruct (StdString.find_from esc_n rest (S i)) as [k|].
    + destruct IH as (pre & post & -> & -> & ->).
      exists (String c pre), post. split; [done|]. split; [cbn; lia|done].
    + by rewrite IH.
Qed.

Lemma escape_newlines_spec (fuel : nat) (done_ rest : string) :
  String.length rest < fuel →
  escape_newlines fuel (done_ +:+ rest) (String.length done_)
  = Some (done_ +:+ double_newlines rest).
Proof.
  revert done_ rest. induction fuel as [|fuel IH]; intros done_ rest Hf; [lia|].
  cbn [escape_newlines]. rewrite StdStringFacts.find_app.
  pose proof (find_esc_n rest (String.length done_)) as Hfind.
  destruct (StdString.find_from esc_n rest (String.length done_)) as [k|].
  - destruct Hfind as (pre & post & -> & -> & ->).
    rewrite !app_length_s in Hf.
    rewrite <- app_length_s, <- (app_assoc_s done_ pre).
    replace (String.length (done_ +:+ pre) + 3)
      with (String.length ((done_ +:+ pre) +:+ esc_esc_n))
      by (rewrite (app_length_s _ esc_esc_n); done).
    change 2 with (String.length esc_n).
    rewrite StdStringFacts.replace_app.
    rewrite <- (app_assoc_s _ esc_esc_n post).
    rewrite IH by (cbn in Hf; lia).
    by rewrite !app_assoc_s.
  - by rewrite Hfind.
Qed.

(** *** The second loop *)

Lemma quote_quotes_app (prev : option ascii) (a b : string) :
  quote_quotes prev (a +:+ b)
  = quote_quotes prev a +:+ quote_quotes (lastc prev a) b.
Proof.
  revert prev. induction a as [|x a IH]; intros prev; [done|].
  rewrite app_cons_s. cbn [quote_quotes lastc].
  by rewrite IH, app_assoc_s.
Qed.

Lemma quote_quotes_prev (p q : option ascii) (s : string) :
  p ≠ Some backslash → q ≠ Some backslash →
  quote_quotes p s = quote_quotes q s.
Proof.
  intros Hp Hq. destruct s as [|c s]; [done|]. cbn [quote_quotes].
  destruct (decide (c = dquote)); [|done].
  by rewrite !(decide_False (P := _ = Some backslash)) by done.
Qed.

Lemma find_dquote (rest : string) (i : nat) :
  match StdString.find_from (String dquote "") rest i with
  | None => ∀ p, quote_quotes p rest = rest
  | Some k =>
      ∃ pre post,
        rest = pre +:+ String dquote post
        ∧ k = i + String.length pre
        ∧ ∀ p, quote_quotes p pre = pre
  end.
Proof.
  revert i. induction rest as [|c rest IH]; intros i; [done|].
  cbn [StdString.find_from].
  destruct (decide (c = dquote)) as [->|Hc].
  - rewrite StdStringFacts.prefix_cons_same.
    replace (String.prefix "" rest) with true by (by destruct rest).
    exists "", rest. split; [done|]. split; [cbn; lia|done].
  - rewrite StdStringFacts.prefix_cons_diff by done.
    specialize (IH (S i)).
    destruct (StdString.find_from (String dquote "") rest (S i)) as [k|].
    + destruct IH as (pre & post & -> & -> & Hpre).
      exists (String c pre), post. split; [done|]. split; [cbn; lia|].
      intros p. cbn [quote_quotes]. rewrite decide_False by done.
      by rewrite Hpre.
    + intros p. cbn [quote_quotes]. rewrite decide_False by done.
      by rewrite IH.
Qed.

Lemma escape_quotes_spec (fuel : nat) (done_ rest : string) :
  String.length rest < fuel →
  escape_quotes fuel (done_ +:+ rest) (String.length done_)
  = Some (done_ +:+ quote_quotes (lastc None done_) rest).
Proof.
  revert done_ rest. induction fuel as [|fuel IH]; intros done_ rest Hf; [lia|].
  cbn [escape_quotes]. rewrite StdStringFacts.find_app.
  pose proof (find_dquote rest (String.length done_)) as Hfind.
  destruct (StdString.find_from _ rest (String.length done_)) as [k|];
    [|by rewrite Hfind].
  destruct Hfind as (pre & post & -> & -> & Hpre).
  rewrite app_length_s in Hf. cbn in Hf.
  rewrite quote_quotes_app, Hpre, <- lastc_app.
  rewrite <- app_length_s, <- (app_assoc_s done_ pre).
  set (A := done_ +:+ pre).
  assert (A = "" ∧ lastc None A = None
          ∨ A ≠ "" ∧ String.length A ≠ 0
            ∧ StdString.at_ (A +:+ String dquote post) (String.length A - 1)
              = lastc None A) as HA.
  { destruct (decide (A = "")) as [->|HA]; [by left|right].
    split; [done|]. split; [by destruct A|]. by apply get_last. }
  cbn [quote_quotes].
  rewrite (decide_True (P := dquote = dquote)) by done.
  destruct (decide (lastc None A = Some backslash)) as [Hbs|Hbs].
  - rewrite decide_False; last first.
    { destruct HA as [[_ HA]|(_ & Hn & HA)]; [congruence|].
      intros [?|Hat]; [done|]. apply Hat. by rewrite HA. }
    replace (String.length A + 3)
      with (String.length (A +:+ esc_esc_quote))
      by (rewrite (app_length_s _ esc_esc_quote); done).
    change (A +:+ String dquote post) with (A +:+ String dquote "" +:+ post).
    change 1 with (String.length (String dquote "")).
    rewrite StdStringFacts.replace_app, <- (app_assoc_s A esc_esc_quote).
    rewrite IH by lia. rewrite lastc_app. cbn [lastc esc_esc_quote].
    unfold A. by rewrite !app_assoc_s.
  - rewrite decide_True; last first.
    { destruct HA as [[HA _]|(_ & _ & HA)]; [left; by rewrite HA|].
      right. by rewrite HA. }
    replace (String.length A + 2)
      with (String.length (A +:+ esc_quote))
      by (rewrite (app_length_s _ esc_quote); done).
    change (A +:+ String dquote post) with (A +:+ String dquote "" +:+ post).
    change 1 with (String.length (String dquote "")).
    rewrite StdStringFacts.replace_app, <- (app_assoc_s A esc_quote).
    rewrite IH by lia. rewrite lastc_app. cbn [lastc esc_quote].
    unfold A. by rewrite !app_assoc_s.
Qed.

(** [escape] always returns, and what it returns is the structural reading
    of the two loops. *)
Lemma escape_total (input : string) : escape input = Some (escaped input).
Proof.
  unfold escape, escaped.
  rewrite (escape_newlines_spec _ "" input) by lia. cbn [mbind option_bind].
  rewrite app_nil_l_s.
  by rewrite (escape_quotes_spec _ "" (double_newlines input)) by lia.
Qed.

(** *** How [escape] distributes over a text *)

Lemma prefix_esc_n_true (s : string) :
  String.prefix esc_n s = true ↔ ∃ s'', s = String backslash (String "n" s'').
Proof.
  split.
  - intros Hp.
    apply StdStringFacts.prefix_cons_inv in Hp as (s' & -> & Hp).
    apply StdStringFacts.prefix_cons_inv in Hp as (s'' & -> & _). eauto.
  - intros [s'' ->]. unfold esc_n.
    rewrite !StdStringFacts.prefix_cons_same. by destruct s''.
Qed.

Lemma double_newlines_app (s u : string) :
  (∀ u', u ≠ String "n" u') →
  double_newlines (s +:+ u) = double_newlines s +:+ double_newlines u.
Proof.
  intros Hu. remember (String.length s) as n eqn:Hn.
  revert s Hn. induction (lt_wf n) as [n _ IH]; intros s ->.
  destruct s as [|c s]; [done|].
  destruct (String.prefix esc_n (String c s)) eqn:Hp.
  - apply prefix_esc_n_true in Hp as [s'' [= -> ->]].
    rewrite !app_cons_s, !double_newlines_cons_bs_n.
    rewrite (IH (String.length s'')) by (cbn; lia || done).
    by rewrite app_assoc_s.
  - rewrite app_cons_s, !double_newlines_cons_other; [|done|].
    + rewrite app_cons_s. f_equal. by apply (IH (String.length s)); [cbn; lia|].
    + destruct (String.prefix esc_n (String c (s +:+ u))) eqn:Hp'; [|done].
      apply prefix_esc_n_true in Hp' as [s'' [= -> Hs]].
      destruct s as [|y s].
      * by destruct (Hu s'').
      * rewrite app_cons_s in Hs. injection Hs as -> _.
        assert (String.prefix esc_n (String backslash (String "n" s)) = true)
          as Ht by (apply prefix_esc_n_true; eauto).
        congruence.
Qed.

Lemma escaped_around_escaped_quote (s t : string) :
  escaped (s +:+ esc_quote +:+ t)
  = escaped s +:+ esc_esc_esc_quote +:+ escaped t.
Proof.
  unfold escaped.
  rewrite double_newlines_app by done.
  replace (double_newlines (esc_quote +:+ t))
    with (esc_quote +:+ double_newlines t).
  2:{ unfold esc_quote. rewrite !app_cons_s, app_nil_l_s.
      rewrite (double_newlines_cons_other backslash); last first.
      { unfold esc_n.
        by rewrite StdStringFacts.prefix_cons_same,
          StdStringFacts.prefix_cons_diff. }
      rewrite (double_newlines_cons_other dquote); [done|].
      unfold esc_n. by rewrite StdStringFacts.prefix_cons_diff. }
  rewrite quote_quotes_app. f_equal.
  unfold esc_quote. rewrite !app_cons_s, app_nil_l_s.
  cbn [quote_quotes lastc].
  rewrite (decide_False (P := backslash = dquote)) by done.
  rewrite (decide_True (P := dquote = dquote)) by done.
  rewrite (decide_True (P := Some backslash = Some backslash)) by done.
  rewrite (quote_quotes_prev (Some dquote) None) by done.
  unfold esc_esc_esc_quote, esc_esc_quote.
  by rewrite !app_cons_s, !app_nil_l_s.
Qed.

(** C6 (as amended). [escape] is not idempotent on an already-escaped
    double quote: it re-escapes the backslash in front of it, so the two
    characters backslash-quote become backslash-backslash-backslash-quote
    at every application. The text before and after the escaped quote is
    not corrupted: it is escaped on its own. On the sample the first
    application gives a, three backslashes, quote, b, backslash, quote, c,
    and a second application changes both quotes again. *)
Theorem escape_reescapes_escaped_quote :
  (∀ s t : string,
     ∃ es et,
       escape s = Some es ∧ escape t = Some et
       ∧ escape (s +:+ esc_quote +:+ t)
         = Some (es +:+ esc_esc_esc_quote +:+ et))
  ∧ escape escape_sample
    = Some ("a" +:+ esc_esc_esc_quote +:+ "b" +:+ esc_quote +:+ "c")
  ∧ escape ("a" +:+ esc_esc_esc_quote +:+ "b" +:+ esc_quote +:+ "c")
    = Some ("a" +:+ String backslash (String backslash esc_esc_esc_quote)
              +:+ "b" +:+ esc_esc_esc_quote +:+ "c").
Proof.
  split; [|split; vm_compute; reflexivity].
  intros s t. exists (escaped s), (escaped t).
  by rewrite !escape_total, escaped_around_escaped_quote.
Qed.

(** C6 (as stated) fails: escaping is not stable under a second
    application, neither on the sample nor on a lone escaped quote. *)
Lemma escape_not_idempotent :
  (∃ once twice,
     escape escape_sample = Some once ∧ escape once = Some twice
     ∧ twice ≠ once)
  ∧ escape esc_quote ≠ Some esc_quote
  ∧ ¬ (∀ s once, escape s = Some once → escape once = Some once).
Proof.
  split; [|split].
  - eexists _, _. split; [vm_compute; reflexivity|].
    split; [vm_compute; reflexivity|]. done.
  - by vm_compute.
  - intros Hid. specialize (Hid esc_quote _ eq_refl). by vm_compute in Hid.
Qed.

(** ** First-occurrence order *)

Section Distinct.
Context {A : Type} `{EqDecision A}.
Implicit Types (l : list A) (x : A).

Lemma elem_of_distinct l x : x ∈ distinct l ↔ x ∈ l.
Proof.
  induction l as [|y l IH]; [done|]. cbn.
  rewrite !elem_of_cons, list_elem_of_filter, IH.
  destruct (decide (x = y)); intuition.
Qed.

Lemma NoDup_distinct l : NoDup (distinct l).
Proof.
  induction l as [|y l IH]; cbn; [constructor|].
  constructor; [|by apply NoDup_filter].
  rewrite list_elem_of_filter. by intros [? _].
Qed.

Lemma distinct_snoc l x :
  distinct (l ++ [x]) = if decide (x ∈ l) then distinct l else distinct l ++ [x].
Proof.
  induction l as [|y l IH]; [done|]. cbn. rewrite IH.
  destruct (decide (x ∈ y :: l)) as [Hin|Hin];
    destruct (decide (x ∈ l)) as [Hin'|Hin']; try done.
  - apply elem_of_cons in Hin as [->|?]; [|done].
    by rewrite filter_app, filter_cons_False, filter_nil, app_nil_r
      by (by intros ?).
  - destruct Hin. by right.
  - rewrite filter_app, filter_cons_True, filter_nil; [done|].
    intros ->. destruct Hin. by left.
Qed.

End Distinct.

Lemma list_to_set_snoc (l : list string) (x : string) :
  list_to_set (C := gset string) (l ++ [x]) = {[x]} ∪ list_to_set l.
Proof.
  rewrite list_to_set_app_L. cbn [list_to_set].
  by rewrite union_empty_r_L, (comm_L (∪)).
Qed.

Lemma union_singleton_elem (x : string) (X : gset string) :
  x ∈ X → {[x]} ∪ X = X.
Proof. intros Hx. by apply subseteq_union_1_L, singleton_subseteq_l. Qed.

Lemma distinct_length_size {A} `{Countable A} (l : list A) :
  length (distinct l) = size (list_to_set (C := gset A) l).
Proof.
  rewrite <- (size_list_to_set (C := gset A) (distinct l))
    by apply NoDup_distinct.
  f_equal. apply set_eq. intros x.
  by rewrite !elem_of_list_to_set, elem_of_distinct.
Qed.

(** ** The codec and the function-type registry *)

Lemma sigToWasmType_getSig (t : WasmType) :
  Sig.sigToWasmType (Sig.getSig t) = Some t.
Proof. by destruct t. Qed.

Lemma toTypes_ofTypes (l : list WasmType) : Sig.toTypes (Sig.ofTypes l) = Some l.
Proof.
  induction l as [|t l IH]; [done|]. cbn.
  by rewrite sigToWasmType_getSig, IH.
Qed.

Lemma ofShape_inj (r r' : WasmType) (ps ps' : list WasmType) :
  Sig.ofShape r ps = Sig.ofShape r' ps' → r = r' ∧ ps = ps'.
Proof.
  unfold Sig.ofShape. intros [= Hr Hps]. split.
  - apply (f_equal Sig.sigToWasmType) in Hr.
    rewrite !sigToWasmType_getSig in Hr. congruence.
  - apply (f_equal Sig.toTypes) in Hps.
    rewrite !toTypes_ofTypes in Hps. congruence.
Qed.

Lemma find_some_app {A} (P : A → bool) (l l' : list A) (x : A) :
  List.find P l = Some x → List.find P (l ++ l') = Some x.
Proof.
  induction l as [|y l IH]; [done|]. cbn. by destruct (P y).
Qed.

(** On a signature of the codec the registry always answers, with a type
    of that shape; it only ever appends to the list of function types. *)
Lemma ensureFunctionType_ofShape (r : WasmType) (ps : list WasmType)
    (m : Module) :
  ∃ t added,
    ensureFunctionType (Sig.ofShape r ps) m
    = Some (t, mkModule (functionTypes m ++ added) (imports m) (exports m)
                 (functions m) (segments m))
    ∧ ft_result t = r ∧ ft_params t = ps
    ∧ t ∈ functionTypes m ++ added.
Proof.
  unfold ensureFunctionType.
  destruct (List.find _ (functionTypes m)) as [t|] eqn:Hfind.
  - apply List.find_some in Hfind as [Hin Hsig].
    apply bool_decide_eq_true in Hsig. apply ofShape_inj in Hsig as [? ?].
    exists t, []. rewrite app_nil_r. destruct m. repeat split; try done.
    by apply list_elem_of_In.
  - unfold Sig.ofShape. cbv beta iota.
    rewrite sigToWasmType_getSig. cbn [mbind option_bind].
    rewrite toTypes_ofTypes. cbn [mbind option_bind].
    eexists _, [_]. repeat split; try done.
    apply elem_of_app. right. by left.
Qed.

Lemma hasI64Param_spec (params : list WasmType) :
  hasI64Param params = true ↔ i64 ∈ params.
Proof.
  induction params as [|ty params IH]; cbn.
  - split; [done|]. by intros ?%elem_of_nil.
  - rewrite elem_of_cons. destruct (decide (ty = i64)) as [->|]; [tauto|].
    rewrite IH. intuition congruence.
Qed.

Lemma hasI64ResultOrParam_spec (t : FunctionType) :
  hasI64ResultOrParam t = true ↔ usesI64 (ft_result t) (ft_params t).
Proof.
  unfold hasI64ResultOrParam, usesI64.
  destruct (decide (ft_result t = i64)); [tauto|].
  rewrite hasI64Param_spec. tauto.
Qed.

(** ** The dynCall thunks *)

Lemma getFunction_addFunctions (m m' : Module) (name : Name) (func : Function)
    (new : list Function) :
  functions m' = functions m ++ new →
  Wasm.getFunction m name = Some func → Wasm.getFunction m' name = Some func.
Proof.
  unfold Wasm.getFunction. intros ->. apply find_some_app.
Qed.

Lemma removeImport_frame (m : Module) (names : list Name) :
  functions (foldl Wasm.removeImport m names) = functions m
  ∧ functionTypes (foldl Wasm.removeImport m names) = functionTypes m
  ∧ exports (foldl Wasm.removeImport m names) = exports m
  ∧ segments (foldl Wasm.removeImport m names) = segments m.
Proof.
  revert m. induction names as [|n names IH]; intros m; [done|].
  cbn [foldl]. destruct (IH (Wasm.removeImport m n)) as (-> & -> & -> & ->).
  done.
Qed.

(** The thunk that [makeThunk] builds, with the counters read as plain
    numbers: sound as long as the parameter count stays within 32 bits. *)
Lemma makeThunk_shape (sig : string) (t : FunctionType) :
  (Z.of_nat (length (ft_params t)) < two32)%Z →
  ∃ names,
    makeThunk sig t
    = mkFunction ("dynCall_" +:+ sig) (ft_result t) (i32 :: ft_params t) []
        ("fptr" :: names)
        (Some (CallIndirect (ft_name t) (GetLocal 0 i32)
                 (imap (λ i ty, GetLocal (N.of_nat i + 1) ty) (ft_params t))
                 (ft_result t))).
Proof.
  intros Hlen. eexists. unfold makeThunk, Builder.makeFunction, setBody.
  cbn -[String.app imap to_string]. rewrite app_nil_r. f_equal.
  - f_equal. rewrite fmap_imap, (imap_ext _ (const id)) by done.
    by rewrite imap_const, list_fmap_id.
  - unfold Builder.makeCallIndirect, Builder.makeGetLocal. do 2 f_equal.
    apply imap_ext. intros i ty Hi. f_equal.
    apply lookup_lt_Some in Hi. unfold to_address, two32 in *.
    rewrite Z.mod_small; lia.
Qed.

Lemma thunkSignatures_snoc (hist : list Function) (func : Function) :
  thunkSignatures (hist ++ [func])
  = if decide (usesI64 (fn_result func) (fn_params func)
               ∨ Sig.ofFunction func ∈ thunkSignatures hist)
    then thunkSignatures hist
    else thunkSignatures hist ++ [Sig.ofFunction func].
Proof.
  unfold thunkSignatures. rewrite filter_app.
  destruct (decide (usesI64 (fn_result func) (fn_params func))) as [Hu|Hu].
  - rewrite filter_cons_False, filter_nil, app_nil_r by tauto.
    by rewrite decide_True by by left.
  - rewrite filter_cons_True, filter_nil, fmap_app by done.
    change (Sig.ofFunction <$> [func]) with [Sig.ofFunction func].
    rewrite distinct_snoc.
    destruct (decide (Sig.ofFunction func ∈ _)) as [Hin|Hin].
    + by rewrite decide_True by (right; by apply elem_of_distinct).
    + rewrite decide_False; [done|].
      intros [Hu'|Hin']; [by destruct Hu|].
      rewrite elem_of_distinct in Hin'. by destruct Hin.
Qed.

Lemma thunkStep_spec (st : ThunkState) (name : Name) (func : Function) :
  Wasm.getFunction (ts_wasm st) name = Some func →
  ∃ t added new sigs',
    thunkStep st name
    = Some (mkThunkState
              (mkModule (functionTypes (ts_wasm st) ++ added)
                 (imports (ts_wasm st)) (exports (ts_wasm st))
                 (functions (ts_wasm st) ++ new) (segments (ts_wasm st)))
              sigs' (ts_generatedFunctions st ++ new))
    ∧ ft_result t = fn_result func ∧ ft_params t = fn_params func
    ∧ t ∈ functionTypes (ts_wasm st) ++ added
    ∧ if decide (usesI64 (fn_result func) (fn_params func)
                 ∨ Sig.ofFunction func ∈ ts_sigs st)
      then new = [] ∧ sigs' = ts_sigs st
      else new = [makeThunk (Sig.ofFunction func) t]
           ∧ sigs' = {[Sig.ofFunction func]} ∪ ts_sigs st.
Proof.
  intros Hget. unfold thunkStep. rewrite Hget. cbn [mbind option_bind].
  destruct (ensureFunctionType_ofShape (fn_result func) (fn_params func)
              (ts_wasm st)) as (t & added & Hens & Hr & Hp & Hin).
  change (Sig.ofShape (fn_result func) (fn_params func))
    with (Sig.ofFunction func) in Hens.
  cbv zeta. rewrite Hens. cbn [mbind option_bind].
  exists t, added.
  destruct (hasI64ResultOrParam t) eqn:H64.
  - apply hasI64ResultOrParam_spec in H64. rewrite Hr, Hp in H64.
    exists [], (ts_sigs st). rewrite !app_nil_r.
    by rewrite decide_True by by left.
  - assert (¬ usesI64 (fn_result func) (fn_params func)) as Hno.
    { rewrite <- Hr, <- Hp, <- hasI64ResultOrParam_spec. congruence. }
    destruct (decide (Sig.ofFunction func ∈ ts_sigs st)) as [Hs|Hs].
    + exists [], (ts_sigs st). rewrite !app_nil_r.
      by rewrite decide_True by by right.
    + eexists [_], _. rewrite decide_False by tauto. done.
Qed.

Lemma thunkLoop_spec (table : list Name) (funcs : list Function)
    (st : ThunkState) (hist : list Function) :
  Forall2 (λ name func, Wasm.getFunction (ts_wasm st) name = Some func)
    table funcs →
  thunkInv st hist →
  ∃ st' new,
    thunkLoop st table = Some st'
    ∧ thunkInv st' (hist ++ funcs)
    ∧ ts_generatedFunctions st' = ts_generatedFunctions st ++ new
    ∧ functions (ts_wasm st') = functions (ts_wasm st) ++ new
    ∧ imports (ts_wasm st') = imports (ts_wasm st)
    ∧ exports (ts_wasm st') = exports (ts_wasm st)
    ∧ segments (ts_wasm st') = segments (ts_wasm st).
Proof.
  revert funcs st hist.
  induction table as [|name table IH]; intros funcs st hist Htable Hinv.
  - apply Forall2_nil_inv_l in Htable as ->.
    exists st, []. rewrite !app_nil_r. done.
  - apply Forall2_cons_inv_l in Htable as (func & funcs' & Hget & Hrest & ->).
    destruct (thunkStep_spec st name func Hget)
      as (t & added & new & sigs' & Hstep & Hr & Hp & Hin & Hcase).
    cbn [thunkLoop]. rewrite Hstep. cbn [mbind option_bind].
    set (st1 := mkThunkState _ sigs' _) in *.
    assert (thunkInv st1 (hist ++ [func])) as Hinv1.
    { destruct Hinv as [Hsigs Hgen]. unfold thunkInv.
      rewrite thunkSignatures_snoc.
      assert (Forall2
                (λ sig f, ∃ callee t0,
                   callee ∈ hist ++ [func] ∧ sig = Sig.ofFunction callee
                   ∧ t0 ∈ functionTypes (ts_wasm st1)
                   ∧ ft_result t0 = fn_result callee
                   ∧ ft_params t0 = fn_params callee
                   ∧ f = makeThunk sig t0)
                (thunkSignatures hist) (ts_generatedFunctions st)) as Hgen'.
      { eapply Forall2_impl; [exact Hgen|].
        intros sig f (callee & t0 & ? & ? & ? & ? & ? & ?).
        exists callee, t0. repeat split; try done.
        - apply elem_of_app. by left.
        - apply elem_of_app. by left. }
      rewrite Hsigs in Hcase.
      rewrite (decide_ext _
                 (usesI64 (fn_result func) (fn_params func)
                  ∨ Sig.ofFunction func ∈ thunkSignatures hist)) in Hcase
        by (by rewrite elem_of_list_to_set).
      destruct (decide _) as [Hskip|Hkeep].
      - destruct Hcase as [-> ->]. split; [done|].
        cbn. by rewrite app_nil_r.
      - destruct Hcase as [-> ->]. split.
        + cbn [st1 ts_sigs]. by rewrite list_to_set_snoc.
        + cbn. apply Forall2_app; [done|]. constructor; [|constructor].
          exists func, t. repeat split; try done.
          apply elem_of_app. right. by left. }
    destruct (IH funcs' st1 (hist ++ [func])) as (st' & new' & Hloop & Hinv' & Hg & Hf & Hi & He & Hs);
      [|done|].
    { eapply Forall2_impl; [exact Hrest|]. intros n f Hn.
      by eapply (getFunction_addFunctions (ts_wasm st)). }
    exists st', (new ++ new'). rewrite <- app_assoc in Hinv'.
    rewrite Hloop, Hg, Hf, Hi, He, Hs. cbn. by rewrite !app_assoc.
Qed.

Lemma makeDynCallThunks_spec (wasm0 : Module) (table : list Name)
    (funcs : list Function) :
  Forall2 (λ name func, Wasm.getFunction wasm0 name = Some func) table funcs →
  ∃ st',
    makeDynCallThunks wasm0 table
    = Some (ts_generatedFunctions st', ts_wasm st')
    ∧ thunkInv st' funcs
    ∧ functions (ts_wasm st') = functions wasm0 ++ ts_generatedFunctions st'
    ∧ exports (ts_wasm st') = exports wasm0
    ∧ segments (ts_wasm st') = segments wasm0.
Proof.
  intros Htable. unfold makeDynCallThunks.
  set (m := removeImportsWithSubstring wasm0 EMSCRIPTEN_ASM_CONST).
  destruct (removeImport_frame wasm0
              (im_name <$> List.filter
                 (λ i, hasSubstring (im_name i) EMSCRIPTEN_ASM_CONST)
                 (imports wasm0))) as (Hf & _ & He & Hs).
  fold (removeImportsWithSubstring wasm0 EMSCRIPTEN_ASM_CONST) in Hf, He, Hs.
  fold m in Hf, He, Hs.
  destruct (thunkLoop_spec table funcs (mkThunkState m ∅ []) [])
    as (st' & new & Hloop & Hinv & Hg & Hf' & _ & He' & Hs').
  - eapply Forall2_impl; [exact Htable|]. intros n f Hn.
    unfold Wasm.getFunction in *. cbn. by rewrite Hf.
  - split; [done|]. cbn. constructor.
  - exists st'. rewrite Hloop. cbn in *. rewrite Hg, Hf', He', Hs'.
    by rewrite Hf, He, Hs.
Qed.

(** C3. When every table entry names a function of the module,
    [makeDynCallThunks] returns, and the thunks it generates are named
    [dynCall_] followed by a signature, one for each distinct signature
    among the table functions that have no 64-bit integer parameter or
    result, in the order in which those signatures first occur in the
    table; entries with a 64-bit integer are skipped. The generated
    functions are appended to the module. In particular a table whose
    entries have the signatures ii, ii, v, ij (j being the 64-bit integer)
    yields exactly [dynCall_ii] and [dynCall_v], in that order. *)
Theorem makeDynCallThunks_one_per_signature (wasm0 : Module)
    (table : list Name) (funcs : list Function) :
  Forall2 (λ name func, Wasm.getFunction wasm0 name = Some func) table funcs →
  ∃ generated wasm',
    makeDynCallThunks wasm0 table = Some (generated, wasm')
    ∧ fn_name <$> generated
      = (λ sig, "dynCall_" +:+ sig)
          <$> distinct
                (Sig.ofFunction
                   <$> filter (λ f, ¬ usesI64 (fn_result f) (fn_params f))
                         funcs)
    ∧ functions wasm' = functions wasm0 ++ generated
    ∧ (Sig.ofFunction <$> funcs = ["ii"; "ii"; "v"; "ij"] →
       fn_name <$> generated = ["dynCall_ii"; "dynCall_v"]).
Proof.
  intros Htable.
  destruct (makeDynCallThunks_spec wasm0 table funcs Htable)
    as (st' & Hrun & [_ Hgen] & Hfuncs & _).
  exists (ts_generatedFunctions st'), (ts_wasm st').
  assert (fn_name <$> ts_generatedFunctions st'
          = (λ sig, "dynCall_" +:+ sig) <$> thunkSignatures funcs) as Hnames.
  { clear Hrun Hfuncs.
    induction Hgen as [|sig f sigs fs (callee & t & _ & _ & _ & _ & _ & ->) _ IH];
      [done|]. rewrite !fmap_cons, IH. reflexivity. }
  repeat split; try done.
  intros Hsigs. rewrite Hnames. unfold thunkSignatures.
  destruct funcs as [|fa [|fb [|fc [|fd [|]]]]]; try done.
  assert (Sig.ofFunction fa = "ii" ∧ Sig.ofFunction fb = "ii"
          ∧ Sig.ofFunction fc = "v" ∧ Sig.ofFunction fd = "ij")
    as (Ha & Hb & Hc & Hd).
  { rewrite !fmap_cons in Hsigs. repeat split; congruence. }
  apply (ofShape_inj _ i32 _ [i32]) in Ha as [Ha1 Ha2].
  apply (ofShape_inj _ i32 _ [i32]) in Hb as [Hb1 Hb2].
  apply (ofShape_inj _ none _ []) in Hc as [Hc1 Hc2].
  apply (ofShape_inj _ i32 _ [i64]) in Hd as [Hd1 Hd2].
  destruct fa, fb, fc, fd. cbn in Ha1, Ha2, Hb1, Hb2, Hc1, Hc2, Hd1, Hd2.
  subst. by vm_compute.
Qed.

(** C7. When every table entry names a function of the module and no table
    function has 2^32 parameters or more, each surviving, unique signature
    gets one thunk: a function named [dynCall_] followed by the signature,
    whose first parameter is an [i32] (the function pointer), whose other
    parameters are the parameter types of the callee signature in order,
    whose result is the result of the callee signature, and whose body is
    one indirect call, through a registered function type of the callee's
    shape, that takes local 0 as the pointer and passes locals 1, 2, ... in
    order as the arguments. *)
Theorem makeDynCallThunks_thunk_shape (wasm0 : Module) (table : list Name)
    (funcs : list Function) :
  Forall2 (λ name func, Wasm.getFunction wasm0 name = Some func) table funcs →
  Forall (λ g, (Z.of_nat (length (fn_params g)) < two32)%Z) funcs →
  ∃ generated wasm',
    makeDynCallThunks wasm0 table = Some (generated, wasm')
    ∧ Forall2
        (λ sig f, ∃ callee fullType names,
           callee ∈ funcs ∧ Sig.ofFunction callee = sig
           ∧ (∃ t, t ∈ functionTypes wasm' ∧ ft_name t = fullType
                   ∧ ft_result t = fn_result callee
                   ∧ ft_params t = fn_params callee)
           ∧ f = mkFunction ("dynCall_" +:+ sig) (fn_result callee)
                   (i32 :: fn_params callee) [] ("fptr" :: names)
                   (Some (CallIndirect fullType (GetLocal 0 i32)
                            (imap (λ i ty, GetLocal (N.of_nat i + 1) ty)
                               (fn_params callee))
                            (fn_result callee))))
        (distinct
           (Sig.ofFunction
              <$> filter (λ f, ¬ usesI64 (fn_result f) (fn_params f)) funcs))
        generated.
Proof.
  intros Htable Hbound.
  destruct (makeDynCallThunks_spec wasm0 table funcs Htable)
    as (st' & Hrun & [_ Hgen] & _).
  exists (ts_generatedFunctions st'), (ts_wasm st'). split; [done|].
  eapply Forall2_impl; [exact Hgen|].
  intros sig f (callee & t & Hin & -> & Ht & Hr & Hp & ->).
  destruct (makeThunk_shape (Sig.ofFunction callee) t) as [names Hshape].
  { rewrite Hp. by eapply (proj1 (Forall_forall _ _) Hbound). }
  exists callee, (ft_name t), names. rewrite Hshape, Hr, Hp.
  repeat split; try done. by exists t.
Qed.

(** ** The rewriter *)

Section Rewriter.
Context `{SharedConstants}.

Lemma codeForConstAddr_sameMemory (w w' : AsmConstWalker) (value : Literal) :
  sameMemory w w' → codeForConstAddr w' value = codeForConstAddr w value.
Proof. intros [Hs Hm]. unfold codeForConstAddr. by rewrite Hs, Hm. Qed.

Lemma observe_sameMemory (w w' : AsmConstWalker) (curr : CallImportNode) :
  sameMemory w w' → observe w' curr = observe w curr.
Proof.
  intros Hm. unfold observe. destruct (isIntrinsic curr); [|done].
  destruct (ci_operands curr) as [|[] ?]; try done.
  by rewrite (codeForConstAddr_sameMemory w w').
Qed.

Lemma codeForConstAddr_i32 (w : AsmConstWalker) (value : Literal)
    (code : string) :
  codeForConstAddr w value = Some code → ∃ a, value = LitI32 a.
Proof. destruct value; try done. eauto. Qed.

Lemma idLiteralForCode_spec (w : AsmConstWalker) (code : string) :
  idLiteralForCode w code
  = (LitI32 (idFor w code),
     mkWalker (wasm w) (segmentsByAddress w) (sigsForCode w)
       (match ids w !! code with
        | None => <[code := to_address (idFor w code)]> (ids w)
        | Some _ => ids w
        end)
       (allSigs w)).
Proof.
  unfold idLiteralForCode, idFor. destruct (ids w !! code); [|done].
  by destruct w.
Qed.

(** One visit of an intrinsic call site, spelled out. *)
Lemma visitCallImport_intrinsic (w : AsmConstWalker) (curr : CallImportNode)
    (code sig : string) :
  observe w curr = Some (code, sig) →
  ∃ arg rest,
    ci_operands curr = Const arg :: rest
    ∧ codeForConstAddr w arg = Some code
    ∧ sig = asmConstSig (Sig.ofCall curr)
    ∧ if decide (sig ∈ allSigs w)
      then visitCallImport w curr
           = Some (rewritten w curr code sig rest, recorded w (wasm w) code sig)
      else ∃ t added,
          Sig.ofFunctionType t = Sig.ofCall curr
          ∧ t ∈ functionTypes (wasm w) ++ added
          ∧ visitCallImport w curr
            = Some
                (rewritten w curr code sig rest,
                 recorded w
                   (mkModule (functionTypes (wasm w) ++ added)
                      (imports (wasm w)
                       ++ [mkImport (nameForImportWithSig sig) ENV
                             (nameForImportWithSig sig) (ft_name t) KFunction])
                      (exports (wasm w)) (functions (wasm w))
                      (segments (wasm w)))
                   code sig).
Proof.
  unfold observe, visitCallImport, isIntrinsic.
  destruct (hasSubstring _ _); [|done].
  destruct (ci_operands curr) as [|[| arg | | | | |] rest] eqn:Hops; try done.
  destruct (codeForConstAddr w arg) as [code'|] eqn:Hcode; [|done].
  cbn [mbind option_bind]. intros [= -> <-].
  destruct (codeForConstAddr_i32 _ _ _ Hcode) as [a ->].
  exists (LitI32 a), rest. do 3 (split; [done|]).
  assert (Sig.ofCall curr
          = Sig.ofShape (ci_type curr) (i32 :: (typeOf <$> rest))) as Hbase.
  { unfold Sig.ofCall. by rewrite Hops. }
  rewrite idLiteralForCode_spec. cbv zeta beta iota.
  replace (Sig.ofCall (mkCallImport (ci_target curr)
                         (Const (LitI32 (idFor w code)) :: rest) (ci_type curr)))
    with (Sig.ofCall curr) by (by rewrite Hbase).
  set (sig := asmConstSig (Sig.ofCall curr)).
  unfold recordSig, rewritten, recorded.
  cbn [allSigs wasm segmentsByAddress sigsForCode ids ci_operands ci_type].
  destruct (decide (sig ∈ allSigs w)) as [Hsig|Hsig].
  - rewrite decide_False by (intros Hn; by apply Hn).
    do 3 f_equal. symmetry. by apply union_singleton_elem.
  - rewrite decide_True by done.
    destruct (ensureFunctionType_ofShape (ci_type curr)
                (i32 :: (typeOf <$> rest)) (wasm w))
      as (t & added & Hens & Hr & Hp & Hin).
    rewrite <- Hbase in Hens. exists t, added.
    split; [unfold Sig.ofFunctionType; by rewrite Hr, Hp|].
    split; [done|].
    unfold addImport. cbn [wasm]. rewrite Hens.
    reflexivity.
Qed.

Lemma to_int32_to_address (z : Z) :
  to_int32 (Z.of_N (to_address z)) = to_int32 z.
Proof.
  unfold to_int32, to_address, two32.
  rewrite Z2N.id by (apply Z.mod_pos_bound; lia).
  by rewrite Z.add_mod_idemp_l by lia.
Qed.

Lemma to_int32_idemp (z : Z) : to_int32 (to_int32 z) = to_int32 z.
Proof.
  unfold to_int32, two32.
  replace ((z + 2 ^ 31) `mod` 2 ^ 32 - 2 ^ 31 + 2 ^ 31)%Z
    with ((z + 2 ^ 31) `mod` 2 ^ 32)%Z by lia.
  by rewrite Z.mod_mod by lia.
Qed.

Lemma to_int32_small (z : Z) : (0 ≤ z < 2 ^ 31)%Z → to_int32 z = z.
Proof.
  intros Hz. unfold to_int32, two32. rewrite Z.mod_small; lia.
Qed.

Lemma to_address_small (z : Z) :
  (0 ≤ z < 2 ^ 32)%Z → to_address z = Z.to_N z.
Proof. intros Hz. unfold to_address, two32. by rewrite Z.mod_small. Qed.

(** *** The code registry *)

Lemma idsInv_size (idsm : gmap string N) (codes : list string) :
  idsInv idsm codes → size idsm = length (distinct codes).
Proof.
  intros [_ Hdom]. by rewrite <- size_dom, Hdom, distinct_length_size.
Qed.

Lemma idsInv_step (idsm : gmap string N) (codes : list string) (code : string) :
  idsInv idsm codes →
  idsInv
    (match idsm !! code with
     | None => <[code := to_address (to_int32 (Z.of_nat (size idsm)))]> idsm
     | Some _ => idsm
     end)
    (codes ++ [code]).
Proof.
  intros Hinv. pose proof (idsInv_size _ _ Hinv) as Hsize.
  destruct Hinv as [Hnth Hdom].
  assert (code ∈ codes ↔ is_Some (idsm !! code)) as Hin.
  { by rewrite <- elem_of_dom, Hdom, elem_of_list_to_set. }
  unfold idsInv. rewrite distinct_snoc, list_to_set_snoc.
  destruct (idsm !! code) as [a|] eqn:Hlook.
  - rewrite decide_True by (apply Hin; eauto). split; [done|].
    rewrite Hdom. symmetry. apply union_singleton_elem, elem_of_list_to_set.
    apply Hin. eauto.
  - rewrite decide_False by (rewrite Hin; by intros [? ?]). split.
    + intros k c Hk. apply lookup_app_Some in Hk as [Hk|[Hlen Hk]].
      * rewrite lookup_insert_ne; [by apply Hnth|].
        intros <-. apply list_elem_of_lookup_2, elem_of_distinct, Hin in Hk.
        by destruct Hk.
      * apply list_lookup_singleton_Some in Hk as [Hk <-].
        rewrite lookup_insert_eq. do 3 f_equal. lia.
    + by rewrite dom_insert_L, Hdom.
Qed.

(** *** The signature sets *)

Lemma sigsOf_not_observed (obs : list (string * string)) (code : string) :
  code ∉ obs.*1 → sigsOf obs code = [].
Proof.
  intros Hn. unfold sigsOf.
  induction obs as [|[c s] obs IH]; [done|].
  rewrite fmap_cons, not_elem_of_cons in Hn. destruct Hn as [Hc Hn].
  rewrite filter_cons_False by (cbn in *; congruence). by apply IH.
Qed.

Lemma sigsInv_step (sfc : gmap string (gset string))
    (obs : list (string * string)) (code sig : string) :
  sigsInv sfc obs →
  sigsInv (<[code := {[sig]} ∪ default ∅ (sfc !! code)]> sfc)
    (obs ++ [(code, sig)]).
Proof.
  intros Hinv c. unfold sigsOf. rewrite fmap_app, filter_app. cbn [fmap list_fmap].
  destruct (decide (c = code)) as [->|Hc].
  - rewrite lookup_insert_eq, decide_True by (apply elem_of_app; right; by left).
    rewrite filter_cons_True, filter_nil, fmap_app by done.
    change ([(code, sig)].*2) with [sig].
    rewrite list_to_set_snoc. do 2 f_equal. rewrite Hinv.
    destruct (decide (code ∈ obs.*1)) as [Hin|Hin]; [done|].
    fold (sigsOf obs code). by rewrite sigsOf_not_observed by done.
  - rewrite lookup_insert_ne by done.
    rewrite filter_cons_False, filter_nil, app_nil_r by (cbn; congruence).
    rewrite Hinv. apply decide_ext.
    rewrite elem_of_app, list_elem_of_singleton.
    split; [by left|by intros [?|?]].
Qed.

(** *** One walk *)

Lemma observed_snoc (w0 : AsmConstWalker) (hist : list CallImportNode)
    (curr : CallImportNode) :
  observed w0 (hist ++ [curr])
  = observed w0 hist ++ option_list (observe w0 curr).
Proof.
  unfold observed. rewrite omap_app. f_equal; cbn;
    by destruct (observe w0 curr).
Qed.

Lemma importFor_mono (hist hist' : list CallImportNode)
    (fts fts' : list FunctionType) (sig : string) (imp : Import) :
  hist ⊆ hist' → fts ⊆ fts' →
  importFor hist fts sig imp → importFor hist' fts' sig imp.
Proof.
  intros Hh Hf (? & ? & ? & ? & t & curr & ? & ? & ? & ? & ? & ?).
  split_and!; try done. exists t, curr. split_and!; try done.
  - by apply Hh.
  - by apply Hf.
Qed.

Lemma visitCallImport_plain (w : AsmConstWalker) (curr curr' : CallImportNode)
    (w1 : AsmConstWalker) :
  observe w curr = None →
  visitCallImport w curr = Some (curr', w1) →
  isIntrinsic curr = false ∧ curr' = curr ∧ w1 = w.
Proof.
  unfold observe, visitCallImport, isIntrinsic.
  destruct (hasSubstring _ _); [|by intros _ [= <- <-]].
  destruct (ci_operands curr) as [|[| arg | | | | |] rest]; try done.
  by destruct (codeForConstAddr w arg).
Qed.

Lemma walkInv_step (w0 w : AsmConstWalker) (hist : list CallImportNode)
    (curr curr' : CallImportNode) (w1 : AsmConstWalker) :
  walkInv w0 w hist →
  visitCallImport w curr = Some (curr', w1) →
  walkInv w0 w1 (hist ++ [curr])
  ∧ (∀ c a, ids w !! c = Some a → ids w1 !! c = Some a)
  ∧ siteRewritten w0 w1 curr curr'.
Proof.
  intros (Hmem & Hids & Hsigs & Hall & (imps & Himps & Hfor) & Hfun & Hexp) Hv.
  unfold siteRewritten, walkInv. rewrite !observed_snoc.
  rewrite <- (observe_sameMemory w0 w curr Hmem).
  destruct (observe w curr) as [[code sig]|] eqn:Hobs.
  - destruct (visitCallImport_intrinsic w curr code sig Hobs)
      as (arg & rest & Hops & Hcode & Hsig & Hcase).
    assert (isIntrinsic curr = true) as Hintr.
    { unfold observe in Hobs. by destruct (isIntrinsic curr). }
    change (option_list (Some (code, sig))) with [(code, sig)].
    rewrite !fmap_app.
    change ([(code, sig)].*1) with [code].
    change ([(code, sig)].*2) with [sig].
    assert (∀ m, ids (recorded w m code sig) !! code
                 = Some (match ids w !! code with
                         | None => to_address (idFor w code)
                         | Some a => a
                         end)) as Hbound.
    { intros m. cbn. destruct (ids w !! code) eqn:E; [done|].
      by rewrite lookup_insert_eq. }
    assert (∀ m c a, ids w !! c = Some a →
                     ids (recorded w m code sig) !! c = Some a) as Hmono.
    { intros m c a Hc. cbn. destruct (ids w !! code) eqn:E; [done|].
      rewrite lookup_insert_ne; [done|congruence]. }
    assert (∀ m, ∃ a, ids (recorded w m code sig) !! code = Some a
                      ∧ idFor w code = to_int32 (Z.of_N a)) as Hid.
    { intros m. eexists. split; [apply Hbound|]. unfold idFor.
      destruct (ids w !! code); [done|].
      by rewrite to_int32_to_address, to_int32_idemp. }
    assert (∀ m, idsInv (ids (recorded w m code sig))
                   ((observed w0 hist).*1 ++ [code])) as Hids'.
    { intros m. cbn. pose proof (idsInv_step _ _ code Hids) as Hstep.
      unfold idFor. by destruct (ids w !! code). }
    assert (∀ m, sigsInv (sigsForCode (recorded w m code sig))
                   (observed w0 hist ++ [(code, sig)])) as Hsigs'.
    { intros m. cbn. by apply sigsInv_step. }
    assert (∀ m, allSigs (recorded w m code sig)
                 = list_to_set ((observed w0 hist).*2 ++ [sig])) as Hall'.
    { intros m. cbn. by rewrite list_to_set_snoc, Hall. }
    rewrite distinct_snoc.
    assert (sig ∈ allSigs w ↔ sig ∈ (observed w0 hist).*2) as Hiff.
    { by rewrite Hall, elem_of_list_to_set. }
    destruct (decide (sig ∈ allSigs w)) as [Hseen|Hnew];
      [rewrite decide_True by (by apply Hiff)
      |rewrite decide_False by (by rewrite <- Hiff)].
    + rewrite Hv in Hcase. injection Hcase as -> ->.
      split; [|split; [apply Hmono|]].
      * destruct Hmem as [Hm1 Hm2].
        split_and!; try done. exists imps. split; [done|].
        eapply Forall2_impl; [exact Hfor|]. intros ??.
        apply importFor_mono; [|done]. intros ??. apply elem_of_app. by left.
      * destruct (Hid (wasm w)) as (a & Ha & Hida).
        exists arg, rest, a. unfold rewritten. by rewrite Hida.
    + destruct Hcase as (t & added & Ht & Hin & Hcase).
      rewrite Hv in Hcase. injection Hcase as -> ->.
      split; [|split; [apply Hmono|]].
      * destruct Hmem as [Hm1 Hm2].
        split_and!; try done.
        eexists (imps ++ [_]). cbn. rewrite Himps, <- app_assoc.
        split; [done|]. apply Forall2_app.
        -- eapply Forall2_impl; [exact Hfor|]. intros ??.
           apply importFor_mono; intros ??; apply elem_of_app; by left.
        -- constructor; [|constructor]. split_and!; try done.
           exists t, curr. split_and!; try done.
           apply elem_of_app. right. by left.
      * match goal with
        | |- context [recorded w ?m code sig] =>
            destruct (Hid m) as (a & Ha & Hida)
        end.
        exists arg, rest, a. unfold rewritten. by rewrite Hida.
  - destruct (visitCallImport_plain _ _ _ _ Hobs Hv) as (Hintr & -> & ->).
    change (option_list None) with (@nil (string * string)).
    rewrite !app_nil_r.
    split; [|done].
    split_and!; try done; try apply Hmem. exists imps. split; [done|].
    eapply Forall2_impl; [exact Hfor|]. intros ??.
    apply importFor_mono; [|done]. intros ??. apply elem_of_app. by left.
Qed.

Lemma siteRewritten_mono (w0 w1 w' : AsmConstWalker)
    (curr curr' : CallImportNode) :
  (∀ c a, ids w1 !! c = Some a → ids w' !! c = Some a) →
  siteRewritten w0 w1 curr curr' → siteRewritten w0 w' curr curr'.
Proof.
  intros Hmono. unfold siteRewritten.
  destruct (observe w0 curr) as [[code sig]|]; [|done].
  intros (arg & rest & a & ? & ? & ?). exists arg, rest, a.
  split_and!; try done. by apply Hmono.
Qed.

Lemma visitAll_spec (w0 : AsmConstWalker) (sites : list CallImportNode) :
  ∀ (w : AsmConstWalker) (hist sites' : list CallImportNode)
    (w' : AsmConstWalker),
    visitAll w sites = Some (sites', w') →
    walkInv w0 w hist →
    walkInv w0 w' (hist ++ sites)
    ∧ (∀ c a, ids w !! c = Some a → ids w' !! c = Some a)
    ∧ Forall2 (siteRewritten w0 w') sites sites'.
Proof.
  induction sites as [|curr sites IH]; intros w hist sites' w' Hv Hinv.
  - injection Hv as <- <-. rewrite app_nil_r. by split_and!.
  - cbn [visitAll] in Hv.
    destruct (visitCallImport w curr) as [[curr' w1]|] eqn:Hvisit; [|done].
    cbn [mbind option_bind] in Hv.
    destruct (visitAll w1 sites) as [[rest w2]|] eqn:Hrest; [|done].
    injection Hv as <- <-.
    destruct (walkInv_step w0 w hist curr curr' w1 Hinv Hvisit)
      as (Hinv1 & Hmono1 & Hsite).
    destruct (IH w1 (hist ++ [curr]) rest w2 Hrest Hinv1)
      as (Hinv2 & Hmono2 & Hsites).
    rewrite <- app_assoc in Hinv2. split_and!; try done.
    + intros c a Hc. by apply Hmono2, Hmono1.
    + constructor; [|done]. by eapply siteRewritten_mono.
Qed.

Lemma walkInv_init (m : Module) (segs : gmap N N) :
  walkInv (newWalker m segs) (newWalker m segs) [].
Proof.
  unfold walkInv, sameMemory, idsInv, sigsInv. cbn. split_and!; try done.
  exists []. rewrite app_nil_r. split; [done|]. constructor.
Qed.

(** Everything that one walk from a fresh walker establishes. *)
Lemma walk_spec (m : Module) (segs : gmap N N)
    (sites sites' : list CallImportNode) (w' : AsmConstWalker) :
  visitAll (newWalker m segs) sites = Some (sites', w') →
  walkInv (newWalker m segs) w' sites
  ∧ Forall2 (siteRewritten (newWalker m segs) w') sites sites'.
Proof.
  intros Hv.
  destruct (visitAll_spec (newWalker m segs) sites (newWalker m segs) []
              sites' w' Hv (walkInv_init m segs)) as (Hinv & _ & Hsites).
  done.
Qed.

(** C1. In one walk from a fresh walker, as long as there are at most 2^31
    distinct code strings, the ids follow the order in which the resolved
    code strings are first met: the [k]-th distinct string (counting from
    0) is bound to the id [k], no other id is assigned, and every
    intrinsic call site, first occurrence or repeat, is given the id of
    its string as first operand. *)
Theorem ids_follow_first_seen_order (m : Module) (segs : gmap N N)
    (sites sites' : list CallImportNode) (w' : AsmConstWalker) :
  visitAll (newWalker m segs) sites = Some (sites', w') →
  (Z.of_nat (length (distinct (observed (newWalker m segs) sites).*1))
   ≤ 2 ^ 31)%Z →
  (∀ k code,
     distinct (observed (newWalker m segs) sites).*1 !! k = Some code →
     ids w' !! code = Some (N.of_nat k))
  ∧ size (ids w')
    = length (distinct (observed (newWalker m segs) sites).*1)
  ∧ Forall2
      (λ curr curr',
         ∀ code sig,
           observe (newWalker m segs) curr = Some (code, sig) →
           ∃ k rest,
             distinct (observed (newWalker m segs) sites).*1 !! k = Some code
             ∧ ci_operands curr' = Const (LitI32 (Z.of_nat k)) :: rest)
      sites sites'.
Proof.
  intros Hv Hbound.
  destruct (walk_spec m segs sites sites' w' Hv)
    as ((_ & Hids & _) & Hsites).
  set (codes := (observed (newWalker m segs) sites).*1) in *.
  pose proof (idsInv_size _ _ Hids) as Hsize. destruct Hids as [Hnth Hdom].
  assert (∀ k code, distinct codes !! k = Some code →
                    ids w' !! code = Some (N.of_nat k)) as Hnth'.
  { intros k code Hk. rewrite (Hnth k code Hk). f_equal.
    apply lookup_lt_Some in Hk.
    rewrite to_int32_small, to_address_small; lia. }
  split_and!; try done.
  eapply Forall2_impl; [exact Hsites|].
  intros curr curr'. unfold siteRewritten. intros Hsite code sig Hobs.
  rewrite Hobs in Hsite. destruct Hsite as (arg & rest & a & Hops & Ha & ->).
  assert (code ∈ distinct codes) as Hin.
  { apply elem_of_distinct. rewrite <- (elem_of_list_to_set (C := gset string)).
    rewrite <- Hdom. apply elem_of_dom. eauto. }
  apply list_elem_of_lookup in Hin as [k Hk].
  exists k, rest. split; [done|]. cbn.
  rewrite (Hnth' k code Hk) in Ha. injection Ha as <-.
  apply lookup_lt_Some in Hk. rewrite nat_N_Z, to_int32_small; [done|lia].
Qed.

(** C2. In one walk from a fresh walker every call site whose target
    contains the intrinsic name is rewritten: its first operand, a
    constant, becomes the constant id of the code string, and its target
    becomes the intrinsic name, an underscore and the reduced signature;
    every other call site is left alone. Over the whole walk exactly one
    import is appended per distinct reduced signature, in first-seen
    order: named (and based) by that target name, in the namespace [ENV],
    of kind function, and typed by a registered function type whose
    signature is the full signature, code-pointer slot included, of an
    intrinsic call site with that reduced signature. *)
Theorem intrinsic_calls_rewritten (m : Module) (segs : gmap N N)
    (sites sites' : list CallImportNode) (w' : AsmConstWalker) :
  visitAll (newWalker m segs) sites = Some (sites', w') →
  Forall2
    (λ curr curr',
       if hasSubstring (ci_target curr) EMSCRIPTEN_ASM_CONST then
         ∃ arg rest code a,
           ci_operands curr = Const arg :: rest
           ∧ codeForConstAddr (newWalker m segs) arg = Some code
           ∧ ids w' !! code = Some a
           ∧ curr' = mkCallImport
                       (EMSCRIPTEN_ASM_CONST +:+ "_"
                          +:+ asmConstSig (Sig.ofCall curr))
                       (Const (LitI32 (to_int32 (Z.of_N a))) :: rest) (ci_type curr)
       else curr' = curr)
    sites sites'
  ∧ ∃ imps,
      imports (wasm w') = imports m ++ imps
      ∧ Forall2
          (λ sig imp,
             imp = mkImport (EMSCRIPTEN_ASM_CONST +:+ "_" +:+ sig) ENV
                     (EMSCRIPTEN_ASM_CONST +:+ "_" +:+ sig)
                     (im_functionType imp) KFunction
             ∧ ∃ t curr,
                 curr ∈ sites
                 ∧ hasSubstring (ci_target curr) EMSCRIPTEN_ASM_CONST = true
                 ∧ asmConstSig (Sig.ofCall curr) = sig
                 ∧ t ∈ functionTypes (wasm w')
                 ∧ ft_name t = im_functionType imp
                 ∧ Sig.ofFunctionType t = Sig.ofCall curr)
          (distinct (observed (newWalker m segs) sites).*2) imps.
Proof.
  intros Hv.
  destruct (walk_spec m segs sites sites' w' Hv)
    as ((_ & _ & _ & _ & (imps & Himps & Hfor) & _) & Hsites).
  split.
  - eapply Forall2_impl; [exact Hsites|].
    intros curr curr'. unfold siteRewritten.
    destruct (observe (newWalker m segs) curr) as [[code sig]|] eqn:Hobs.
    + intros (arg & rest & a & Hops & Ha & ->).
      unfold observe, isIntrinsic in Hobs.
      destruct (hasSubstring _ _); [|done].
      rewrite Hops in Hobs.
      destruct (codeForConstAddr (newWalker m segs) arg) as [code'|] eqn:Hc;
        [|done].
      injection Hobs as -> <-. by exists arg, rest, code, a.
    + unfold isIntrinsic. by intros [-> ->].
  - exists imps. split; [done|].
    eapply Forall2_impl; [exact Hfor|].
    intros sig [name module base ft kind]
      (Hname & Hbase & Hmod & Hkind & t & curr & ?).
    cbn in Hname, Hbase, Hmod, Hkind. subst. split; [done|]. by exists t, curr.
Qed.

(** C5. After one walk from a fresh walker, every code string that was
    observed has a signature set whose members are exactly the reduced
    signatures of the call sites that resolved to it, so that its size is
    the number of distinct ones; the string has one id, and all those call
    sites carry it. In particular, when the walk observes the string x
    with the reduced signatures i and v, x has one id and the signature
    set holding i and v. *)
Theorem sigsForCode_one_member_per_signature (m : Module) (segs : gmap N N)
    (sites sites' : list CallImportNode) (w' : AsmConstWalker) :
  visitAll (newWalker m segs) sites = Some (sites', w') →
  (∀ code,
     code ∈ (observed (newWalker m segs) sites).*1 →
     ∃ (sigs : gset string) (a : Address),
       sigsForCode w' !! code = Some sigs
       ∧ (∀ sig, sig ∈ sigs
                 ↔ sig ∈ sigsOf (observed (newWalker m segs) sites) code)
       ∧ size sigs
         = length (distinct (sigsOf (observed (newWalker m segs) sites) code))
       ∧ ids w' !! code = Some a
       ∧ Forall2
           (λ curr curr',
              ∀ sig, observe (newWalker m segs) curr = Some (code, sig) →
                     ∃ rest,
                       ci_operands curr'
                       = Const (LitI32 (to_int32 (Z.of_N a))) :: rest)
           sites sites')
  ∧ (observed (newWalker m segs) sites = [("x", "i"); ("x", "v")] →
     sigsForCode w' !! "x" = Some {[ "i"; "v" ]}
     ∧ ids w' !! "x" = Some 0%N
     ∧ size (ids w') = 1).
Proof.
  intros Hv.
  destruct (walk_spec m segs sites sites' w' Hv)
    as ((_ & Hids & Hsigs & _) & Hsites).
  set (obs := observed (newWalker m segs) sites) in *.
  split.
  - intros code Hin.
    assert (is_Some (ids w' !! code)) as [a Ha].
    { apply elem_of_dom. destruct Hids as [_ ->].
      by apply elem_of_list_to_set. }
    exists (list_to_set (sigsOf obs code)), a.
    split_and!; try done.
    + by rewrite (Hsigs code), decide_True by done.
    + intros sig. by rewrite elem_of_list_to_set.
    + by rewrite distinct_length_size.
    + eapply Forall2_impl; [exact Hsites|].
      intros curr curr'. unfold siteRewritten. intros Hsite sig Hobs.
      rewrite Hobs in Hsite.
      destruct Hsite as (arg & rest & a' & Hops & Ha' & ->).
      exists rest. cbn. congruence.
  - intros Hobs. pose proof (idsInv_size _ _ Hids) as Hsize.
    destruct Hids as [Hnth _]. rewrite Hobs in *. split_and!.
    + by rewrite (Hsigs "x").
    + by rewrite (Hnth 0 "x").
    + by rewrite Hsize.
Qed.

(** C8. When the address-to-segment mapping has no entry for a constant
    address, [codeForConstAddr] returns the empty string, and it does
    return. The visit of an intrinsic call site with such a first operand
    goes through as for any other code string: the empty string is the key
    under which the id is looked up or assigned and under which the
    reduced signature is recorded, and the call is retargeted. *)
Theorem unresolved_address_gives_empty_code (w : AsmConstWalker)
    (curr : CallImportNode) (a : Z) (rest : list Expression) :
  segmentsByAddress w !! to_address a = None →
  codeForConstAddr w (LitI32 a) = Some ""
  ∧ (hasSubstring (ci_target curr) EMSCRIPTEN_ASM_CONST = true →
     ci_operands curr = Const (LitI32 a) :: rest →
     ∃ w' id sigs,
       visitCallImport w curr
       = Some (mkCallImport
                 (EMSCRIPTEN_ASM_CONST +:+ "_" +:+ asmConstSig (Sig.ofCall curr))
                 (Const (LitI32 (to_int32 (Z.of_N id))) :: rest) (ci_type curr),
               w')
       ∧ ids w' !! "" = Some id
       ∧ (ids w !! "" = None →
          id = to_address (to_int32 (Z.of_nat (size (ids w)))))
       ∧ (∀ id0, ids w !! "" = Some id0 → id = id0)
       ∧ sigsForCode w' !! "" = Some sigs
       ∧ asmConstSig (Sig.ofCall curr) ∈ sigs).
Proof.
  intros Hmiss.
  assert (codeForConstAddr w (LitI32 a) = Some "") as Hcode.
  { unfold codeForConstAddr. cbn [geti32 mbind option_bind]. by rewrite Hmiss. }
  split; [done|]. intros Hintr Hops.
  assert (observe w curr = Some ("", asmConstSig (Sig.ofCall curr))) as Hobs.
  { unfold observe, isIntrinsic. by rewrite Hintr, Hops, Hcode. }
  destruct (visitCallImport_intrinsic w curr _ _ Hobs)
    as (arg & rest' & Hops' & _ & _ & Hcase).
  rewrite Hops in Hops'. injection Hops' as <- <-.
  set (sig := asmConstSig (Sig.ofCall curr)) in *.
  assert (∀ mm, ∃ id sigs,
            rewritten w curr "" sig rest
            = mkCallImport (EMSCRIPTEN_ASM_CONST +:+ "_" +:+ sig)
                (Const (LitI32 (to_int32 (Z.of_N id))) :: rest) (ci_type curr)
            ∧ ids (recorded w mm "" sig) !! "" = Some id
            ∧ (ids w !! "" = None →
               id = to_address (to_int32 (Z.of_nat (size (ids w)))))
            ∧ (∀ id0, ids w !! "" = Some id0 → id = id0)
            ∧ sigsForCode (recorded w mm "" sig) !! "" = Some sigs
            ∧ sig ∈ sigs) as Hrec.
  { intros mm. unfold rewritten, recorded, idFor. cbn [ids sigsForCode].
    rewrite lookup_insert_eq.
    destruct (ids w !! "") as [id0|] eqn:Hid.
    - exists id0, ({[sig]} ∪ default ∅ (sigsForCode w !! "")).
      split_and!; try done; [congruence|].
      by apply elem_of_union_l, elem_of_singleton.
    - exists (to_address (to_int32 (Z.of_nat (size (ids w))))),
        ({[sig]} ∪ default ∅ (sigsForCode w !! "")).
      rewrite lookup_insert_eq, to_int32_to_address, to_int32_idemp.
      split_and!; try done.
      by apply elem_of_union_l, elem_of_singleton. }
  destruct (decide (sig ∈ allSigs w)).
  - destruct (Hrec (wasm w)) as (id & sigs & Hrw & ?).
    exists (recorded w (wasm w) "" sig), id, sigs. by rewrite Hcase, Hrw.
  - destruct Hcase as (t & added & _ & _ & Hcase).
    match type of Hcase with
    | _ = Some (_, recorded w ?mm _ _) =>
        destruct (Hrec mm) as (id & sigs & Hrw & ?);
        exists (recorded w mm "" sig), id, sigs
    end.
    by rewrite Hcase, Hrw.
Qed.

End Rewriter.

(** ** The metadata *)

(** Induction on expressions that reaches the operands. *)
Lemma Expression_nested_ind (P : Expression → Prop) :
  P Nop →
  (∀ value, P (Const value)) →
  (∀ index type, P (GetLocal index type)) →
  (∀ target operands type, Forall P operands → P (Call target operands type)) →
  (∀ target operands type,
     Forall P operands → P (CallImport target operands type)) →
  (∀ fullType target operands type,
     P target → Forall P operands →
     P (CallIndirect fullType target operands type)) →
  (∀ op nameOperand operands type,
     Forall P operands → P (Host op nameOperand operands type)) →
  ∀ e, P e.
Proof.
  intros HNop HConst HGet HCall HImport HIndirect HHost.
  fix IH 1. intros e.
  assert (∀ l : list Expression, Forall P l) as Hall.
  { induction l as [|x l IHl]; constructor; [apply IH|exact IHl]. }
  destruct e.
  - exact HNop.
  - apply HConst.
  - apply HGet.
  - apply HCall, Hall.
  - apply HImport, Hall.
  - apply HIndirect; [apply IH|apply Hall].
  - apply HHost, Hall.
Qed.

Section Metadata.
Context `{SharedConstants}.

Lemma walk_without_intrinsic (e : Expression) :
  ∀ w, hasIntrinsicCall e = false → walk w e = Some (e, w).
Proof.
  induction e as [| | |target operands type IH|target operands type IH
                  |fullType callee operands type IHt IH
                  |op nameOperand operands type IH]
    using Expression_nested_ind; intros w Hno; try done.
  all: cbn [hasIntrinsicCall] in Hno; cbn [walk].
  all: try apply orb_false_elim in Hno as [Hno1 Hno].
  all: match goal with
       | |- context [mbind _ (?walkList ?w0 ?ops)] =>
           assert (∀ w', walkList w' ops = Some (ops, w')) as ->
       end.
  all: try (clear w; induction operands as [|e operands IHo]; intros w;
            [done|];
            cbn [existsb] in Hno; apply orb_false_elim in Hno as [He Hno];
            apply Forall_cons in IH as [IHe IH];
            rewrite (IHe w He); cbn [mbind option_bind];
            by rewrite (IHo IH Hno w)).
  - done.
  - cbn [mbind option_bind]. unfold visitCallImport. cbn [ci_target].
    by rewrite Hno1.
  - cbn [mbind option_bind]. by rewrite (IHt w Hno1).
  - done.
Qed.

Lemma walkFunction_without_intrinsic (w : AsmConstWalker) (i : nat) :
  noIntrinsicCalls (wasm w) → i < length (functions (wasm w)) →
  walkFunction w i = Some w.
Proof.
  intros Hno Hi. unfold walkFunction.
  destruct (lookup_lt_is_Some_2 _ _ Hi) as [func Hfunc]. rewrite Hfunc.
  cbn [mbind option_bind].
  destruct (fn_body func) as [body|] eqn:Hbody; [|done].
  rewrite walk_without_intrinsic; last first.
  { eapply (proj1 (Forall_forall _ _) Hno); [|done].
    by eapply list_elem_of_lookup_2. }
  cbn [mbind option_bind]. f_equal.
  replace (setBody func body) with func
    by (destruct func; cbn in Hbody; by subst).
  rewrite list_insert_id by done.
  destruct w as [[] ? ? ? ?]. done.
Qed.

Lemma walkModule_without_intrinsic (w : AsmConstWalker) :
  noIntrinsicCalls (wasm w) → walkModule w = Some w.
Proof.
  intros Hno. unfold walkModule.
  assert (∀ indices,
            Forall (λ i, i < length (functions (wasm w))) indices →
            walkFunctions w indices = Some w) as Hloop.
  { induction indices as [|i indices IH]; [done|].
    intros [Hi Hrest]%Forall_cons. cbn [walkFunctions].
    rewrite walkFunction_without_intrinsic by done. by apply IH. }
  apply Hloop, Forall_forall. intros i Hi%elem_of_seq. lia.
Qed.

(** C4 (as amended). For a module without intrinsic call sites, an empty
    initializer list and a static bump of 1024, the emitter appends to its
    sink exactly the text
    [;; METADATA: { "asmConsts": {},"staticBump": 1024, "initializers": [] }]
    and a newline (with no blank between the comma that closes the
    asmConsts entry and the staticBump key), and leaves the module as it
    was. *)
Theorem generateEmscriptenMetadata_empty (o : string) (m : Module)
    (segs : gmap N N) :
  noIntrinsicCalls m →
  generateEmscriptenMetadata o m segs 1024 [] = Some (o +:+ emptyMetadata1024, m).
Proof.
  intros Hno. unfold generateEmscriptenMetadata.
  rewrite (walkModule_without_intrinsic (newWalker m segs)) by done.
  cbn [mbind option_bind newWalker sigsForCode wasm].
  rewrite dom_empty_L, elements_empty. unfold ascending.
  change (merge_sort String.le []) with (@nil string).
  cbn [asmConsts_loop initializers_loop]. do 2 f_equal.
  rewrite !app_assoc_s. f_equal.
Qed.

End Metadata.

(** ** The traversal hands the call sites to the visitor one by one *)

Section Traversal.
Context `{SharedConstants}.

Lemma ensureFunctionType_setFunctions (sig : string) (m : Module)
    (fs : list Function) :
  ensureFunctionType sig (setFunctions m fs)
  = (λ '(t, m'), (t, setFunctions m' fs)) <$> ensureFunctionType sig m.
Proof.
  unfold ensureFunctionType. cbn [setFunctions functionTypes].
  destruct (List.find _ _); [done|].
  destruct sig as [|c sig]; [done|].
  destruct (Sig.sigToWasmType c); [|done]. cbn.
  by destruct (Sig.toTypes sig).
Qed.

Lemma visitCallImport_withFunctions (fs : list Function) (w : AsmConstWalker)
    (curr : CallImportNode) :
  visitCallImport (withFunctions fs w) curr
  = (λ '(c, w'), (c, withFunctions fs w')) <$> visitCallImport w curr.
Proof.
  unfold visitCallImport.
  destruct (hasSubstring _ _); [|done].
  destruct (ci_operands curr) as [|[| arg | | | | |] rest]; try done.
  change (codeForConstAddr (withFunctions fs w) arg)
    with (codeForConstAddr w arg).
  destruct (codeForConstAddr w arg) as [code|]; [|done].
  cbn [mbind option_bind].
  rewrite !idLiteralForCode_spec. cbv zeta beta iota.
  unfold recordSig.
  cbn [allSigs wasm segmentsByAddress sigsForCode ids withFunctions setWasm].
  destruct (decide (_ ∉ allSigs w)); [|done].
  unfold addImport.
  cbn [allSigs wasm segmentsByAddress sigsForCode ids withFunctions setWasm].
  rewrite ensureFunctionType_setFunctions.
  by destruct (ensureFunctionType _ (wasm w)) as [[t m']|].
Qed.

Lemma visitAll_withFunctions (fs : list Function) (sites : list CallImportNode) :
  ∀ w, visitAll (withFunctions fs w) sites
       = (λ '(s, w'), (s, withFunctions fs w')) <$> visitAll w sites.
Proof.
  induction sites as [|curr sites IH]; intros w; [done|].
  cbn [visitAll]. rewrite visitCallImport_withFunctions.
  destruct (visitCallImport w curr) as [[curr' w1]|]; [|done].
  cbn. rewrite IH. by destruct (visitAll w1 sites) as [[rest w2]|].
Qed.

Lemma visitAll_app (sites1 sites2 : list CallImportNode) :
  ∀ w, visitAll w (sites1 ++ sites2)
       = '(r1, w1) ← visitAll w sites1;
         '(r2, w2) ← visitAll w1 sites2;
         Some (r1 ++ r2, w2).
Proof.
  induction sites1 as [|curr sites1 IH]; intros w.
  - cbn. by destruct (visitAll w sites2) as [[r2 w2]|].
  - cbn [app visitAll].
    destruct (visitCallImport w curr) as [[curr' w1]|]; [|done].
    cbn [mbind option_bind]. rewrite IH.
    destruct (visitAll w1 sites1) as [[r1 w2]|]; [|done].
    cbn [mbind option_bind].
    by destruct (visitAll w2 sites2) as [[r2 w3]|].
Qed.

Lemma visits_refl (w : AsmConstWalker) : visits w w.
Proof. by exists [], []. Qed.

Lemma visits_trans (w1 w2 w3 : AsmConstWalker) :
  visits w1 w2 → visits w2 w3 → visits w1 w3.
Proof.
  intros (s1 & r1 & H1) (s2 & r2 & H2). exists (s1 ++ s2), (r1 ++ r2).
  rewrite visitAll_app, H1. cbn. by rewrite H2.
Qed.

Lemma visits_one (w w' : AsmConstWalker) (curr curr' : CallImportNode) :
  visitCallImport w curr = Some (curr', w') → visits w w'.
Proof. intros Hv. exists [curr], [curr']. cbn. by rewrite Hv. Qed.

Lemma visits_withFunctions (fs : list Function) (w w' : AsmConstWalker) :
  visits w w' → visits (withFunctions fs w) (withFunctions fs w').
Proof.
  intros (s & r & Hv). exists s, r.
  by rewrite visitAll_withFunctions, Hv.
Qed.

(** The walk of one expression changes the walker only through visits. *)
Lemma walk_visits (e : Expression) :
  ∀ w e' w', walk w e = Some (e', w') → visits w w'.
Proof.
  induction e as [| | |target operands type IH|target operands type IH
                  |fullType callee operands type IHt IH
                  |op nameOperand operands type IH]
    using Expression_nested_ind; intros w e' w' Hw; cbn [walk] in Hw;
    try (injection Hw as <- <-; apply visits_refl).
  all: match type of Hw with
       | context [mbind _ (?walkList ?w0 ?ops)] =>
           assert (∀ w ops' w1, walkList w ops = Some (ops', w1) → visits w w1)
             as Hlist;
           [clear Hw;
            induction ops as [|e ops IHo]; intros w1 ops' w2 Hl;
            [injection Hl as <- <-; apply visits_refl|];
            apply Forall_cons in IH as [IHe IH];
            destruct (walk w1 e) as [[e1 w3]|] eqn:He; [|done];
            cbn [mbind option_bind] in Hl;
            match type of Hl with
            | context [mbind _ (?walkRest w3 ops)] =>
                destruct (walkRest w3 ops) as [[ops1 w4]|] eqn:Hrest; [|done]
            end;
            injection Hl as <- <-;
            exact (visits_trans _ _ _ (IHe _ _ _ He) (IHo IH _ _ _ Hrest))
           |destruct (walkList w0 ops) as [[ops' w1]|] eqn:Hops; [|done];
            apply Hlist in Hops; cbn [mbind option_bind] in Hw]
       end.
  - by injection Hw as <- <-.
  - destruct (visitCallImport w1 _) as [[curr w2]|] eqn:Hv; [|done].
    injection Hw as <- <-.
    exact (visits_trans _ _ _ Hops (visits_one _ _ _ _ Hv)).
  - destruct (walk w1 callee) as [[callee' w2]|] eqn:Hc; [|done].
    injection Hw as <- <-.
    exact (visits_trans _ _ _ Hops (IHt _ _ _ Hc)).
  - by injection Hw as <- <-.
Qed.

(** The walk of a module leaves the registries as some sequence of visits
    leaves them: a walk is a sequence of visits, and the rewritten bodies
    are written back. *)
Lemma walkModule_visits (w w' : AsmConstWalker) :
  walkModule w = Some w' → ∃ w'', visits w w'' ∧ sameRegistries w'' w'.
Proof.
  unfold walkModule. generalize (seq 0 (length (functions (wasm w)))).
  intros indices. revert w.
  induction indices as [|i indices IH]; intros w Hw.
  - injection Hw as <-. exists w. split; [apply visits_refl|].
    by destruct w as [[] ? ? ? ?].
  - cbn [walkFunctions] in Hw.
    destruct (walkFunction w i) as [w1|] eqn:Hf; [|done].
    cbn [mbind option_bind] in Hw.
    destruct (IH w1 Hw) as (w2 & Hvis & Hsame).
    assert (∃ w1', visits w w1' ∧ sameRegistries w1' w1) as (w1' & Hv1 & Hs1).
    { unfold walkFunction in Hf.
      destruct (functions (wasm w) !! i) as [func|]; [|done].
      cbn [mbind option_bind] in Hf.
      destruct (fn_body func) as [body|].
      - destruct (walk w body) as [[body' w3]|] eqn:Hb; [|done].
        injection Hf as <-. exists w3.
        split; [by eapply walk_visits|]. by destruct w3 as [[] ? ? ? ?].
      - injection Hf as <-. exists w. split; [apply visits_refl|].
        by destruct w as [[] ? ? ? ?]. }
    rewrite Hs1 in Hvis.
    destruct Hvis as (s & r & Hvis).
    rewrite visitAll_withFunctions in Hvis.
    destruct (visitAll w1' s) as [[r' w2']|] eqn:Hv2; [|done].
    injection Hvis as <- <-.
    exists w2'. split.
    + eapply visits_trans; [exact Hv1|]. by exists s, r'.
    + rewrite Hsame. unfold sameRegistries.
      by destruct w2' as [[] ? ? ? ?].
Qed.

(** So the registries that the emitter prints are those of a sequence of
    visits from the fresh walker. *)
Corollary walkModule_registries (m : Module) (segs : gmap N N)
    (w' : AsmConstWalker) :
  walkModule (newWalker m segs) = Some w' →
  ∃ sites sites' w'',
    visitAll (newWalker m segs) sites = Some (sites', w'')
    ∧ ids w' = ids w''
    ∧ sigsForCode w' = sigsForCode w''
    ∧ allSigs w' = allSigs w''
    ∧ imports (wasm w') = imports (wasm w'')
    ∧ functionTypes (wasm w') = functionTypes (wasm w'').
Proof.
  intros Hw. destruct (walkModule_visits _ _ Hw) as (w'' & Hvis & Hsame).
  destruct Hvis as (sites & sites' & Hvis).
  exists sites, sites', w''. split; [done|]. by rewrite Hsame.
Qed.

End Traversal.

(** * Further properties of the passes *)

(** ** Removing the intrinsic imports *)

Lemma imports_removeImports (m : Module) (names : list Name) :
  imports (foldl Wasm.removeImport m names)
  = foldl (λ l n, Wasm.remove_first n l) (imports m) names.
Proof.
  revert m. induction names as [|n names IH]; intros m; [done|].
  cbn [foldl]. by rewrite IH.
Qed.

Lemma remove_first_fresh (name : Name) (pre l : list Import) :
  Forall (λ i, im_name i ≠ name) pre →
  Wasm.remove_first name (pre ++ l) = pre ++ Wasm.remove_first name l.
Proof.
  induction 1 as [|i pre Hi _ IH]; [done|].
  cbn. rewrite decide_False by done. by rewrite IH.
Qed.

(** Removing, one name at a time, the names of the imports that [p]
    selects removes exactly the selected imports: an import in front of a
    selected one cannot bear its name, since it would be selected too. *)
Lemma remove_selected (p : Name → bool) (l : list Import) :
  ∀ pre,
    Forall (λ i, p (im_name i) = false) pre →
    foldl (λ l n, Wasm.remove_first n l) (pre ++ l)
      (im_name <$> List.filter (λ i, p (im_name i)) l)
    = pre ++ filter (λ i, p (im_name i) = false) l.
Proof.
  induction l as [|i l IH]; intros pre Hpre; [done|].
  cbn [List.filter]. destruct (p (im_name i)) eqn:Hp.
  - rewrite fmap_cons. cbn [foldl].
    rewrite remove_first_fresh; last first.
    { eapply Forall_impl; [exact Hpre|]. intros j Hj Heq.
      cbn in Hj. congruence. }
    cbn [Wasm.remove_first]. rewrite decide_True by done.
    rewrite IH by done. by rewrite filter_cons_False by congruence.
  - rewrite (cons_middle i pre l), app_assoc.
    rewrite IH by (apply Forall_app; split; [done|by constructor]).
    rewrite filter_cons_True by done. by rewrite <- app_assoc.
Qed.

Lemma imports_removeImportsWithSubstring (m : Module) (name : Name) :
  imports (removeImportsWithSubstring m name)
  = filter (λ i, hasSubstring (im_name i) name = false) (imports m).
Proof.
  unfold removeImportsWithSubstring. rewrite imports_removeImports.
  apply (remove_selected (λ n, hasSubstring n name) (imports m) []).
  constructor.
Qed.

(** X1. [removeImportsWithSubstring] removes exactly the imports whose
    name contains the given name: the other imports stay, in their order,
    also when several imports bear the same name, and nothing else in the
    module changes. *)
Theorem removeImportsWithSubstring_keeps_the_others (m : Module)
    (name : Name) :
  imports (removeImportsWithSubstring m name)
  = filter (λ i, hasSubstring (im_name i) name = false) (imports m)
  ∧ functions (removeImportsWithSubstring m name) = functions m
  ∧ functionTypes (removeImportsWithSubstring m name) = functionTypes m
  ∧ exports (removeImportsWithSubstring m name) = exports m
  ∧ segments (removeImportsWithSubstring m name) = segments m.
Proof.
  split; [apply imports_removeImportsWithSubstring|].
  apply removeImport_frame.
Qed.

(** ** Every run of [makeDynCallThunks] that returns *)

Lemma prefix_app_s (a b : string) : String.prefix a (a +:+ b) = true.
Proof.
  induction a as [|x a IH]; [by destruct b|].
  rewrite app_cons_s, StdStringFacts.prefix_cons_same. exact IH.
Qed.

Lemma dynCall_name_inj (sig1 sig2 : string) :
  "dynCall_" +:+ sig1 = "dynCall_" +:+ sig2 → sig1 = sig2.
Proof. intros Heq. by simplify_eq. Qed.

Lemma makeThunk_signature (sig : string) (t : FunctionType) :
  fn_name (makeThunk sig t) = "dynCall_" +:+ sig
  ∧ fn_result (makeThunk sig t) = ft_result t
  ∧ fn_params (makeThunk sig t) = i32 :: ft_params t.
Proof.
  unfold makeThunk, Builder.makeFunction, setBody.
  cbn -[String.app imap to_string]. split_and!; try done. f_equal.
  rewrite fmap_imap, (imap_ext _ (const id)) by done.
  by rewrite imap_const, list_fmap_id.
Qed.

Lemma find_app_none {A} (P : A → bool) (l l' : list A) :
  List.find P l = None → List.find P (l ++ l') = List.find P l'.
Proof.
  induction l as [|y l IH]; [done|]. cbn. by destruct (P y).
Qed.

(** One iteration that returns: the table entry names a function, and a
    thunk is made exactly when its signature is new and holds no 64-bit
    integer. *)
Lemma thunkStep_inv (st st' : ThunkState) (name : Name) :
  thunkStep st name = Some st' →
  ∃ func t added new,
    Wasm.getFunction (ts_wasm st) name = Some func
    ∧ ts_wasm st'
      = mkModule (functionTypes (ts_wasm st) ++ added) (imports (ts_wasm st))
          (exports (ts_wasm st)) (functions (ts_wasm st) ++ new)
          (segments (ts_wasm st))
    ∧ ts_generatedFunctions st' = ts_generatedFunctions st ++ new
    ∧ (new = [] ∧ ts_sigs st' = ts_sigs st
       ∨ (¬ usesI64 (ft_result t) (ft_params t))
         ∧ (Sig.ofFunction func ∉ ts_sigs st)
         ∧ new = [makeThunk (Sig.ofFunction func) t]
         ∧ ts_sigs st' = {[Sig.ofFunction func]} ∪ ts_sigs st).
Proof.
  intros Hstep.
  destruct (Wasm.getFunction (ts_wasm st) name) as [func|] eqn:Hget;
    [|by unfold thunkStep in Hstep; rewrite Hget in Hstep].
  destruct (thunkStep_spec st name func Hget)
    as (t & added & new & sigs' & Hstep' & Hr & Hp & _ & Hcase).
  rewrite Hstep in Hstep'. injection Hstep' as ->.
  exists func, t, added, new. split_and!; try done.
  destruct (decide _) as [Hskip|Hkeep]; [left; by destruct Hcase|right].
  destruct Hcase as [-> ->]. rewrite Hr, Hp. split_and!; try done; tauto.
Qed.

(** What any run of the loop that returns has done: [news] lists the
    signatures that got a thunk, with the function type of each. *)
Lemma thunkLoop_inv (table : list Name) :
  ∀ st st',
    thunkLoop st table = Some st' →
    ∃ (news : list (string * FunctionType)) (added : list FunctionType),
      ts_generatedFunctions st'
      = ts_generatedFunctions st ++ ((λ n, makeThunk n.1 n.2) <$> news)
      ∧ functions (ts_wasm st')
        = functions (ts_wasm st) ++ ((λ n, makeThunk n.1 n.2) <$> news)
      ∧ functionTypes (ts_wasm st') = functionTypes (ts_wasm st) ++ added
      ∧ imports (ts_wasm st') = imports (ts_wasm st)
      ∧ exports (ts_wasm st') = exports (ts_wasm st)
      ∧ segments (ts_wasm st') = segments (ts_wasm st)
      ∧ NoDup news.*1
      ∧ Forall (λ n, (n.1 ∉ ts_sigs st)
                     ∧ (¬ usesI64 (ft_result n.2) (ft_params n.2))) news
      ∧ ts_sigs st' = list_to_set news.*1 ∪ ts_sigs st
      ∧ Forall (λ name, is_Some (Wasm.getFunction (ts_wasm st') name)) table.
Proof.
  induction table as [|name table IH]; intros st st' Hloop.
  - injection Hloop as <-. exists [], []. rewrite !app_nil_r.
    split_and!; try done; try (by constructor).
    cbn. by rewrite union_empty_l_L.
  - cbn [thunkLoop] in Hloop.
    destruct (thunkStep st name) as [st1|] eqn:Hstep; [|done].
    cbn [mbind option_bind] in Hloop.
    destruct (thunkStep_inv _ _ _ Hstep)
      as (func & t & added1 & new1 & Hget & Hwasm1 & Hgen1 & Hcase).
    destruct (IH st1 st' Hloop)
      as (news & added & Hgen & Hfun & Hty & Himp & Hexp & Hseg & Hnd & Hall
          & Hsigs & Hres).
    rewrite Hwasm1 in Hfun, Hty, Himp, Hexp, Hseg.
    cbn in Hfun, Hty, Himp, Hexp, Hseg.
    assert (is_Some (Wasm.getFunction (ts_wasm st') name)) as Hname.
    { exists func. eapply (getFunction_addFunctions (ts_wasm st)); [|done].
      rewrite Hfun, <- app_assoc. done. }
    destruct Hcase as [[-> Hs1]|(Hno & Hfresh & -> & Hs1)].
    + exists news, (added1 ++ added).
      rewrite Hgen, Hgen1, Hfun, Hty, !app_nil_r, Hsigs, Hs1, <- !app_assoc.
      split_and!; try done.
      * eapply Forall_impl; [exact Hall|]. intros n [? ?]. by rewrite <- Hs1.
      * by constructor.
    + exists ((Sig.ofFunction func, t) :: news), (added1 ++ added).
      rewrite Hgen, Hgen1, Hfun, Hty, Hsigs, Hs1, <- !app_assoc.
      assert (Sig.ofFunction func ∉ news.*1) as Hnotin.
      { intros Hin. apply list_elem_of_fmap in Hin as (n & Hn1 & Hn).
        apply (proj1 (Forall_forall _ _) Hall) in Hn as [Hn _].
        apply Hn. rewrite Hs1, <- Hn1.
        by apply elem_of_union_l, elem_of_singleton. }
      split_and!; try done.
      * rewrite fmap_cons. by constructor.
      * constructor; [done|].
        eapply Forall_impl; [exact Hall|]. intros n [Hn ?]. split; [|done].
        intros Hin. apply Hn. rewrite Hs1. by apply elem_of_union_r.
      * rewrite fmap_cons. cbn [list_to_set fst].
        by rewrite (assoc_L (∪)), (comm_L (∪) _ {[_]}).
      * by constructor.
Qed.

Lemma makeDynCallThunks_inv (wasm0 : Module) (table : list Name)
    (generated : list Function) (wasm' : Module) :
  makeDynCallThunks wasm0 table = Some (generated, wasm') →
  ∃ (news : list (string * FunctionType)) (added : list FunctionType),
    generated = (λ n, makeThunk n.1 n.2) <$> news
    ∧ functions wasm' = functions wasm0 ++ generated
    ∧ functionTypes wasm' = functionTypes wasm0 ++ added
    ∧ imports wasm'
      = filter (λ i, hasSubstring (im_name i) EMSCRIPTEN_ASM_CONST = false)
          (imports wasm0)
    ∧ exports wasm' = exports wasm0
    ∧ segments wasm' = segments wasm0
    ∧ NoDup news.*1
    ∧ Forall (λ n, ¬ usesI64 (ft_result n.2) (ft_params n.2)) news
    ∧ Forall (λ name, is_Some (Wasm.getFunction wasm' name)) table.
Proof.
  unfold makeDynCallThunks. intros Hrun.
  destruct (thunkLoop _ table) as [st'|] eqn:Hloop; [|done].
  injection Hrun as <- <-.
  destruct (thunkLoop_inv _ _ _ Hloop)
    as (news & added & Hgen & Hfun & Hty & Himp & Hexp & Hseg & Hnd & Hall
        & _ & Hres).
  pose proof (imports_removeImportsWithSubstring wasm0 EMSCRIPTEN_ASM_CONST)
    as Hi0.
  destruct (removeImport_frame wasm0
              (im_name <$> List.filter
                 (λ i, hasSubstring (im_name i) EMSCRIPTEN_ASM_CONST)
                 (imports wasm0))) as (Hf0 & Ht0 & He0 & Hs0).
  fold (removeImportsWithSubstring wasm0 EMSCRIPTEN_ASM_CONST)
    in Hf0, Ht0, He0, Hs0.
  cbn in Hgen, Hfun, Hty, Himp, Hexp, Hseg.
  exists news, added.
  rewrite Hgen, Hfun, Hty, Himp, Hexp, Hseg, Hi0, Hf0, Ht0, He0, Hs0.
  split_and!; try done.
  eapply Forall_impl; [exact Hall|]. by intros n [_ ?].
Qed.

(** X2. A run of [makeDynCallThunks] that returns changes the module in
    three ways only: the imports whose name contains the intrinsic name
    are gone (the others stay, in order), the generated thunks are
    appended to the functions, and function types may be appended; the
    exports and the memory are as before. Every table entry names a
    function of the module returned. *)
Theorem makeDynCallThunks_frame (wasm0 : Module) (table : list Name)
    (generated : list Function) (wasm' : Module) :
  makeDynCallThunks wasm0 table = Some (generated, wasm') →
  imports wasm'
  = filter (λ i, hasSubstring (im_name i) EMSCRIPTEN_ASM_CONST = false)
      (imports wasm0)
  ∧ functions wasm' = functions wasm0 ++ generated
  ∧ functionTypes wasm0 `prefix_of` functionTypes wasm'
  ∧ exports wasm' = exports wasm0
  ∧ segments wasm' = segments wasm0
  ∧ Forall (λ name, is_Some (Wasm.getFunction wasm' name)) table.
Proof.
  intros Hrun.
  destruct (makeDynCallThunks_inv _ _ _ _ Hrun)
    as (news & added & _ & Hfun & Hty & Himp & Hexp & Hseg & _ & _ & Hres).
  split_and!; try done. rewrite Hty. by apply prefix_app_r.
Qed.

(** X3. The thunks of one run have pairwise distinct names, each starting
    with [dynCall_], whatever the table holds. *)
Theorem makeDynCallThunks_names_distinct (wasm0 : Module) (table : list Name)
    (generated : list Function) (wasm' : Module) :
  makeDynCallThunks wasm0 table = Some (generated, wasm') →
  NoDup (fn_name <$> generated)
  ∧ Forall (λ f, String.prefix "dynCall_" (fn_name f) = true) generated.
Proof.
  intros Hrun.
  destruct (makeDynCallThunks_inv _ _ _ _ Hrun)
    as (news & added & -> & _ & _ & _ & _ & _ & Hnd & _ & _).
  split.
  - rewrite <- list_fmap_compose.
    rewrite (list_fmap_ext _ ((λ sig, "dynCall_" +:+ sig) ∘ fst) news)
      by (intros ? [sig t] _; apply makeThunk_signature).
    rewrite list_fmap_compose.
    apply NoDup_fmap_2_strong; [|exact Hnd].
    intros sig1 sig2 _ _. apply dynCall_name_inj.
  - apply Forall_fmap, Forall_forall. intros [sig t] _. cbn.
    apply prefix_app_s.
Qed.

(** X26. [hasI64ResultOrParam] answers true exactly for the function
    types whose result is the 64-bit integer type or that have a parameter
    of that type, at whatever position. *)
Theorem hasI64ResultOrParam_iff (ft : FunctionType) :
  hasI64ResultOrParam ft = true ↔ ft_result ft = i64 ∨ i64 ∈ ft_params ft.
Proof. apply hasI64ResultOrParam_spec. Qed.

(** X4. No generated thunk has a 64-bit integer parameter or result: what
    [hasI64ResultOrParam] lets through holds no [i64], and the thunk adds
    an [i32] parameter only. *)
Theorem makeDynCallThunks_never_i64 (wasm0 : Module) (table : list Name)
    (generated : list Function) (wasm' : Module) :
  makeDynCallThunks wasm0 table = Some (generated, wasm') →
  Forall (λ f, fn_result f ≠ i64 ∧ i64 ∉ fn_params f) generated.
Proof.
  intros Hrun.
  destruct (makeDynCallThunks_inv _ _ _ _ Hrun)
    as (news & added & -> & _ & _ & _ & _ & _ & _ & Hall & _).
  apply Forall_fmap. eapply Forall_impl; [exact Hall|].
  intros [sig t] Hno. cbn [fst snd] in Hno.
  change (fn_result (makeThunk sig t) ≠ i64
          ∧ i64 ∉ fn_params (makeThunk sig t)).
  destruct (makeThunk_signature sig t) as (_ & -> & ->).
  unfold usesI64 in Hno. split; [tauto|].
  rewrite elem_of_cons. intros [?|?]; [done|tauto].
Qed.

(** X5. A table entry that names no function of the module makes
    [makeDynCallThunks] fail, wherever it stands in the table, unless it
    is the name of a thunk (a name starting with [dynCall_]), which an
    earlier entry may have created. *)
Theorem makeDynCallThunks_missing_function (wasm0 : Module)
    (table : list Name) (name : Name) :
  name ∈ table →
  Wasm.getFunction wasm0 name = None →
  String.prefix "dynCall_" name = false →
  makeDynCallThunks wasm0 table = None.
Proof.
  intros Hin Hmiss Hname.
  destruct (makeDynCallThunks wasm0 table) as [[generated wasm']|] eqn:Hrun;
    [exfalso|done].
  destruct (makeDynCallThunks_inv _ _ _ _ Hrun)
    as (news & added & -> & Hfun & _ & _ & _ & _ & _ & _ & Hres).
  apply (proj1 (Forall_forall _ _) Hres) in Hin as [f Hf].
  unfold Wasm.getFunction in Hf, Hmiss. rewrite Hfun in Hf.
  rewrite find_app_none in Hf by done.
  apply List.find_some in Hf as [Hf Hn]. apply bool_decide_eq_true in Hn.
  apply list_elem_of_In, list_elem_of_fmap in Hf as ([sig t] & -> & _).
  destruct (makeThunk_signature sig t) as (Hnm & _). cbn [fst snd] in Hn.
  rewrite Hnm in Hn. rewrite <- Hn, prefix_app_s in Hname. done.
Qed.

(** ** More on string escaping *)

(** *** Cut points *)

Lemma lastc_double_newlines (s : string) :
  ∀ p, lastc p (double_newlines s) = lastc p s.
Proof.
  remember (String.length s) as n eqn:Hn.
  revert s Hn. induction (lt_wf n) as [n _ IH]; intros s -> p.
  destruct s as [|c s]; [done|].
  destruct (String.prefix esc_n (String c s)) eqn:Hp.
  - apply prefix_esc_n_true in Hp as [s'' [= -> ->]].
    rewrite double_newlines_cons_bs_n. unfold esc_esc_n.
    rewrite !app_cons_s, app_nil_l_s. cbn [lastc].
    apply (IH (String.length s'')); [cbn; lia|done].
  - rewrite double_newlines_cons_other by done. cbn [lastc].
    apply (IH (String.length s)); [cbn; lia|done].
Qed.

Lemma double_newlines_app_l (s t : string) :
  ∀ p, lastc p s ≠ Some backslash →
       double_newlines (s +:+ t) = double_newlines s +:+ double_newlines t.
Proof.
  remember (String.length s) as n eqn:Hn.
  revert s Hn. induction (lt_wf n) as [n _ IH]; intros s -> p Hlast.
  destruct s as [|c s]; [done|].
  destruct (String.prefix esc_n (String c s)) eqn:Hp.
  - apply prefix_esc_n_true in Hp as [s'' [= -> ->]].
    rewrite !app_cons_s, !double_newlines_cons_bs_n.
    rewrite (IH (String.length s'') ltac:(cbn; lia) s'' eq_refl (Some "n"%char))
      by done.
    by rewrite app_assoc_s.
  - rewrite app_cons_s, !double_newlines_cons_other; [|done|].
    + rewrite app_cons_s. f_equal.
      by apply (IH (String.length s) ltac:(cbn; lia) s eq_refl (Some c)).
    + destruct (String.prefix esc_n (String c (s +:+ t))) eqn:Hp'; [|done].
      apply prefix_esc_n_true in Hp' as [s'' [= -> Hs]].
      destruct s as [|y s]; [by destruct Hlast|].
      rewrite app_cons_s in Hs. injection Hs as -> _.
      assert (String.prefix esc_n (String backslash (String "n" s)) = true)
        as Ht by (apply prefix_esc_n_true; eauto).
      congruence.
Qed.

Lemma escaped_app (s t : string) :
  lastc None s ≠ Some backslash →
  escaped (s +:+ t) = escaped s +:+ escaped t.
Proof.
  intros Hlast. unfold escaped.
  rewrite (double_newlines_app_l s t None) by done.
  rewrite quote_quotes_app, lastc_double_newlines.
  by rewrite (quote_quotes_prev (lastc None s) None).
Qed.

(** X6. [escape] distributes over a text at every cut that does not follow
    a backslash: the two parts can be escaped on their own. *)
Theorem escape_distributes (s t : string) :
  lastc None s ≠ Some backslash →
  ∃ es et,
    escape s = Some es ∧ escape t = Some et
    ∧ escape (s +:+ t) = Some (es +:+ et).
Proof.
  intros Hlast. exists (escaped s), (escaped t).
  by rewrite !escape_total, escaped_app.
Qed.

Lemma escaped_around_esc_n (s t : string) :
  escaped (s +:+ esc_n +:+ t) = escaped s +:+ esc_esc_n +:+ escaped t.
Proof.
  unfold escaped.
  rewrite double_newlines_app by done.
  change (esc_n +:+ t) with (String backslash (String "n" t)).
  rewrite double_newlines_cons_bs_n, quote_quotes_app. f_equal.
  unfold esc_esc_n. rewrite !app_cons_s, app_nil_l_s.
  cbn [quote_quotes]. rewrite !(decide_False (P := _ = dquote)) by done.
  rewrite !app_cons_s, !app_nil_l_s.
  by rewrite (quote_quotes_prev (Some "n"%char) None).
Qed.

Lemma escaped_around_quote (s t : string) :
  escaped (s +:+ String dquote t)
  = escaped s
    +:+ (if decide (lastc None s = Some backslash)
         then esc_esc_quote else esc_quote)
    +:+ escaped t.
Proof.
  unfold escaped.
  rewrite double_newlines_app by done.
  rewrite (double_newlines_cons_other dquote); last first.
  { unfold esc_n. by rewrite StdStringFacts.prefix_cons_diff. }
  rewrite quote_quotes_app, lastc_double_newlines. f_equal.
  cbn [quote_quotes]. rewrite (decide_True (P := dquote = dquote)) by done.
  by rewrite (quote_quotes_prev (Some dquote) None).
Qed.

(** X7. What [escape] does to each of the two texts it looks for, wherever
    they stand: the pair backslash-n gets one more backslash; a double
    quote gets one backslash, or two when the character in front of it is
    a backslash. The text on either side is escaped on its own. *)
Theorem escape_around_newline_and_quote (s t : string) :
  ∃ es et,
    escape s = Some es ∧ escape t = Some et
    ∧ escape (s +:+ esc_n +:+ t) = Some (es +:+ esc_esc_n +:+ et)
    ∧ escape (s +:+ String dquote t)
      = Some (es
              +:+ (if decide (lastc None s = Some backslash)
                   then esc_esc_quote else esc_quote)
              +:+ et).
Proof.
  exists (escaped s), (escaped t).
  by rewrite !escape_total, escaped_around_esc_n, escaped_around_quote.
Qed.

(** *** Lengths and fixed points *)




(** *** The quotes of the output *)

Lemma quote_quotes_guarded (s : string) :
  ∀ p i,
    String.get i (quote_quotes p s) = Some dquote →
    ∃ j, i = S j ∧ String.get j (quote_quotes p s) = Some backslash.
Proof.
  induction s as [|c s IH]; intros p i Hi; [by destruct i|].
  cbn [quote_quotes] in *.
  destruct (decide (c = dquote)) as [->|Hc].
  - destruct (decide (p = Some backslash)).
    + unfold esc_esc_quote in *. rewrite !app_cons_s, app_nil_l_s in *.
      destruct i as [|[|[|i]]]; try done.
      * by exists 1.
      * cbn [String.get] in Hi. destruct (IH _ _ Hi) as (j & -> & Hj).
        by exists (S (S (S j))).
    + unfold esc_quote in *. rewrite !app_cons_s, app_nil_l_s in *.
      destruct i as [|[|i]]; try done.
      * by exists 0.
      * cbn [String.get] in Hi. destruct (IH _ _ Hi) as (j & -> & Hj).
        by exists (S (S j)).
  - rewrite app_cons_s, app_nil_l_s in *.
    destruct i as [|i]; [cbn in Hi; congruence|].
    cbn [String.get] in Hi. destruct (IH _ _ Hi) as (j & -> & Hj).
    by exists (S j).
Qed.

(** X9. In the text that [escape] returns no double quote stands at the
    start, and every double quote has a backslash right in front of it. *)
Theorem escape_guards_every_quote (s out : string) (i : nat) :
  escape s = Some out →
  String.get i out = Some dquote →
  ∃ j, i = S j ∧ String.get j out = Some backslash.
Proof.
  rewrite escape_total. intros [= <-]. apply quote_quotes_guarded.
Qed.

(** *** [escape] loses nothing *)

Lemma double_newlines_head (s : string) (c : ascii) (r : string) :
  double_newlines s = String c r → ∃ s', s = String c s'.
Proof.
  destruct s as [|x s]; [done|].
  destruct (String.prefix esc_n (String x s)) eqn:Hp.
  - apply prefix_esc_n_true in Hp as [s'' [= -> ->]].
    rewrite double_newlines_cons_bs_n. intros [= <- _]. eauto.
  - rewrite double_newlines_cons_other by done. intros [= <- _]. eauto.
Qed.

Lemma double_newlines_inj (s1 : string) :
  ∀ s2, double_newlines s1 = double_newlines s2 → s1 = s2.
Proof.
  remember (String.length s1) as n eqn:Hn.
  revert s1 Hn. induction (lt_wf n) as [n _ IH]; intros s1 -> s2 Heq.
  assert (∀ a b : string,
            String.prefix esc_n a = true → String.prefix esc_n b = false →
            double_newlines a ≠ double_newlines b) as Hmixed.
  { intros a b Ha Hb Hab.
    apply prefix_esc_n_true in Ha as [a'' ->].
    rewrite double_newlines_cons_bs_n in Hab.
    destruct b as [|y b]; [done|].
    rewrite double_newlines_cons_other in Hab by done.
    unfold esc_esc_n in Hab. rewrite !app_cons_s, app_nil_l_s in Hab.
    injection Hab as <- Hab.
    destruct b as [|z b]; [done|].
    destruct (String.prefix esc_n (String z b)) eqn:Hz.
    - apply prefix_esc_n_true in Hz as [b'' [= -> ->]].
      by rewrite double_newlines_cons_bs_n in Hab.
    - rewrite double_newlines_cons_other in Hab by done.
      injection Hab as <- Hab. symmetry in Hab.
      apply double_newlines_head in Hab as [b' ->].
      assert (String.prefix esc_n
                (String backslash (String "n" b')) = true) as Ht
        by (apply prefix_esc_n_true; eauto).
      congruence. }
  destruct s1 as [|c1 s1].
  { destruct s2 as [|c2 s2]; [done|]. symmetry in Heq.
    destruct (String.prefix esc_n (String c2 s2)) eqn:Hp2.
    - apply prefix_esc_n_true in Hp2 as [s'' [= -> ->]]. done.
    - by rewrite double_newlines_cons_other in Heq. }
  destruct (String.prefix esc_n (String c1 s1)) eqn:Hp1;
    destruct s2 as [|c2 s2].
  - apply prefix_esc_n_true in Hp1 as [s'' [= -> ->]]. done.
  - destruct (String.prefix esc_n (String c2 s2)) eqn:Hp2;
      [|by destruct (Hmixed _ _ Hp1 Hp2)].
    apply prefix_esc_n_true in Hp1 as [a [= -> ->]].
    apply prefix_esc_n_true in Hp2 as [b [= -> ->]].
    rewrite !double_newlines_cons_bs_n in Heq.
    unfold esc_esc_n in Heq. rewrite !app_cons_s, !app_nil_l_s in Heq.
    injection Heq as Heq.
    by rewrite (IH (String.length a) ltac:(cbn; lia) a eq_refl b Heq).
  - by rewrite double_newlines_cons_other in Heq.
  - destruct (String.prefix esc_n (String c2 s2)) eqn:Hp2;
      [by destruct (Hmixed _ _ Hp2 Hp1)|].
    rewrite !double_newlines_cons_other in Heq by done.
    injection Heq as <- Heq.
    by rewrite (IH (String.length s1) ltac:(cbn; lia) s1 eq_refl s2 Heq).
Qed.

Lemma quote_quotes_head (s : string) (p : option ascii) (r : string) :
  quote_quotes p s ≠ String dquote r.
Proof.
  destruct s as [|c s]; [done|]. cbn [quote_quotes].
  destruct (decide (c = dquote)) as [->|Hc]; [destruct (decide (p = _))|].
  - unfold esc_esc_quote. by rewrite !app_cons_s.
  - unfold esc_quote. by rewrite !app_cons_s.
  - rewrite app_cons_s. congruence.
Qed.

Lemma quote_quotes_inj (s1 : string) :
  ∀ p s2, quote_quotes p s1 = quote_quotes p s2 → s1 = s2.
Proof.
  assert (∀ p a b c,
            c ≠ dquote →
            quote_quotes p (String dquote a) ≠ quote_quotes p (String c b))
    as Hmixed.
  { intros p a b c Hc Hab. cbn [quote_quotes] in Hab.
    rewrite (decide_True (P := dquote = dquote)) in Hab by done.
    rewrite (decide_False (P := c = dquote)) in Hab by done.
    rewrite (app_cons_s c), app_nil_l_s in Hab.
    destruct (decide (p = Some backslash)).
    - unfold esc_esc_quote in Hab. rewrite !app_cons_s, app_nil_l_s in Hab.
      injection Hab as <- Hab.
      destruct b as [|z b]; [done|]. cbn [quote_quotes] in Hab.
      rewrite (decide_True (P := Some backslash = Some backslash)) in Hab
        by done.
      destruct (decide (z = dquote)).
      + unfold esc_esc_quote in Hab. by rewrite !app_cons_s in Hab.
      + rewrite app_cons_s, app_nil_l_s in Hab. injection Hab as <- Hab.
        symmetry in Hab. by apply quote_quotes_head in Hab.
    - unfold esc_quote in Hab. rewrite !app_cons_s, app_nil_l_s in Hab.
      injection Hab as <- Hab. symmetry in Hab.
      by apply quote_quotes_head in Hab. }
  induction s1 as [|c1 s1 IH]; intros p s2 Heq.
  - destruct s2 as [|c2 s2]; [done|]. cbn [quote_quotes] in Heq.
    destruct (decide (c2 = dquote)); [destruct (decide (p = _))|]; done.
  - destruct s2 as [|c2 s2].
    { cbn [quote_quotes] in Heq.
      destruct (decide (c1 = dquote)); [destruct (decide (p = _))|]; done. }
    destruct (decide (c1 = dquote)) as [->|H1];
      destruct (decide (c2 = dquote)) as [->|H2].
    + cbn [quote_quotes] in Heq.
      rewrite !(decide_True (P := dquote = dquote)) in Heq by done.
      f_equal. apply (IH (Some dquote)).
      destruct (decide (p = _)).
      * unfold esc_esc_quote in Heq. rewrite !app_cons_s, !app_nil_l_s in Heq.
        by injection Heq.
      * unfold esc_quote in Heq. rewrite !app_cons_s, !app_nil_l_s in Heq.
        by injection Heq.
    + by destruct (Hmixed p s1 s2 c2 H2).
    + by destruct (Hmixed p s2 s1 c1 H1).
    + cbn [quote_quotes] in Heq.
      rewrite !(decide_False (P := _ = dquote)) in Heq by done.
      rewrite !app_cons_s, !app_nil_l_s in Heq. injection Heq as <- Heq.
      f_equal. by apply (IH (Some c1)).
Qed.

(** X10. [escape] loses nothing: two texts with the same escaped form are
    the same text. *)
Theorem escape_injective (s1 s2 out : string) :
  escape s1 = Some out → escape s2 = Some out → s1 = s2.
Proof.
  rewrite !escape_total. intros [= <-] [= Heq].
  by apply double_newlines_inj, (quote_quotes_inj _ None).
Qed.

(** ** More on the rewriter *)

Section RewriterFacts.
Context `{SharedConstants}.

(** *** The id of a code string *)

(** X11. [idLiteralForCode] is stable: asking again for the same code
    string returns the same literal and changes nothing. The literal is
    the [int32_t] reading of the id that the registry holds for the
    string; a string that had an id keeps it, no other string gets its id
    changed, and no other part of the walker is touched. *)
Theorem idLiteralForCode_stable (w : AsmConstWalker) (code : string) :
  ∃ id a w1,
    idLiteralForCode w code = (LitI32 id, w1)
    ∧ idLiteralForCode w1 code = (LitI32 id, w1)
    ∧ ids w1 !! code = Some a ∧ id = to_int32 (Z.of_N a)
    ∧ (∀ a0, ids w !! code = Some a0 → a = a0 ∧ w1 = w)
    ∧ (∀ c, c ≠ code → ids w1 !! c = ids w !! c)
    ∧ wasm w1 = wasm w ∧ segmentsByAddress w1 = segmentsByAddress w
    ∧ sigsForCode w1 = sigsForCode w ∧ allSigs w1 = allSigs w.
Proof.
  unfold idLiteralForCode. destruct (ids w !! code) as [a|] eqn:Hid.
  - exists (to_int32 (Z.of_N a)), a, w. rewrite Hid.
    split_and!; try done. by intros a0 [= <-].
  - eexists _, (to_address (to_int32 (Z.of_nat (size (ids w))))), _.
    split; [done|].
    cbn [ids wasm segmentsByAddress sigsForCode allSigs].
    rewrite lookup_insert_eq, to_int32_to_address, to_int32_idemp.
    split_and!; try done.
    intros c Hc. by rewrite lookup_insert_ne.
Qed.

(** *** String recovery *)

Lemma c_str_none (data : list ascii) : c_str data = None ↔ zero ∉ data.
Proof.
  induction data as [|c data IH]; cbn.
  - split; [intros _ ?%elem_of_nil; done|done].
  - rewrite not_elem_of_cons. destruct (decide (c = zero)) as [->|Hc].
    + split; [done|]. by intros [? _].
    + rewrite fmap_None, IH. split; [by split|by intros [_ ?]].
Qed.

Lemma c_str_terminated (s : string) (rest : list ascii) :
  zero ∉ list_ascii_of_string s →
  c_str (list_ascii_of_string s ++ zero :: rest) = Some s.
Proof.
  induction s as [|c s IH]; intros Hz; cbn.
  - by rewrite decide_True.
  - cbn in Hz. apply not_elem_of_cons in Hz as [Hc Hz].
    rewrite decide_False by done. by rewrite IH.
Qed.

(** X12. [codeForConstAddr] on an address that the mapping covers: the
    bytes of the mapped segment are read from its first byte up to the
    first NUL, whatever follows it, and the text read is returned
    escaped. *)
Theorem codeForConstAddr_reads_c_string (w : AsmConstWalker) (a : Z)
    (segmentIndex : N) (segment : Segment) (s : string) (rest : list ascii) :
  segmentsByAddress w !! to_address a = Some segmentIndex →
  segments (wasm w) !! N.to_nat segmentIndex = Some segment →
  seg_data segment = list_ascii_of_string s ++ zero :: rest →
  zero ∉ list_ascii_of_string s →
  ∃ code, escape s = Some code ∧ codeForConstAddr w (LitI32 a) = Some code.
Proof.
  intros Hidx Hseg Hdata Hz. exists (escaped s).
  split; [apply escape_total|].
  unfold codeForConstAddr. cbn [geti32 mbind option_bind].
  rewrite Hidx, Hseg. cbn [mbind option_bind].
  rewrite Hdata, c_str_terminated by done. apply escape_total.
Qed.

(** X13. The only ways in which [codeForConstAddr] leaves its contract:
    the literal is not an [i32]; or the address is mapped to a segment
    index that the memory does not have, or to a segment whose bytes hold
    no NUL. An address that is not mapped is never a failure. *)
Theorem codeForConstAddr_fails_iff (w : AsmConstWalker) (value : Literal) :
  codeForConstAddr w value = None
  ↔ match value with
    | LitI32 a =>
        ∃ segmentIndex,
          segmentsByAddress w !! to_address a = Some segmentIndex
          ∧ match segments (wasm w) !! N.to_nat segmentIndex with
            | None => True
            | Some segment => zero ∉ seg_data segment
            end
    | _ => True
    end.
Proof.
  unfold codeForConstAddr. destruct value as [|a| | |]; try done.
  cbn [geti32 mbind option_bind].
  destruct (segmentsByAddress w !! to_address a) as [idx|].
  - destruct (segments (wasm w) !! N.to_nat idx) as [seg|] eqn:Hseg;
      cbn [mbind option_bind].
    + destruct (c_str (seg_data seg)) as [input|] eqn:Hc;
        cbn [mbind option_bind].
      * rewrite escape_total. split; [done|]. intros (? & [= <-] & Hz).
        rewrite Hseg in Hz. apply c_str_none in Hz. congruence.
      * apply c_str_none in Hc. split; [|done]. intros _. exists idx.
        by rewrite Hseg.
    + split; [|done]. intros _. exists idx. by rewrite Hseg.
  - rewrite escape_total. split; [done|]. by intros (? & ? & _).
Qed.

(** *** When a visit fails *)

(** X14. A visit fails in these cases only: the target contains the
    intrinsic name and the first operand is missing, or is not a constant,
    or is a constant that [codeForConstAddr] cannot resolve. A call whose
    target does not contain the intrinsic name never fails, whatever its
    operands. *)
Theorem visitCallImport_fails_iff (w : AsmConstWalker)
    (curr : CallImportNode) :
  visitCallImport w curr = None
  ↔ hasSubstring (ci_target curr) EMSCRIPTEN_ASM_CONST = true
    ∧ match ci_operands curr with
      | Const arg :: _ => codeForConstAddr w arg = None
      | _ => True
      end.
Proof.
  destruct (observe w curr) as [[code sig]|] eqn:Hobs.
  - destruct (visitCallImport_intrinsic w curr code sig Hobs)
      as (arg & rest & Hops & Hcode & _ & Hcase).
    rewrite Hops, Hcode. split; [|by intros [_ ?]].
    destruct (decide (sig ∈ allSigs w)); [congruence|].
    destruct Hcase as (? & ? & _ & _ & Hcase). congruence.
  - unfold observe, isIntrinsic in Hobs. unfold visitCallImport.
    destruct (hasSubstring _ _); [|split; [done|by intros [? _]]].
    destruct (ci_operands curr) as [|[| arg | | | | |] rest]; try done.
    destruct (codeForConstAddr w arg); [done|]. done.
Qed.

(** *** What a visit never undoes *)

Lemma extends_refl (w : AsmConstWalker) : extends w w.
Proof. unfold extends. split_and!; try done. intros code sigs ?. eauto. Qed.

Lemma extends_trans (w1 w2 w3 : AsmConstWalker) :
  extends w1 w2 → extends w2 w3 → extends w1 w3.
Proof.
  intros (Ha1 & Ha2 & Ha3 & Ha4 & Ha5 & Ha6 & Ha7 & Ha8 & Ha9)
    (Hb1 & Hb2 & Hb3 & Hb4 & Hb5 & Hb6 & Hb7 & Hb8 & Hb9).
  unfold extends. split_and!; try congruence; try (by etrans).
  intros code sigs Hc. destruct (Ha9 _ _ Hc) as (sigs' & Hc' & Hsub).
  destruct (Hb9 _ _ Hc') as (sigs'' & Hc'' & Hsub').
  exists sigs''. split; [done|]. by etrans.
Qed.

Lemma extends_recorded (w : AsmConstWalker) (m : Module) (code sig : string) :
  segments m = segments (wasm w) → functions m = functions (wasm w) →
  exports m = exports (wasm w) →
  imports (wasm w) `prefix_of` imports m →
  functionTypes (wasm w) `prefix_of` functionTypes m →
  extends w (recorded w m code sig).
Proof.
  intros Hs Hf He Hi Ht. unfold extends, recorded.
  cbn [wasm segmentsByAddress sigsForCode ids allSigs].
  split_and!; try done.
  - destruct (ids w !! code) eqn:Hid; [done|]. by apply insert_subseteq.
  - apply union_subseteq_r.
  - intros c sigs Hc. destruct (decide (c = code)) as [->|Hne].
    + rewrite lookup_insert_eq, Hc. eexists. split; [done|].
      apply union_subseteq_r.
    + rewrite lookup_insert_ne by done. eauto.
Qed.

Lemma visitCallImport_extends (w w1 : AsmConstWalker)
    (curr curr' : CallImportNode) :
  visitCallImport w curr = Some (curr', w1) → extends w w1.
Proof.
  intros Hv. destruct (observe w curr) as [[code sig]|] eqn:Hobs.
  - destruct (visitCallImport_intrinsic w curr code sig Hobs)
      as (arg & rest & _ & _ & _ & Hcase).
    destruct (decide (sig ∈ allSigs w)).
    + rewrite Hv in Hcase. injection Hcase as _ ->.
      by apply extends_recorded.
    + destruct Hcase as (t & added & _ & _ & Hcase).
      rewrite Hv in Hcase. injection Hcase as _ ->.
      apply extends_recorded; try done; by apply prefix_app_r.
  - destruct (visitCallImport_plain _ _ _ _ Hobs Hv) as (_ & _ & ->).
    apply extends_refl.
Qed.

Lemma visitAll_extends (sites : list CallImportNode) :
  ∀ w sites' w',
    visitAll w sites = Some (sites', w') →
    extends w w' ∧ length sites' = length sites.
Proof.
  induction sites as [|curr sites IH]; intros w sites' w' Hv.
  - injection Hv as <- <-. split; [apply extends_refl|done].
  - cbn [visitAll] in Hv.
    destruct (visitCallImport w curr) as [[curr' w1]|] eqn:Hvisit; [|done].
    cbn [mbind option_bind] in Hv.
    destruct (visitAll w1 sites) as [[rest w2]|] eqn:Hrest; [|done].
    injection Hv as <- <-. destruct (IH _ _ _ Hrest) as [Hext Hlen].
    split; [|cbn; by rewrite Hlen].
    eapply extends_trans; [|exact Hext]. by eapply visitCallImport_extends.
Qed.

(** X15. Visits only add. From any walker state, a sequence of visits that
    returns leaves the memory snapshot, the functions and the exports of
    the module as they were, appends to the imports and to the function
    types, and lets the three registries grow: no id is changed or
    dropped, no signature is forgotten. Every call site is still there. *)
Theorem visits_only_add (w w' : AsmConstWalker)
    (sites sites' : list CallImportNode) :
  visitAll w sites = Some (sites', w') →
  length sites' = length sites
  ∧ segmentsByAddress w' = segmentsByAddress w
  ∧ segments (wasm w') = segments (wasm w)
  ∧ functions (wasm w') = functions (wasm w)
  ∧ exports (wasm w') = exports (wasm w)
  ∧ imports (wasm w) `prefix_of` imports (wasm w')
  ∧ functionTypes (wasm w) `prefix_of` functionTypes (wasm w')
  ∧ (∀ code a, ids w !! code = Some a → ids w' !! code = Some a)
  ∧ (∀ sig, sig ∈ allSigs w → sig ∈ allSigs w')
  ∧ (∀ code sigs,
       sigsForCode w !! code = Some sigs →
       ∃ sigs', sigsForCode w' !! code = Some sigs' ∧ sigs ⊆ sigs').
Proof.
  intros Hv. destruct (visitAll_extends _ _ _ _ Hv)
    as [(? & ? & ? & ? & ? & ? & Hids & Hall & ?) ?].
  split_and!; try done.
  intros code a Ha. by eapply lookup_weaken.
Qed.

(** *** After one walk from a fresh walker *)

Lemma to_address_to_int32 (z : Z) : to_address (to_int32 z) = to_address z.
Proof.
  unfold to_address, to_int32, two32. f_equal.
  rewrite Zminus_mod_idemp_l. f_equal. lia.
Qed.

(** X16. In one walk from a fresh walker two different code strings never
    share an id, as long as the registry holds at most 2^32 strings, the
    number of values of an [Address]. *)
Theorem ids_are_distinct (m : Module) (segs : gmap N N)
    (sites sites' : list CallImportNode) (w' : AsmConstWalker) :
  visitAll (newWalker m segs) sites = Some (sites', w') →
  (Z.of_nat (size (ids w')) ≤ 2 ^ 32)%Z →
  ∀ code1 code2 a,
    ids w' !! code1 = Some a → ids w' !! code2 = Some a → code1 = code2.
Proof.
  intros Hv Hbound code1 code2 a H1 H2.
  destruct (walk_spec m segs sites sites' w' Hv) as ((_ & Hids & _) & _).
  set (codes := (observed (newWalker m segs) sites).*1) in *.
  rewrite (idsInv_size _ _ Hids) in Hbound. destruct Hids as [Hnth Hdom].
  assert (∀ code b, ids w' !! code = Some b →
            ∃ k, distinct codes !! k = Some code ∧ b = N.of_nat k) as Hidx.
  { intros code b Hb.
    assert (code ∈ distinct codes) as Hin.
    { apply elem_of_distinct.
      rewrite <- (elem_of_list_to_set (C := gset string)), <- Hdom.
      apply elem_of_dom. eauto. }
    apply list_elem_of_lookup in Hin as [k Hk]. exists k. split; [done|].
    rewrite (Hnth k code Hk) in Hb. injection Hb as <-.
    apply lookup_lt_Some in Hk.
    rewrite to_address_to_int32, to_address_small; lia. }
  destruct (Hidx _ _ H1) as (k1 & Hk1 & ->).
  destruct (Hidx _ _ H2) as (k2 & Hk2 & Heq).
  apply Nat2N.inj in Heq as ->. congruence.
Qed.

Lemma hasSubstring_prefix (name sub : string) :
  String.prefix sub name = true → hasSubstring name sub = true.
Proof. intros Hp. destruct name; cbn [hasSubstring]; by rewrite Hp. Qed.

Lemma nameForImportWithSig_intrinsic (sig : string) :
  hasSubstring (nameForImportWithSig sig) EMSCRIPTEN_ASM_CONST = true.
Proof. apply hasSubstring_prefix, prefix_app_s. Qed.


Lemma observed_elem (w0 : AsmConstWalker) (sites : list CallImportNode)
    (curr : CallImportNode) (code sig : string) :
  curr ∈ sites → observe w0 curr = Some (code, sig) →
  (code, sig) ∈ observed w0 sites.
Proof. intros Hin Hobs. unfold observed. apply list_elem_of_omap. eauto. Qed.

(** The full signature of an intrinsic call site that the walk can visit
    is determined by its reduced signature. *)
Lemma observe_full_signature (w0 : AsmConstWalker) (curr : CallImportNode)
    (code sig : string) :
  observe w0 curr = Some (code, sig) →
  ∃ arg rest,
    ci_operands curr = Const arg :: rest
    ∧ sig = Sig.ofShape (ci_type curr) (typeOf <$> rest)
    ∧ Sig.ofCall curr = Sig.ofShape (ci_type curr) (i32 :: (typeOf <$> rest)).
Proof.
  unfold observe. destruct (isIntrinsic curr); [|done].
  destruct (ci_operands curr) as [|[| arg | | | | |] rest] eqn:Hops; try done.
  destruct (codeForConstAddr w0 arg) as [c|] eqn:Hcode; [|done].
  intros [= -> <-]. destruct (codeForConstAddr_i32 _ _ _ Hcode) as [a ->].
  exists (LitI32 a), rest. unfold Sig.ofCall. rewrite Hops.
  cbn [fmap list_fmap typeOf Literal_type].
  split; [done|]. split; [|done]. apply asmConstSig_ofShape.
Qed.

(** X17. After one walk from a fresh walker no call dangles: every call
    site whose target contains the intrinsic name targets an import of
    the module, and that import is typed by a registered function type
    whose signature is the signature of the call as it now stands, also
    when the import was registered for another call site. *)
Theorem rewritten_calls_have_imports (m : Module) (segs : gmap N N)
    (sites sites' : list CallImportNode) (w' : AsmConstWalker) :
  visitAll (newWalker m segs) sites = Some (sites', w') →
  Forall
    (λ curr',
       hasSubstring (ci_target curr') EMSCRIPTEN_ASM_CONST = true →
       ∃ imp t,
         imp ∈ imports (wasm w') ∧ im_name imp = ci_target curr'
         ∧ im_kind imp = KFunction
         ∧ t ∈ functionTypes (wasm w') ∧ ft_name t = im_functionType imp
         ∧ Sig.ofFunctionType t = Sig.ofCall curr')
    sites'.
Proof.
  intros Hv.
  destruct (walk_spec m segs sites sites' w' Hv)
    as ((_ & _ & _ & _ & (imps & Himps & Hfor) & _) & Hsites).
  set (w0 := newWalker m segs) in *.
  assert (∀ curr, curr ∈ sites → isIntrinsic curr = true →
                  ∃ code sig, observe w0 curr = Some (code, sig)) as Hseen.
  { intros curr Hin Hintr.
    apply list_elem_of_lookup in Hin as [k Hk].
    destruct (Forall2_lookup_l _ _ _ _ _ Hsites Hk) as (curr' & _ & Hsite).
    unfold siteRewritten in Hsite.
    destruct (observe w0 curr) as [[code sig]|]; [eauto|].
    destruct Hsite as [Hn _]. congruence. }
  apply Forall_forall. intros curr' Hin' Hintr'.
  apply list_elem_of_lookup in Hin' as [k Hk'].
  destruct (Forall2_lookup_r _ _ _ _ _ Hsites Hk') as (curr & Hk & Hsite).
  unfold siteRewritten in Hsite.
  destruct (observe w0 curr) as [[code sig]|] eqn:Hobs; last first.
  { destruct Hsite as [Hn ->]. unfold isIntrinsic in Hn. congruence. }
  destruct Hsite as (arg & rest & a & Hops & _ & ->).
  destruct (observe_full_signature _ _ _ _ Hobs)
    as (arg1 & rest1 & Hops1 & Hsig & Hfull).
  rewrite Hops in Hops1. injection Hops1 as <- <-.
  assert (sig ∈ distinct (observed w0 sites).*2) as Hin.
  { apply elem_of_distinct, list_elem_of_fmap. exists (code, sig).
    split; [done|]. eapply observed_elem; [|done].
    by eapply list_elem_of_lookup_2. }
  apply list_elem_of_lookup in Hin as [j Hj].
  destruct (Forall2_lookup_l _ _ _ _ _ Hfor Hj) as (imp & Himp & Hrel).
  destruct Hrel as (Hname & _ & _ & Hkind & t & curr0 & Hin0 & Hintr0 & Hred
                    & Ht & Htn & Hts).
  exists imp, t. split_and!; try done.
  - rewrite Himps. apply elem_of_app. right. by eapply list_elem_of_lookup_2.
  - destruct (Hseen curr0 Hin0 Hintr0) as (code0 & sig0 & Hobs0).
    destruct (observe_full_signature _ _ _ _ Hobs0)
      as (arg0 & rest0 & Hops0 & Hsig0 & Hfull0).
    assert (sig0 = sig) as ->.
    { unfold observe in Hobs0. rewrite Hintr0, Hops0 in Hobs0.
      destruct (codeForConstAddr w0 arg0); [|done].
      injection Hobs0 as _ <-. done. }
    rewrite Hsig in Hsig0. apply ofShape_inj in Hsig0 as [Hty Hrest].
    rewrite Hts, Hfull0. unfold Sig.ofCall.
    cbn [ci_type ci_operands fmap list_fmap typeOf Literal_type].
    by rewrite <- Hty, <- Hrest.
Qed.



(** X19. After [walkModule] on a fresh walker the three registries agree:
    the code strings with a signature set are the code strings with an
    id, so that the emitter finds an id for every code it lists; no
    signature set is empty; every signature of a set is in [allSigs]; and
    every signature of [allSigs] has its import in the module. *)
Theorem registries_agree_after_walkModule (m : Module) (segs : gmap N N)
    (w' : AsmConstWalker) :
  walkModule (newWalker m segs) = Some w' →
  dom (sigsForCode w') = dom (ids w')
  ∧ (∀ code sigs,
       sigsForCode w' !! code = Some sigs → sigs ≠ ∅ ∧ sigs ⊆ allSigs w')
  ∧ (∀ sig, sig ∈ allSigs w' →
            ∃ imp, imp ∈ imports (wasm w')
                   ∧ im_name imp = nameForImportWithSig sig).
Proof.
  intros Hw.
  destruct (walkModule_registries m segs w' Hw)
    as (sites & sites' & w'' & Hv & -> & -> & -> & -> & _).
  destruct (walk_spec m segs sites sites' w'' Hv)
    as ((_ & [_ Hdom] & Hsigs & Hall & (imps & Himps & Hfor) & _) & _).
  set (obs := observed (newWalker m segs) sites) in *.
  split_and!.
  - rewrite Hdom. apply set_eq. intros code.
    rewrite elem_of_dom, (Hsigs code), elem_of_list_to_set.
    destruct (decide (code ∈ obs.*1)); [|by split; [intros [? ?]|]].
    split; [done|eauto].
  - intros code sigs Hc. rewrite (Hsigs code) in Hc.
    destruct (decide (code ∈ obs.*1)) as [Hin|]; [|done].
    injection Hc as <-. split.
    + apply list_elem_of_fmap in Hin as ([c s] & -> & Hin).
      intros Hempty.
      assert (s ∈ (list_to_set (sigsOf obs c) : gset string)) as Hs.
      { apply elem_of_list_to_set. unfold sigsOf.
        apply list_elem_of_fmap. exists (c, s). split; [done|].
        by apply list_elem_of_filter. }
      cbn [fst] in Hempty. rewrite Hempty in Hs. by apply elem_of_empty in Hs.
    + rewrite Hall. intros s Hs. rewrite elem_of_list_to_set in Hs.
      apply elem_of_list_to_set. unfold sigsOf in Hs.
      apply list_elem_of_fmap in Hs as (o & -> & Ho).
      apply list_elem_of_filter in Ho as [_ Ho].
      apply list_elem_of_fmap. eauto.
  - intros sig Hs. rewrite Hall, elem_of_list_to_set in Hs.
    apply elem_of_distinct, list_elem_of_lookup in Hs as [j Hj].
    destruct (Forall2_lookup_l _ _ _ _ _ Hfor Hj) as (imp & Himp & Hrel).
    exists imp. split; [|apply Hrel].
    rewrite Himps. apply elem_of_app. right. by eapply list_elem_of_lookup_2.
Qed.

End RewriterFacts.

(** ** More on the emitter *)

Section EmitterFacts.
Context `{SharedConstants}.

(** *** The loops of the emitter and their separators *)

Lemma concat_cons_s (sep x : string) (l : list string) :
  String.concat sep (x :: l)
  = x +:+ match l with [] => "" | _ => sep +:+ String.concat sep l end.
Proof. destruct l; cbn [String.concat]; [by rewrite app_nil_r_s|done]. Qed.

Lemma printSet_loop_joins (c : list string) :
  ∀ o first,
    printSet_loop o first c
    = o +:+ (if first then String.concat "," (quoted <$> c)
             else match c with
                  | [] => ""
                  | _ => "," +:+ String.concat "," (quoted <$> c)
                  end).
Proof.
  induction c as [|item c IH]; intros o first.
  - cbn. destruct first; by rewrite app_nil_r_s.
  - cbn [printSet_loop]. rewrite IH, fmap_cons, concat_cons_s.
    destruct first, c; cbn [fmap list_fmap]; by rewrite !app_assoc_s.
Qed.

Lemma initializers_loop_joins (funcs : list Name) :
  ∀ o first,
    initializers_loop o first funcs
    = o +:+ (if first then String.concat ", " (quoted <$> funcs)
             else match funcs with
                  | [] => ""
                  | _ => ", " +:+ String.concat ", " (quoted <$> funcs)
                  end).
Proof.
  induction funcs as [|func funcs IH]; intros o first.
  - cbn. destruct first; by rewrite app_nil_r_s.
  - cbn [initializers_loop]. rewrite IH, fmap_cons, concat_cons_s.
    destruct first, funcs; cbn [fmap list_fmap]; by rewrite !app_assoc_s.
Qed.

(** X20. [printSet] writes an opening bracket, the items in the order of
    iteration, each between double quotes, with a comma and no blank
    between two items, and a closing bracket; the empty collection gives
    the two brackets. *)
Theorem printSet_joins (o : string) (c : list string) :
  printSet o c = o +:+ "[" +:+ String.concat "," (quoted <$> c) +:+ "]"
  ∧ printSet o [] = o +:+ "[]".
Proof.
  unfold printSet. rewrite printSet_loop_joins. cbn [printSet_loop].
  by rewrite !app_assoc_s.
Qed.

Lemma asmConsts_loop_joins (w : AsmConstWalker) (codes : list string) :
  ∀ o first,
    asmConsts_loop w o first codes
    = o +:+ (if first then String.concat "," (asmConstEntry w <$> codes)
             else match codes with
                  | [] => ""
                  | _ => "," +:+ String.concat "," (asmConstEntry w <$> codes)
                  end).
Proof.
  induction codes as [|code codes IH]; intros o first.
  - cbn. destruct first; by rewrite app_nil_r_s.
  - cbn [asmConsts_loop]. rewrite IH, fmap_cons, concat_cons_s.
    unfold printSet. rewrite printSet_loop_joins.
    unfold asmConstEntry, quoted.
    destruct first, codes; cbn [fmap list_fmap]; by rewrite !app_assoc_s.
Qed.

(** X21. The record that [generateEmscriptenMetadata] writes, for any
    module, static bump and initializer list: the emitter returns exactly
    when the walk of the module does, the module returned is the walked
    one, and the text appended to the sink is the record of the walker's
    registries: one [asmConsts] entry per code string that has a
    signature set, in ascending order of the strings and separated by a
    comma alone, then the static bump in decimal, then the initializers
    in the order given, separated by a comma and a blank. *)
Theorem generateEmscriptenMetadata_text (o : string) (m : Module)
    (segs : gmap N N) (staticBump : N) (initializerFunctions : list Name) :
  generateEmscriptenMetadata o m segs staticBump initializerFunctions
  = (λ walker,
       (o +:+ metadataText walker staticBump initializerFunctions, wasm walker))
      <$> walkModule (newWalker m segs).
Proof.
  unfold generateEmscriptenMetadata.
  destruct (walkModule (newWalker m segs)) as [walker|]; [|done].
  cbn [mbind option_bind fmap option_fmap option_map].
  rewrite asmConsts_loop_joins, initializers_loop_joins.
  unfold metadataText, quoted. by rewrite !app_assoc_s.
Qed.

(** X22. For a module without intrinsic call sites the emitter returns,
    the record has an empty [asmConsts] object whatever the static bump
    and the initializers are, and the module is left as it was. *)
Theorem generateEmscriptenMetadata_without_intrinsic (o : string) (m : Module)
    (segs : gmap N N) (staticBump : N) (initializerFunctions : list Name) :
  noIntrinsicCalls m →
  generateEmscriptenMetadata o m segs staticBump initializerFunctions
  = Some (o +:+ ";; METADATA: { " +:+ quoted "asmConsts" +:+ ": {},"
            +:+ quoted "staticBump" +:+ ": " +:+ to_string (Z.of_N staticBump)
            +:+ ", " +:+ quoted "initializers" +:+ ": ["
            +:+ String.concat ", " (quoted <$> initializerFunctions)
            +:+ "] }" +:+ String newline "",
          m).
Proof.
  intros Hno. unfold generateEmscriptenMetadata.
  rewrite (walkModule_without_intrinsic (newWalker m segs)) by done.
  cbn [mbind option_bind newWalker sigsForCode wasm].
  rewrite dom_empty_L, elements_empty. unfold ascending.
  change (merge_sort String.le []) with (@nil string).
  cbn [asmConsts_loop]. rewrite initializers_loop_joins.
  unfold quoted. by rewrite !app_assoc_s.
Qed.

(** *** What the emitter does to the module *)

Lemma generateEmscriptenMetadata_walk (o : string) (m : Module)
    (segs : gmap N N) (staticBump : N) (initializerFunctions : list Name)
    (out : string) (m' : Module) :
  generateEmscriptenMetadata o m segs staticBump initializerFunctions
  = Some (out, m') →
  ∃ walker, walkModule (newWalker m segs) = Some walker ∧ m' = wasm walker.
Proof.
  unfold generateEmscriptenMetadata.
  destruct (walkModule (newWalker m segs)) as [walker|]; [|done].
  cbn [mbind option_bind]. intros [= _ <-]. eauto.
Qed.

Lemma sameShape_refl (f : Function) : sameShape f f.
Proof. by unfold sameShape. Qed.

Lemma sameShape_setBody (f f' : Function) (body : Expression) :
  sameShape f f' → is_Some (fn_body f') → sameShape f (setBody f' body).
Proof.
  intros (? & ? & ? & ? & ? & Hb) Hsome. unfold sameShape. cbn.
  split_and!; try done. split; [intros _; by apply Hb|by eauto].
Qed.

Lemma walk_extends (e e' : Expression) (w w' : AsmConstWalker) :
  walk w e = Some (e', w') → extends w w'.
Proof.
  intros Hw. destruct (walk_visits e w e' w' Hw) as (sites & sites' & Hv).
  by destruct (visitAll_extends _ _ _ _ Hv).
Qed.

(** What the walk of one function keeps, relative to the walker [w0] and
    the function list [fs] at the start. *)
Lemma walkFunction_frame (fs : list Function) (w0 w : AsmConstWalker) :
  segmentsByAddress w = segmentsByAddress w0
  ∧ segments (wasm w) = segments (wasm w0)
  ∧ exports (wasm w) = exports (wasm w0)
  ∧ imports (wasm w0) `prefix_of` imports (wasm w)
  ∧ functionTypes (wasm w0) `prefix_of` functionTypes (wasm w)
  ∧ Forall2 sameShape fs (functions (wasm w)) →
  ∀ i w',
    walkFunction w i = Some w' →
    segmentsByAddress w' = segmentsByAddress w0
    ∧ segments (wasm w') = segments (wasm w0)
    ∧ exports (wasm w') = exports (wasm w0)
    ∧ imports (wasm w0) `prefix_of` imports (wasm w')
    ∧ functionTypes (wasm w0) `prefix_of` functionTypes (wasm w')
    ∧ Forall2 sameShape fs (functions (wasm w')).
Proof.
  intros (Hsa & Hseg & Hexp & Himp & Hty & Hfs) i w' Hf.
  unfold walkFunction in Hf.
  destruct (functions (wasm w) !! i) as [func|] eqn:Hfunc; [|done].
  cbn [mbind option_bind] in Hf.
  destruct (fn_body func) as [body|] eqn:Hbody;
    [|injection Hf as <-; by split_and!].
  destruct (walk w body) as [[body' w1]|] eqn:Hwalk; [|done].
  injection Hf as <-.
  destruct (walk_extends _ _ _ _ Hwalk)
    as (Ha & Hb & Hc & Hd & He & Hg & _).
  cbn [setWasm setFunctions wasm segmentsByAddress segments exports imports
       functionTypes functions].
  split_and!; try congruence; try (by etrans).
  rewrite Hc.
  destruct (Forall2_lookup_r _ _ _ _ _ Hfs Hfunc) as (f0 & Hf0 & Hshape).
  rewrite <- (list_insert_id fs i f0) by done.
  apply Forall2_insert; [done|].
  apply sameShape_setBody; [done|]. rewrite Hbody. eauto.
Qed.

(** X23. What [generateEmscriptenMetadata] does to the module: exports and
    memory are untouched, imports and function types are only appended,
    and the functions are the same ones in the same order, with the same
    names, results, parameters and locals; only the expression of a body
    can have changed. *)
Theorem generateEmscriptenMetadata_frame (o : string) (m : Module)
    (segs : gmap N N) (staticBump : N) (initializerFunctions : list Name)
    (out : string) (m' : Module) :
  generateEmscriptenMetadata o m segs staticBump initializerFunctions
  = Some (out, m') →
  exports m' = exports m
  ∧ segments m' = segments m
  ∧ imports m `prefix_of` imports m'
  ∧ functionTypes m `prefix_of` functionTypes m'
  ∧ Forall2
      (λ f f',
         fn_name f' = fn_name f ∧ fn_result f' = fn_result f
         ∧ fn_params f' = fn_params f ∧ fn_vars f' = fn_vars f
         ∧ fn_localNames f' = fn_localNames f
         ∧ (is_Some (fn_body f') ↔ is_Some (fn_body f)))
      (functions m) (functions m').
Proof.
  intros Hrun.
  destruct (generateEmscriptenMetadata_walk _ _ _ _ _ _ _ Hrun)
    as (walker & Hw & ->).
  unfold walkModule in Hw.
  set (w0 := newWalker m segs) in *.
  assert (∀ indices w w',
            segmentsByAddress w = segmentsByAddress w0
            ∧ segments (wasm w) = segments (wasm w0)
            ∧ exports (wasm w) = exports (wasm w0)
            ∧ imports (wasm w0) `prefix_of` imports (wasm w)
            ∧ functionTypes (wasm w0) `prefix_of` functionTypes (wasm w)
            ∧ Forall2 sameShape (functions m) (functions (wasm w)) →
            walkFunctions w indices = Some w' →
            segmentsByAddress w' = segmentsByAddress w0
            ∧ segments (wasm w') = segments (wasm w0)
            ∧ exports (wasm w') = exports (wasm w0)
            ∧ imports (wasm w0) `prefix_of` imports (wasm w')
            ∧ functionTypes (wasm w0) `prefix_of` functionTypes (wasm w')
            ∧ Forall2 sameShape (functions m) (functions (wasm w'))) as Hloop.
  { induction indices as [|i indices IH]; intros w w' Hinv Hl.
    - by injection Hl as <-.
    - cbn [walkFunctions] in Hl.
      destruct (walkFunction w i) as [w1|] eqn:Hf; [|done].
      cbn [mbind option_bind] in Hl.
      apply (IH w1 w'); [|done].
      by apply (walkFunction_frame (functions m) w0 w Hinv i). }
  destruct (Hloop _ _ _ ltac:(split_and!; try done;
                              apply Forall_Forall2_diag, Forall_forall;
                              intros; apply sameShape_refl) Hw)
    as (_ & ? & ? & ? & ? & ?).
  by split_and!.
Qed.

(** *** When the emitter returns *)

Lemma walk_Call (w : AsmConstWalker) target operands type :
  walk w (Call target operands type)
  = '(operands, w) ← walkOperands w operands;
    Some (Call target operands type, w).
Proof. reflexivity. Qed.

Lemma walk_CallImport (w : AsmConstWalker) target operands type :
  walk w (CallImport target operands type)
  = '(operands, w) ← walkOperands w operands;
    '(curr, w) ← visitCallImport w (mkCallImport target operands type);
    Some (CallImport (ci_target curr) (ci_operands curr) (ci_type curr), w).
Proof. reflexivity. Qed.

Lemma walk_CallIndirect (w : AsmConstWalker) fullType target operands type :
  walk w (CallIndirect fullType target operands type)
  = '(operands, w) ← walkOperands w operands;
    '(target, w) ← walk w target;
    Some (CallIndirect fullType target operands type, w).
Proof. reflexivity. Qed.

Lemma walk_Host (w : AsmConstWalker) op nameOperand operands type :
  walk w (Host op nameOperand operands type)
  = '(operands, w) ← walkOperands w operands;
    Some (Host op nameOperand operands type, w).
Proof. reflexivity. Qed.

(** A walk leaves a constant where there was one, and puts none where
    there was none. *)
Lemma walk_keeps_const (e e' : Expression) (w w' : AsmConstWalker) :
  walk w e = Some (e', w') →
  firstConst [e'] = firstConst [e].
Proof.
  destruct e as [| | |target operands type|target operands type
                 |fullType callee operands type|op nameOperand operands type].
  1-3: by intros [= <- <-].
  - rewrite walk_Call.
    destruct (walkOperands w operands) as [[ops w1]|]; [|done].
    by intros [= <- <-].
  - rewrite walk_CallImport.
    destruct (walkOperands w operands) as [[ops w1]|]; [|done].
    cbn [mbind option_bind].
    destruct (visitCallImport w1 _) as [[curr w2]|]; [|done].
    by intros [= <- <-].
  - rewrite walk_CallIndirect.
    destruct (walkOperands w operands) as [[ops w1]|]; [|done].
    cbn [mbind option_bind].
    destruct (walk w1 callee) as [[callee' w2]|]; [|done].
    by intros [= <- <-].
  - rewrite walk_Host.
    destruct (walkOperands w operands) as [[ops w1]|]; [|done].
    by intros [= <- <-].
Qed.

Lemma walkOperands_firstConst (operands operands' : list Expression)
    (w w' : AsmConstWalker) :
  walkOperands w operands = Some (operands', w') →
  firstConst operands' = firstConst operands.
Proof.
  destruct operands as [|e operands]; [by intros [= <- <-]|].
  cbn [walkOperands].
  destruct (walk w e) as [[e' w1]|] eqn:He; [|done].
  cbn [mbind option_bind].
  destruct (walkOperands w1 operands) as [[ops w2]|]; [|done].
  intros [= <- <-]. apply walk_keeps_const in He.
  unfold firstConst in *. by destruct e', e.
Qed.

Lemma extends_sameMemory (w0 w w' : AsmConstWalker) :
  sameMemory w0 w → extends w w' → sameMemory w0 w'.
Proof.
  intros [Ha Hb] (Hc & Hd & _). unfold sameMemory. by rewrite Hc, Hd.
Qed.

Lemma visitCallImport_returns (w0 w : AsmConstWalker) (curr : CallImportNode) :
  sameMemory w0 w →
  is_Some (visitCallImport w curr)
  ↔ negb (hasSubstring (ci_target curr) EMSCRIPTEN_ASM_CONST)
    || match firstConst (ci_operands curr) with
       | Some arg => bool_decide (is_Some (codeForConstAddr w0 arg))
       | None => false
       end = true.
Proof.
  intros Hmem.
  destruct (observe w curr) as [[code sig]|] eqn:Hobs.
  - destruct (visitCallImport_intrinsic w curr code sig Hobs)
      as (arg & rest & Hops & Hcode & _ & Hcase).
    rewrite Hops. cbn [firstConst].
    rewrite <- (codeForConstAddr_sameMemory w0 w) by done. rewrite Hcode.
    rewrite bool_decide_eq_true_2 by eauto. rewrite orb_true_r.
    split; [done|intros _].
    destruct (decide (sig ∈ allSigs w)); [by rewrite Hcase|].
    destruct Hcase as (? & ? & _ & _ & ->). eauto.
  - unfold observe, isIntrinsic in Hobs. unfold visitCallImport.
    destruct (hasSubstring _ _); [|by split; eauto].
    cbn [negb orb].
    destruct (ci_operands curr) as [|[| arg | | | | |] rest];
      cbn [firstConst]; try (split; [by intros [? ?]|done]).
    rewrite <- (codeForConstAddr_sameMemory w0 w) by done.
    destruct (codeForConstAddr w arg); [done|].
    cbn [mbind option_bind]. split; [by intros [? ?]|].
    intros Hd. apply bool_decide_eq_true in Hd. by destruct Hd.
Qed.

Lemma walkOperands_extends (operands : list Expression) :
  ∀ w operands' w',
    walkOperands w operands = Some (operands', w') → extends w w'.
Proof.
  induction operands as [|e operands IH]; intros w operands' w' Hw.
  - injection Hw as <- <-. apply extends_refl.
  - cbn [walkOperands] in Hw.
    destruct (walk w e) as [[e' w1]|] eqn:He; [|done].
    cbn [mbind option_bind] in Hw.
    destruct (walkOperands w1 operands) as [[ops w2]|] eqn:Hrest; [|done].
    injection Hw as <- <-.
    eapply extends_trans; [by eapply walk_extends|by eapply IH].
Qed.

Lemma walkOperands_returns (w0 : AsmConstWalker) (operands : list Expression) :
  Forall (λ e, ∀ w, sameMemory w0 w →
                    is_Some (walk w e) ↔ resolvable w0 e = true) operands →
  ∀ w, sameMemory w0 w →
       is_Some (walkOperands w operands)
       ↔ forallb (resolvable w0) operands = true.
Proof.
  induction 1 as [|e operands He _ IH]; intros w Hmem; [by split; eauto|].
  cbn [walkOperands forallb]. rewrite andb_true_iff, <- (He w Hmem).
  destruct (walk w e) as [[e' w1]|] eqn:Hwalk;
    [|split; [by intros [? ?]|by intros [[? ?] _]]].
  cbn [mbind option_bind].
  assert (sameMemory w0 w1) as Hmem1
    by (eapply extends_sameMemory; [done|by eapply walk_extends]).
  rewrite <- (IH w1 Hmem1).
  destruct (walkOperands w1 operands) as [[ops w2]|];
    [split; eauto|split; [by intros [? ?]|by intros [_ [? ?]]]].
Qed.

(** A walk returns exactly on the expressions whose intrinsic calls can
    all be visited. *)
Lemma walk_returns (w0 : AsmConstWalker) (e : Expression) :
  ∀ w, sameMemory w0 w → is_Some (walk w e) ↔ resolvable w0 e = true.
Proof.
  induction e as [| | |target operands type IH|target operands type IH
                  |fullType callee operands type IHt IH
                  |op nameOperand operands type IH]
    using Expression_nested_ind; intros w Hmem;
    try (split; [done|by eauto]).
  - rewrite walk_Call. cbn [resolvable].
    rewrite <- (walkOperands_returns w0 operands IH w Hmem).
    destruct (walkOperands w operands) as [[ops w1]|];
      [split; eauto|split; by intros [? ?]].
  - rewrite walk_CallImport. cbn [resolvable].
    rewrite andb_true_iff, <- (walkOperands_returns w0 operands IH w Hmem).
    destruct (walkOperands w operands) as [[ops w1]|] eqn:Hops;
      [|split; [by intros [? ?]|by intros [[? ?] _]]].
    cbn [mbind option_bind].
    assert (sameMemory w0 w1) as Hmem1
      by (eapply extends_sameMemory; [done|by eapply walkOperands_extends]).
    rewrite <- (walkOperands_firstConst _ _ _ _ Hops).
    rewrite <- (visitCallImport_returns w0 w1
                  (mkCallImport target ops type) Hmem1).
    destruct (visitCallImport w1 _) as [[curr w2]|];
      [split; eauto|split; [by intros [? ?]|by intros [_ [? ?]]]].
  - rewrite walk_CallIndirect. cbn [resolvable].
    rewrite andb_true_iff, <- (walkOperands_returns w0 operands IH w Hmem).
    destruct (walkOperands w operands) as [[ops w1]|] eqn:Hops;
      [|split; [by intros [? ?]|by intros [_ [? ?]]]].
    cbn [mbind option_bind].
    assert (sameMemory w0 w1) as Hmem1
      by (eapply extends_sameMemory; [done|by eapply walkOperands_extends]).
    rewrite <- (IHt w1 Hmem1).
    destruct (walk w1 callee) as [[callee' w2]|];
      [split; eauto|split; [by intros [? ?]|by intros [[? ?] _]]].
  - rewrite walk_Host. cbn [resolvable].
    rewrite <- (walkOperands_returns w0 operands IH w Hmem).
    destruct (walkOperands w operands) as [[ops w1]|];
      [split; eauto|split; by intros [? ?]].
Qed.

Lemma drop_S_eq {A} (l l' : list A) (i : nat) :
  drop i l = drop i l' → drop (S i) l = drop (S i) l'.
Proof.
  intros Hd. rewrite <- !(Nat.add_1_r i), <- !drop_drop. by rewrite Hd.
Qed.

(** The loop over the functions: the functions still to be walked are
    those of the module at the start. *)
Lemma walkFunctions_returns (w0 : AsmConstWalker) (fs : list Function)
    (k : nat) :
  ∀ i w,
    sameMemory w0 w →
    length (functions (wasm w)) = length fs →
    drop i (functions (wasm w)) = drop i fs →
    i + k = length fs →
    is_Some (walkFunctions w (seq i k))
    ↔ Forall (λ f, ∀ body, fn_body f = Some body →
                           resolvable w0 body = true) (drop i fs).
Proof.
  induction k as [|k IH]; intros i w Hmem Hlen Hdrop Hik.
  - rewrite drop_ge by lia. split; [by constructor|by eauto].
  - cbn [seq walkFunctions].
    assert (is_Some (fs !! i)) as [func Hfunc]
      by (apply lookup_lt_is_Some; lia).
    assert (functions (wasm w) !! i = Some func) as Hfunc'.
    { rewrite <- (Nat.add_0_r i), <- lookup_drop, Hdrop, lookup_drop.
      by rewrite Nat.add_0_r. }
    rewrite (drop_S fs func i Hfunc), Forall_cons.
    unfold walkFunction. rewrite Hfunc'. cbn [mbind option_bind].
    destruct (fn_body func) as [body|] eqn:Hbody.
    + pose proof (walk_returns w0 body w Hmem) as Hres.
      destruct (walk w body) as [[body' w1]|] eqn:Hwalk; last first.
      { split; [by intros [? ?]|]. intros [Hb _].
        apply Hres in Hb; [by destruct Hb|done]. }
      cbn [mbind option_bind].
      pose proof (walk_extends _ _ _ _ Hwalk) as Hext.
      pose proof (extends_sameMemory _ _ _ Hmem Hext) as Hmem1.
      destruct Hext as (_ & _ & Hf & _).
      rewrite (IH (S i)); last first; try lia.
      * cbn [setWasm wasm setFunctions functions].
        rewrite drop_insert_lt by lia. rewrite Hf. by apply drop_S_eq.
      * cbn [setWasm wasm setFunctions functions].
        by rewrite length_insert, Hf.
      * destruct Hmem1 as [? ?]. by split.
      * split; [intros Hall; split; [|done]|by intros [_ ?]].
        intros body0 [= <-]. apply Hres. eauto.
    + cbn [mbind option_bind]. rewrite (IH (S i)); try done; try lia.
      * split; [intros Hall; split; [done|done]|by intros [_ ?]].
      * by apply drop_S_eq.
Qed.

Lemma walkModule_returns (m : Module) (segs : gmap N N) :
  is_Some (walkModule (newWalker m segs))
  ↔ Forall (λ f, ∀ body, fn_body f = Some body →
                         resolvable (newWalker m segs) body = true)
      (functions m).
Proof.
  unfold walkModule.
  rewrite (walkFunctions_returns (newWalker m segs) (functions m)
             (length (functions m)) 0 (newWalker m segs)); try done.
Qed.

(** X24. [generateEmscriptenMetadata] returns exactly when every intrinsic
    call in the function bodies of the module, at whatever depth, has a
    constant as first operand that [codeForConstAddr] resolves against the
    memory and the address mapping given; calls that are not intrinsic
    calls, and functions without a body, never make it fail. *)
Theorem generateEmscriptenMetadata_returns_iff (o : string) (m : Module)
    (segs : gmap N N) (staticBump : N) (initializerFunctions : list Name) :
  is_Some (generateEmscriptenMetadata o m segs staticBump initializerFunctions)
  ↔ Forall (λ f, ∀ body, fn_body f = Some body →
                         resolvable (newWalker m segs) body = true)
      (functions m).
Proof.
  rewrite <- walkModule_returns. unfold generateEmscriptenMetadata.
  destruct (walkModule (newWalker m segs)); [split; eauto|].
  split; by intros [? ?].
Qed.

(** *** The emitter before the thunks *)

Lemma filter_none {A} (P : A → Prop) `{∀ x, Decision (P x)} (l : list A) :
  Forall (λ x, ¬ P x) l → filter P l = [].
Proof.
  induction 1 as [|x l Hx _ IH]; [done|]. by rewrite filter_cons_False.
Qed.

(** X25. [makeDynCallThunks] undoes the imports of the rewriter: run on
    the module that [generateEmscriptenMetadata] returns, it removes every
    import that the walk has added, along with the imports of the original
    module whose name contains the intrinsic name, so that the rewritten
    calls are left without their imports. *)
Theorem makeDynCallThunks_after_metadata (o : string) (m : Module)
    (segs : gmap N N) (staticBump : N) (initializerFunctions : list Name)
    (out : string) (m' : Module) (table : list Name)
    (generated : list Function) (m'' : Module) :
  generateEmscriptenMetadata o m segs staticBump initializerFunctions
  = Some (out, m') →
  makeDynCallThunks m' table = Some (generated, m'') →
  imports m''
  = filter (λ i, hasSubstring (im_name i) EMSCRIPTEN_ASM_CONST = false)
      (imports m).
Proof.
  intros Hmeta Hrun.
  destruct (generateEmscriptenMetadata_walk _ _ _ _ _ _ _ Hmeta)
    as (walker & Hw & ->).
  destruct (makeDynCallThunks_inv _ _ _ _ Hrun)
    as (_ & _ & _ & _ & _ & -> & _).
  destruct (walkModule_registries m segs walker Hw)
    as (sites & sites' & w'' & Hv & _ & _ & _ & -> & _).
  destruct (walk_spec m segs sites sites' w'' Hv)
    as ((_ & _ & _ & _ & (imps & -> & Hfor) & _) & _).
  cbn [newWalker wasm]. rewrite filter_app.
  rewrite (filter_none _ imps), app_nil_r; [done|].
  apply Forall_forall. intros imp Himp Hfalse.
  apply list_elem_of_lookup in Himp as [j Hj].
  destruct (Forall2_lookup_r _ _ _ _ _ Hfor Hj) as (sig & _ & Hname & _).
  rewrite Hname, nameForImportWithSig_intrinsic in Hfalse. done.
Qed.

End EmitterFacts.

(** * Worked instances *)

Example asmConstSig_iid : asmConstSig "iid" = "id".
Proof. reflexivity. Qed.

Example escape_backslash_n :
  escape ("x" +:+ esc_n +:+ "y") = Some ("x" +:+ esc_esc_n +:+ "y").
Proof. reflexivity. Qed.

Example escape_lone_quote : escape (String dquote "") = Some esc_quote.
Proof. reflexivity. Qed.

(** The inner call is visited first, so x gets id 0 and y gets id 1; the
    record lists the codes in the order of the strings. *)
Example metadata_of_nested_calls :
  fst <$> generateEmscriptenMetadata (H := emscriptenConstants) ""
            Demo.nestedModule Demo.codeSegments 1024 ["a"; "b"]
  = Some (";; METADATA: { " +:+ quoted "asmConsts" +:+ ": {"
            +:+ quoted "0" +:+ ": [" +:+ quoted "x" +:+ ", [" +:+ quoted "i"
            +:+ "]]," +:+ quoted "1" +:+ ": [" +:+ quoted "y" +:+ ", ["
            +:+ quoted "ii" +:+ "]]}," +:+ quoted "staticBump" +:+ ": 1024, "
            +:+ quoted "initializers" +:+ ": [" +:+ quoted "a" +:+ ", "
            +:+ quoted "b" +:+ "] }" +:+ String newline "").
Proof. reflexivity. Qed.

(** The body of that function after the walk. *)
Example nested_calls_rewritten :
  (λ r, fn_body <$> functions r.2)
    <$> generateEmscriptenMetadata (H := emscriptenConstants) ""
          Demo.nestedModule Demo.codeSegments 1024 []
  = Some [Some (CallImport "emscripten_asm_const_ii"
                  [Const (LitI32 1);
                   CallImport "emscripten_asm_const_i" [Const (LitI32 0)] i32]
                  i32)].
Proof. reflexivity. Qed.

(** The walk over the five call sites: y is met first and gets id 0, x
    gets 1, the empty string of the uncovered address gets 2. *)
Lemma ids_follow_first_seen_order_witness :
  visitAll (H := emscriptenConstants)
    (newWalker Demo.codeModule Demo.codeSegments) Demo.sites
  = Some (Demo.sitesRewritten, Demo.walked)
  ∧ (Z.of_nat
       (length
          (distinct
             (observed (newWalker Demo.codeModule Demo.codeSegments)
                Demo.sites).*1))
     ≤ 2 ^ 31)%Z
  ∧ (∀ k code,
       distinct
         (observed (newWalker Demo.codeModule Demo.codeSegments)
            Demo.sites).*1 !! k = Some code →
       ids Demo.walked !! code = Some (N.of_nat k))
  ∧ size (ids Demo.walked) = 3.
Proof.
  assert (visitAll (H := emscriptenConstants)
            (newWalker Demo.codeModule Demo.codeSegments) Demo.sites
          = Some (Demo.sitesRewritten, Demo.walked)) as Hwalk
    by reflexivity.
  assert (Z.of_nat
            (length
               (distinct
                  (observed (newWalker Demo.codeModule Demo.codeSegments)
                     Demo.sites).*1))
          ≤ 2 ^ 31)%Z as Hbound
    by (intros Hgt; discriminate Hgt).
  destruct (ids_follow_first_seen_order (H := emscriptenConstants)
              Demo.codeModule Demo.codeSegments Demo.sites
              Demo.sitesRewritten Demo.walked Hwalk Hbound)
    as (Hk & Hsize & _).
  split; [exact Hwalk|]. split; [exact Hbound|].
  split; [exact Hk|exact Hsize].
Defined.

(** The same walk appends three imports, for the reduced signatures i, vd
    and v in this order. *)
Lemma intrinsic_calls_rewritten_witness :
  visitAll (H := emscriptenConstants)
    (newWalker Demo.codeModule Demo.codeSegments) Demo.sites
  = Some (Demo.sitesRewritten, Demo.walked)
  ∧ ∃ imps,
      imports (wasm Demo.walked) = imports Demo.codeModule ++ imps
      ∧ Forall2
          (λ sig imp,
             imp = mkImport (EMSCRIPTEN_ASM_CONST +:+ "_" +:+ sig) "env"
                     (EMSCRIPTEN_ASM_CONST +:+ "_" +:+ sig)
                     (im_functionType imp) KFunction
             ∧ ∃ t curr,
                 curr ∈ Demo.sites
                 ∧ hasSubstring (ci_target curr) EMSCRIPTEN_ASM_CONST = true
                 ∧ asmConstSig (Sig.ofCall curr) = sig
                 ∧ t ∈ functionTypes (wasm Demo.walked)
                 ∧ ft_name t = im_functionType imp
                 ∧ Sig.ofFunctionType t = Sig.ofCall curr)
          ["i"; "vd"; "v"] imps.
Proof.
  assert (visitAll (H := emscriptenConstants)
            (newWalker Demo.codeModule Demo.codeSegments) Demo.sites
          = Some (Demo.sitesRewritten, Demo.walked)) as Hwalk
    by reflexivity.
  split; [exact Hwalk|].
  exact (proj2 (intrinsic_calls_rewritten (H := emscriptenConstants)
                  Demo.codeModule Demo.codeSegments Demo.sites
                  Demo.sitesRewritten Demo.walked Hwalk)).
Defined.

(** The walk over the two call sites that resolve to x. *)
Lemma sigsForCode_one_member_per_signature_witness :
  visitAll (H := emscriptenConstants)
    (newWalker Demo.codeModule Demo.codeSegments) Demo.sitesX
  = Some (Demo.sitesXRewritten, Demo.walkedX)
  ∧ observed (newWalker Demo.codeModule Demo.codeSegments) Demo.sitesX
    = [("x", "i"); ("x", "v")]
  ∧ sigsForCode Demo.walkedX !! "x" = Some {[ "i"; "v" ]}
  ∧ ids Demo.walkedX !! "x" = Some 0%N
  ∧ size (ids Demo.walkedX) = 1.
Proof.
  assert (visitAll (H := emscriptenConstants)
            (newWalker Demo.codeModule Demo.codeSegments) Demo.sitesX
          = Some (Demo.sitesXRewritten, Demo.walkedX)) as Hwalk
    by reflexivity.
  assert (observed (newWalker Demo.codeModule Demo.codeSegments) Demo.sitesX
          = [("x", "i"); ("x", "v")]) as Hobs
    by reflexivity.
  split; [exact Hwalk|]. split; [exact Hobs|].
  exact (proj2 (sigsForCode_one_member_per_signature
                  (H := emscriptenConstants)
                  Demo.codeModule Demo.codeSegments Demo.sitesX
                  Demo.sitesXRewritten Demo.walkedX Hwalk) Hobs).
Defined.

(** A visit at the address 99, which no segment covers, in a fresh walker. *)
Lemma unresolved_address_gives_empty_code_witness :
  segmentsByAddress (newWalker Demo.codeModule Demo.codeSegments)
    !! to_address 99 = None
  ∧ codeForConstAddr (newWalker Demo.codeModule Demo.codeSegments) (LitI32 99)
    = Some ""
  ∧ ∃ w' id sigs,
      visitCallImport (H := emscriptenConstants)
        (newWalker Demo.codeModule Demo.codeSegments)
        (Demo.site "emscripten_asm_const" 99 [] none)
      = Some (mkCallImport "emscripten_asm_const_v"
                [Const (LitI32 (to_int32 (Z.of_N id)))] none, w')
      ∧ ids w' !! "" = Some id
      ∧ id = 0%N
      ∧ sigsForCode w' !! "" = Some sigs
      ∧ "v" ∈ sigs.
Proof.
  assert (segmentsByAddress (newWalker Demo.codeModule Demo.codeSegments)
            !! to_address 99 = None) as Hmiss by (by vm_compute).
  destruct (unresolved_address_gives_empty_code (H := emscriptenConstants)
              (newWalker Demo.codeModule Demo.codeSegments)
              (Demo.site "emscripten_asm_const" 99 [] none) 99 [] Hmiss)
    as [Hcode Hvisit].
  destruct (Hvisit eq_refl eq_refl)
    as (w' & id & sigs & Hv & Hid & Hnew & _ & Hsigs & Hin).
  split; [exact Hmiss|]. split; [exact Hcode|].
  exists w', id, sigs. split_and!; try done. by apply Hnew.
Defined.

(** The table a, b, c, d over the functions of signatures ii, ii, v, ij. *)
Lemma makeDynCallThunks_one_per_signature_witness :
  Forall2 (λ name func, Wasm.getFunction Demo.tableModule name = Some func)
    ["a"; "b"; "c"; "d"] Demo.tableFunctions
  ∧ Sig.ofFunction <$> Demo.tableFunctions = ["ii"; "ii"; "v"; "ij"]
  ∧ ∃ generated wasm',
      makeDynCallThunks Demo.tableModule ["a"; "b"; "c"; "d"]
      = Some (generated, wasm')
      ∧ fn_name <$> generated = ["dynCall_ii"; "dynCall_v"].
Proof.
  assert (Forall2
            (λ name func, Wasm.getFunction Demo.tableModule name = Some func)
            ["a"; "b"; "c"; "d"] Demo.tableFunctions) as Htable
    by (repeat constructor).
  split; [exact Htable|]. split; [reflexivity|].
  destruct (makeDynCallThunks_one_per_signature Demo.tableModule
              ["a"; "b"; "c"; "d"] Demo.tableFunctions Htable)
    as (generated & wasm' & Hrun & _ & _ & Hexample).
  exists generated, wasm'. split; [exact Hrun|]. by apply Hexample.
Defined.

(** The two thunks of that table. *)
Lemma makeDynCallThunks_thunk_shape_witness :
  Forall2 (λ name func, Wasm.getFunction Demo.tableModule name = Some func)
    ["a"; "b"; "c"; "d"] Demo.tableFunctions
  ∧ Forall (λ g, (Z.of_nat (length (fn_params g)) < two32)%Z)
      Demo.tableFunctions
  ∧ ∃ generated wasm',
      makeDynCallThunks Demo.tableModule ["a"; "b"; "c"; "d"]
      = Some (generated, wasm')
      ∧ Forall2
          (λ sig f, ∃ callee fullType names,
             callee ∈ Demo.tableFunctions ∧ Sig.ofFunction callee = sig
             ∧ (∃ t, t ∈ functionTypes wasm' ∧ ft_name t = fullType
                     ∧ ft_result t = fn_result callee
                     ∧ ft_params t = fn_params callee)
             ∧ f = mkFunction ("dynCall_" +:+ sig) (fn_result callee)
                     (i32 :: fn_params callee) [] ("fptr" :: names)
                     (Some (CallIndirect fullType (GetLocal 0 i32)
                              (imap (λ i ty, GetLocal (N.of_nat i + 1) ty)
                                 (fn_params callee))
                              (fn_result callee))))
          ["ii"; "v"] generated.
Proof.
  assert (Forall2
            (λ name func, Wasm.getFunction Demo.tableModule name = Some func)
            ["a"; "b"; "c"; "d"] Demo.tableFunctions) as Htable
    by (repeat constructor).
  assert (Forall (λ g, (Z.of_nat (length (fn_params g)) < two32)%Z)
            Demo.tableFunctions) as Hbound
    by (repeat constructor).
  split; [exact Htable|]. split; [exact Hbound|].
  exact (makeDynCallThunks_thunk_shape Demo.tableModule ["a"; "b"; "c"; "d"]
           Demo.tableFunctions Htable Hbound).
Defined.

(** The record of a module whose calls are not intrinsic calls. *)
Lemma generateEmscriptenMetadata_empty_witness :
  noIntrinsicCalls Demo.plainModule
  ∧ generateEmscriptenMetadata (H := emscriptenConstants) "" Demo.plainModule
      Demo.codeSegments 1024 []
    = Some (emptyMetadata1024, Demo.plainModule).
Proof.
  assert (noIntrinsicCalls Demo.plainModule) as Hno.
  { repeat constructor. by intros body [= <-]. }
  split; [exact Hno|].
  exact (generateEmscriptenMetadata_empty (H := emscriptenConstants) ""
           Demo.plainModule Demo.codeSegments Hno).
Defined.

(** C4 (as stated) fails: for the empty module the emitter writes the
    record without that blank, which is not the quoted text. *)
Lemma metadata_differs_from_quoted_text :
  generateEmscriptenMetadata (H := emscriptenConstants) ""
    (mkModule [] [] [] [] []) ∅ 1024 []
  = Some (emptyMetadata1024, mkModule [] [] [] [] [])
  ∧ emptyMetadata1024 ≠ quotedMetadata1024
  ∧ generateEmscriptenMetadata (H := emscriptenConstants) ""
      (mkModule [] [] [] [] []) ∅ 1024 []
    ≠ Some (quotedMetadata1024, mkModule [] [] [] [] []).
Proof. split_and!; by vm_compute. Qed.

(** The table a, b, c, d once more: the intrinsic import is removed and
    the two thunks are appended. *)
Lemma makeDynCallThunks_frame_witness :
  makeDynCallThunks Demo.tableModule ["a"; "b"; "c"; "d"]
  = Some (Samples.tableThunks, Samples.tableModuleAfter)
  ∧ imports Samples.tableModuleAfter
    = filter (λ i, hasSubstring (im_name i) EMSCRIPTEN_ASM_CONST = false)
        (imports Demo.tableModule)
  ∧ functions Samples.tableModuleAfter
    = functions Demo.tableModule ++ Samples.tableThunks.
Proof.
  assert (makeDynCallThunks Demo.tableModule ["a"; "b"; "c"; "d"]
          = Some (Samples.tableThunks, Samples.tableModuleAfter)) as Hrun
    by reflexivity.
  destruct (makeDynCallThunks_frame Demo.tableModule ["a"; "b"; "c"; "d"]
              Samples.tableThunks Samples.tableModuleAfter Hrun)
    as (Himp & Hfun & _).
  split; [exact Hrun|]. split; [exact Himp|exact Hfun].
Defined.

Lemma makeDynCallThunks_names_distinct_witness :
  makeDynCallThunks Demo.tableModule ["a"; "b"; "c"; "d"]
  = Some (Samples.tableThunks, Samples.tableModuleAfter)
  ∧ NoDup (fn_name <$> Samples.tableThunks).
Proof.
  assert (makeDynCallThunks Demo.tableModule ["a"; "b"; "c"; "d"]
          = Some (Samples.tableThunks, Samples.tableModuleAfter)) as Hrun
    by reflexivity.
  split; [exact Hrun|].
  exact (proj1 (makeDynCallThunks_names_distinct Demo.tableModule
                  ["a"; "b"; "c"; "d"] Samples.tableThunks
                  Samples.tableModuleAfter Hrun)).
Defined.

Lemma makeDynCallThunks_never_i64_witness :
  makeDynCallThunks Demo.tableModule ["a"; "b"; "c"; "d"]
  = Some (Samples.tableThunks, Samples.tableModuleAfter)
  ∧ Forall (λ f, fn_result f ≠ i64 ∧ i64 ∉ fn_params f) Samples.tableThunks.
Proof.
  assert (makeDynCallThunks Demo.tableModule ["a"; "b"; "c"; "d"]
          = Some (Samples.tableThunks, Samples.tableModuleAfter)) as Hrun
    by reflexivity.
  split; [exact Hrun|].
  exact (makeDynCallThunks_never_i64 Demo.tableModule ["a"; "b"; "c"; "d"]
           Samples.tableThunks Samples.tableModuleAfter Hrun).
Defined.

(** The table a, zz: no function is named zz. *)
Lemma makeDynCallThunks_missing_function_witness :
  "zz" ∈ ["a"; "zz"]
  ∧ Wasm.getFunction Demo.tableModule "zz" = None
  ∧ String.prefix "dynCall_" "zz" = false
  ∧ makeDynCallThunks Demo.tableModule ["a"; "zz"] = None.
Proof.
  assert ("zz" ∈ ["a"; "zz"]) as Hin
    by (apply list_elem_of_In; right; left; reflexivity).
  split; [exact Hin|]. split; [reflexivity|]. split; [reflexivity|].
  exact (makeDynCallThunks_missing_function Demo.tableModule ["a"; "zz"] "zz"
           Hin eq_refl eq_refl).
Defined.

(** The text a, quote, b, cut in front of the quote. *)
Lemma escape_distributes_witness :
  lastc None "a" ≠ Some backslash
  ∧ ∃ es et,
      escape "a" = Some es ∧ escape (String dquote "b") = Some et
      ∧ escape ("a" +:+ String dquote "b") = Some (es +:+ et).
Proof.
  assert (lastc None "a" ≠ Some backslash) as Hlast
    by (intros Heq; discriminate Heq).
  split; [exact Hlast|].
  exact (escape_distributes "a" (String dquote "b") Hlast).
Defined.

(** The quote of the escaped lone quote stands at index 1, behind a
    backslash. *)
Lemma escape_guards_every_quote_witness :
  escape (String dquote "") = Some esc_quote
  ∧ String.get 1 esc_quote = Some dquote
  ∧ ∃ j, 1 = S j ∧ String.get j esc_quote = Some backslash.
Proof.
  split; [reflexivity|]. split; [reflexivity|].
  exact (escape_guards_every_quote (String dquote "") esc_quote 1
           eq_refl eq_refl).
Defined.

Lemma escape_injective_witness :
  escape escape_sample
  = Some ("a" +:+ esc_esc_esc_quote +:+ "b" +:+ esc_quote +:+ "c")
  ∧ escape_sample = escape_sample.
Proof.
  split; [reflexivity|].
  exact (escape_injective escape_sample escape_sample
           ("a" +:+ esc_esc_esc_quote +:+ "b" +:+ esc_quote +:+ "c")
           eq_refl eq_refl).
Defined.

(** The address 8 of the sample memory is mapped to the segment that
    holds x and a NUL. *)
Lemma codeForConstAddr_reads_c_string_witness :
  segmentsByAddress (newWalker Demo.codeModule Demo.codeSegments)
    !! to_address 8 = Some 0%N
  ∧ segments (wasm (newWalker Demo.codeModule Demo.codeSegments))
      !! N.to_nat 0 = Some (mkSegment ["x"%char; zero])
  ∧ (zero ∉ list_ascii_of_string "x")
  ∧ ∃ code,
      escape "x" = Some code
      ∧ codeForConstAddr (newWalker Demo.codeModule Demo.codeSegments)
          (LitI32 8) = Some code.
Proof.
  assert (segmentsByAddress (newWalker Demo.codeModule Demo.codeSegments)
            !! to_address 8 = Some 0%N) as Hidx by (by vm_compute).
  assert (zero ∉ list_ascii_of_string "x") as Hz.
  { intros Hin. apply list_elem_of_In in Hin. destruct Hin as [Heq|[]].
    discriminate Heq. }
  split; [exact Hidx|]. split; [reflexivity|]. split; [exact Hz|].
  exact (codeForConstAddr_reads_c_string
           (newWalker Demo.codeModule Demo.codeSegments) 8 0%N
           (mkSegment ["x"%char; zero]) "x" [] Hidx eq_refl eq_refl Hz).
Defined.

(** The walk over the five call sites keeps them all and leaves the
    functions and the exports alone. *)
Lemma visits_only_add_witness :
  visitAll (H := emscriptenConstants)
    (newWalker Demo.codeModule Demo.codeSegments) Demo.sites
  = Some (Demo.sitesRewritten, Demo.walked)
  ∧ length Demo.sitesRewritten = length Demo.sites
  ∧ segmentsByAddress Demo.walked = Demo.codeSegments
  ∧ segments (wasm Demo.walked) = segments Demo.codeModule
  ∧ functions (wasm Demo.walked) = functions Demo.codeModule
  ∧ exports (wasm Demo.walked) = exports Demo.codeModule.
Proof.
  assert (visitAll (H := emscriptenConstants)
            (newWalker Demo.codeModule Demo.codeSegments) Demo.sites
          = Some (Demo.sitesRewritten, Demo.walked)) as Hwalk
    by reflexivity.
  destruct (visits_only_add (H := emscriptenConstants)
              (newWalker Demo.codeModule Demo.codeSegments) Demo.walked
              Demo.sites Demo.sitesRewritten Hwalk)
    as (Hlen & Hsa & Hseg & Hfun & Hexp & _).
  split; [exact Hwalk|]. split; [exact Hlen|]. split; [exact Hsa|].
  split; [exact Hseg|]. split; [exact Hfun|exact Hexp].
Defined.

(** The three ids of that walk belong to three strings. *)
Lemma ids_are_distinct_witness :
  visitAll (H := emscriptenConstants)
    (newWalker Demo.codeModule Demo.codeSegments) Demo.sites
  = Some (Demo.sitesRewritten, Demo.walked)
  ∧ (Z.of_nat (size (ids Demo.walked)) ≤ 2 ^ 32)%Z
  ∧ ∀ code1 code2 a,
      ids Demo.walked !! code1 = Some a → ids Demo.walked !! code2 = Some a →
      code1 = code2.
Proof.
  assert (visitAll (H := emscriptenConstants)
            (newWalker Demo.codeModule Demo.codeSegments) Demo.sites
          = Some (Demo.sitesRewritten, Demo.walked)) as Hwalk
    by reflexivity.
  assert (Z.of_nat (size (ids Demo.walked)) ≤ 2 ^ 32)%Z as Hbound
    by (intros Hgt; discriminate Hgt).
  split; [exact Hwalk|]. split; [exact Hbound|].
  exact (ids_are_distinct (H := emscriptenConstants) Demo.codeModule
           Demo.codeSegments Demo.sites Demo.sitesRewritten Demo.walked
           Hwalk Hbound).
Defined.

(** Each of the four rewritten call sites of that walk has its import. *)
Lemma rewritten_calls_have_imports_witness :
  visitAll (H := emscriptenConstants)
    (newWalker Demo.codeModule Demo.codeSegments) Demo.sites
  = Some (Demo.sitesRewritten, Demo.walked)
  ∧ Forall
      (λ curr',
         hasSubstring (ci_target curr') EMSCRIPTEN_ASM_CONST = true →
         ∃ imp t,
           imp ∈ imports (wasm Demo.walked) ∧ im_name imp = ci_target curr'
           ∧ im_kind imp = KFunction
           ∧ t ∈ functionTypes (wasm Demo.walked)
           ∧ ft_name t = im_functionType imp
           ∧ Sig.ofFunctionType t = Sig.ofCall curr')
      Demo.sitesRewritten.
Proof.
  assert (visitAll (H := emscriptenConstants)
            (newWalker Demo.codeModule Demo.codeSegments) Demo.sites
          = Some (Demo.sitesRewritten, Demo.walked)) as Hwalk
    by reflexivity.
  split; [exact Hwalk|].
  exact (rewritten_calls_have_imports (H := emscriptenConstants)
           Demo.codeModule Demo.codeSegments Demo.sites Demo.sitesRewritten
           Demo.walked Hwalk).
Defined.


(** The walk of the module with one intrinsic call on x. *)
Lemma registries_agree_after_walkModule_witness :
  walkModule (H := emscriptenConstants)
    (newWalker Samples.linkedModule Demo.codeSegments)
  = Some Samples.linkedWalker
  ∧ dom (sigsForCode Samples.linkedWalker) = dom (ids Samples.linkedWalker)
  ∧ ∀ sig, sig ∈ allSigs Samples.linkedWalker →
           ∃ imp, imp ∈ imports (wasm Samples.linkedWalker)
                  ∧ im_name imp = nameForImportWithSig sig.
Proof.
  assert (walkModule (H := emscriptenConstants)
            (newWalker Samples.linkedModule Demo.codeSegments)
          = Some Samples.linkedWalker) as Hwalk
    by reflexivity.
  destruct (registries_agree_after_walkModule (H := emscriptenConstants)
              Samples.linkedModule Demo.codeSegments Samples.linkedWalker
              Hwalk) as (Hdom & _ & Himp).
  split; [exact Hwalk|]. split; [exact Hdom|exact Himp].
Defined.

(** The record of the module without intrinsic calls, with a static bump
    of 7 and two initializers. *)
Lemma generateEmscriptenMetadata_without_intrinsic_witness :
  noIntrinsicCalls Demo.plainModule
  ∧ generateEmscriptenMetadata (H := emscriptenConstants) "" Demo.plainModule
      Demo.codeSegments 7 ["a"; "b"]
    = Some ("" +:+ ";; METADATA: { " +:+ quoted "asmConsts" +:+ ": {},"
              +:+ quoted "staticBump" +:+ ": " +:+ to_string (Z.of_N 7)
              +:+ ", " +:+ quoted "initializers" +:+ ": ["
              +:+ String.concat ", " (quoted <$> ["a"; "b"])
              +:+ "] }" +:+ String newline "",
            Demo.plainModule).
Proof.
  assert (noIntrinsicCalls Demo.plainModule) as Hno.
  { repeat constructor. by intros body [= <-]. }
  split; [exact Hno|].
  exact (generateEmscriptenMetadata_without_intrinsic
           (H := emscriptenConstants) "" Demo.plainModule Demo.codeSegments
           7 ["a"; "b"] Hno).
Defined.

(** The emitter on the module with one intrinsic call on x: one import is
    appended, the export and the two functions are still there. *)
Lemma generateEmscriptenMetadata_frame_witness :
  generateEmscriptenMetadata (H := emscriptenConstants) ""
    Samples.linkedModule Demo.codeSegments 1024 ["init"]
  = Some (Samples.linkedRecord, Samples.linkedModuleWalked)
  ∧ exports Samples.linkedModuleWalked = exports Samples.linkedModule
  ∧ segments Samples.linkedModuleWalked = segments Samples.linkedModule
  ∧ imports Samples.linkedModule `prefix_of` imports Samples.linkedModuleWalked
  ∧ fn_name <$> functions Samples.linkedModuleWalked = ["main"; "g"].
Proof.
  assert (generateEmscriptenMetadata (H := emscriptenConstants) ""
            Samples.linkedModule Demo.codeSegments 1024 ["init"]
          = Some (Samples.linkedRecord, Samples.linkedModuleWalked)) as Hrun
    by reflexivity.
  destruct (generateEmscriptenMetadata_frame (H := emscriptenConstants) ""
              Samples.linkedModule Demo.codeSegments 1024 ["init"]
              Samples.linkedRecord Samples.linkedModuleWalked Hrun)
    as (Hexp & Hseg & Himp & _).
  split; [exact Hrun|]. split; [exact Hexp|]. split; [exact Hseg|].
  split; [exact Himp|reflexivity].
Defined.

(** The thunks made after the emitter has run: of the three imports only
    the one that is not intrinsic is left. *)
Lemma makeDynCallThunks_after_metadata_witness :
  generateEmscriptenMetadata (H := emscriptenConstants) ""
    Samples.linkedModule Demo.codeSegments 1024 ["init"]
  = Some (Samples.linkedRecord, Samples.linkedModuleWalked)
  ∧ makeDynCallThunks Samples.linkedModuleWalked ["g"]
    = Some ([Samples.dynCall_ii], Samples.linkedModuleThunked)
  ∧ imports Samples.linkedModuleThunked
    = filter (λ i, hasSubstring (im_name i) EMSCRIPTEN_ASM_CONST = false)
        (imports Samples.linkedModule).
Proof.
  assert (generateEmscriptenMetadata (H := emscriptenConstants) ""
            Samples.linkedModule Demo.codeSegments 1024 ["init"]
          = Some (Samples.linkedRecord, Samples.linkedModuleWalked)) as Hmeta
    by reflexivity.
  assert (makeDynCallThunks Samples.linkedModuleWalked ["g"]
          = Some ([Samples.dynCall_ii], Samples.linkedModuleThunked)) as Hrun
    by reflexivity.
  split; [exact Hmeta|]. split; [exact Hrun|].
  exact (makeDynCallThunks_after_metadata (H := emscriptenConstants) ""
           Samples.linkedModule Demo.codeSegments 1024 ["init"]
           Samples.linkedRecord Samples.linkedModuleWalked ["g"]
           [Samples.dynCall_ii] Samples.linkedModuleThunked Hmeta Hrun).
Defined.
